(** * slog: the generated record stringifier and the logfmt line formatter

    A shallow embedding of [inc/slog/err_gen.h] (the X-macro that generates
    [STRUCT_NAME_to_str]) and of [src/slog.c] ([format_logfmt],
    [parse_unknown_error]), with the properties the specification states
    about them; then of the logger as it runs on a heap ([init_logging_system],
    [sink_to_file_stream], [free_kv_pairs], the placeholder extractor and the
    macro [LOG_ERRORR] of [inc/slog/slog.h]) and of [tests/test_slog.c]
    ([compare_strings_and_print_diff], [SpecialFeature_to_str],
    [Product_to_str], [test_struct_to_str]), with properties read off the
    code.

    Conventions of the embedding.
    - A C string is the list of its bytes before the terminator; a
      [const char*] that may be null is an [option].
    - C integers are elements of [Z].  [int] is 32 bits wide: an addition
      that leaves the range is undefined behaviour.  [size_t] is 64 bits wide
      and wraps around.
    - The destination of a stringifier is a region of memory, a list of
      bytes, and an index [buffer] into it, so that [buffer + offset] is
      pointer arithmetic.  A store outside the region is undefined
      behaviour.  A null destination is a region of length 0.
    - Undefined behaviour is the result [None] (or [Undefined]).
    - A nested field of a [field] calls the stringifier the macro generates
      for its type.  The stringifier the test suite writes by hand, and the
      generated one that calls it, are embedded on their own. *)

From Stdlib Require Import ZArith Lia Bool Ascii String.
From Stdlib Require DecimalString HexadecimalString.
From stdpp Require Import base option list.

Open Scope Z_scope.

(** ** C strings and memory *)

Abbreviation cstring := (list ascii) (only parsing).
Abbreviation mem := (list ascii) (only parsing).

(** A string literal as a C string. *)
Definition str (s : string) : cstring := list_ascii_of_string s.

Arguments str : simpl never.

Definition NUL : ascii := Ascii.zero.

Definition SPACE : ascii := " "%char.

Definition PERCENT : ascii := "%"%char.

Definition INT_MAX : Z := 2147483647.

Definition SIZE_MODULUS : Z := 2 ^ 64.

Definition strlen (s : cstring) : Z := Z.of_nat (length s).

(** [*(p) = c] for the byte at index [p] of the region. *)
Definition store (m : mem) (p : Z) (c : ascii) : option mem :=
  if (0 <=? p) && (p <? Z.of_nat (length m))
  then Some (<[Z.to_nat p := c]> m)
  else None.

(** Consecutive stores of the bytes of [bs] from index [p] on. *)
Fixpoint store_bytes (m : mem) (p : Z) (bs : list ascii) : option mem :=
  match bs with
  | [] => Some m
  | b :: bs' =>
      match store m p b with
      | Some m' => store_bytes m' (p + 1) bs'
      | None => None
      end
  end.

(** Signed addition on [int]; overflow is undefined. *)
Definition int_add (a b : Z) : option Z :=
  if a + b <=? INT_MAX then Some (a + b) else None.

(** ** The part of [printf] the library uses *)

(** The value of a scalar field as it is passed to [snprintf]. *)
Inductive cvalue : Type :=
| VInt (n : Z)                     (* int *)
| VStr (s : option cstring).       (* const char*, possibly null *)

(** ["%d"] of an [int]. *)
Definition decimal (n : Z) : cstring :=
  str (DecimalString.NilZero.string_of_int (Z.to_int n)).

(** The bytes a format string produces from its arguments.  Ordinary bytes
    are copied, ["%%"] gives one ['%'], ["%d"] and ["%s"] consume the next
    argument, which must have the matching type.  Every other directive, a
    missing argument and a null string are outside the model: [None]. *)
Fixpoint printf_output (fmt : cstring) (args : list cvalue) : option cstring :=
  match fmt with
  | [] => Some []
  | c :: rest =>
      if Ascii.eqb c PERCENT then
        match rest with
        | d :: rest' =>
            if Ascii.eqb d PERCENT then
              cons PERCENT <$> printf_output rest' args
            else if Ascii.eqb d "d"%char then
              match args with
              | VInt n :: args' => app (decimal n) <$> printf_output rest' args'
              | _ => None
              end
            else if Ascii.eqb d "s"%char then
              match args with
              | VStr (Some s) :: args' => app s <$> printf_output rest' args'
              | _ => None
              end
            else None
        | [] => None
        end
      else cons c <$> printf_output rest args
  end.

(** [snprintf(dst, n, fmt, args...)] on the region: at most [n - 1] bytes of
    the output and a terminator are stored when [n > 0]; the result is the
    length of the whole output, or a negative value when that length does not
    fit an [int]. *)
Definition snprintf (m : mem) (dst n : Z) (fmt : cstring) (args : list cvalue)
  : option (Z * mem) :=
  match printf_output fmt args with
  | None => None
  | Some out =>
      let res := if strlen out <=? INT_MAX then strlen out else -1 in
      if 0 <? n then
        match store_bytes m dst (take (Z.to_nat (n - 1)) out ++ [NUL]) with
        | Some m' => Some (res, m')
        | None => None
        end
      else Some (res, m)
  end.

(** [snprintf] into a local array of [size] bytes whose result is ignored:
    the array then holds the first [size - 1] bytes of the output. *)
Definition snprintf_local (size : nat) (out : cstring) : cstring :=
  take (size - 1) out.

(** ** Records: field descriptors together with the field values *)

Unset Elimination Schemes.

(** One entry of a [FIELDS_XMACRO_LIST], [X(ctype, cname, ckind,
    struct_type_token, primitive_format_spec)], with the value the field has
    in the record instance.  [ckind] is the constructor; a nested field
    carries the entries of [struct_type_token], whose generated stringifier
    it calls. *)
Inductive field : Type :=
| PRIMITIVE (cname : cstring) (primitive_format_spec : cstring) (v : cvalue)
| STRUCT (cname : cstring) (members : list field).

Set Elimination Schemes.

(** Induction over a record descriptor and the descriptors nested in it. *)
Definition field_ind (P : field → Prop)
    (Hprim : ∀ cname fmt v, P (PRIMITIVE cname fmt v))
    (Hstruct : ∀ cname members, Forall P members → P (STRUCT cname members))
  : ∀ f, P f :=
  fix go (f : field) : P f :=
    match f with
    | PRIMITIVE cname fmt v => Hprim cname fmt v
    | STRUCT cname members =>
        Hstruct cname members
          ((fix all (fs : list field) : Forall P fs :=
              match fs with
              | [] => @List.Forall_nil _ P
              | g :: gs => @List.Forall_cons _ P g gs (go g) (all gs)
              end) members)
    end.

Abbreviation record := (list field) (only parsing).

(** ** [_XMACRO_FIELD_TO_STRING_LOGIC] and [_DEFINE_TO_STR_INTERNAL] *)

(** The local variables [offset] and [first_field_in_struct]. *)
Record locals : Type := Locals {
  offset : Z;
  first_field_in_struct : bool
}.

(** What a block of the generated function does: undefined behaviour, a
    [return], or falling through to the next statement. *)
Inductive outcome : Type :=
| Undefined
| Return (r : Z) (m : mem)
| Continue (l : locals) (m : mem).

(** [(buffer_size > offset ? buffer_size - offset : 0)] *)
Definition remaining (buffer_size offset : Z) : Z :=
  if offset <? buffer_size then buffer_size - offset else 0.

(** The two-branch termination before [return -1] in the scalar and in the
    nested case. *)
Definition terminate (m : mem) (buffer buffer_size offset : Z) : option mem :=
  if (0 <? buffer_size) && (offset <? buffer_size)
  then store m (buffer + offset) NUL
  else if 0 <? buffer_size
       then store m (buffer + (buffer_size - 1)) NUL
       else Some m.

Definition return_error (m : option mem) : outcome :=
  match m with
  | Some m' => Return (-1) m'
  | None => Undefined
  end.

(** The separator block, up to [first_field_in_struct = 0]. *)
Definition separator_logic (buffer buffer_size : Z) (l : locals) (m : mem)
  : outcome :=
  if first_field_in_struct l then Continue (Locals (offset l) false) m
  else if offset l <? buffer_size then
    match store m (buffer + offset l) SPACE, int_add (offset l) 1 with
    | Some m', Some o => Continue (Locals o false) m'
    | _, _ => Undefined
    end
  else
    return_error
      (if 0 <? buffer_size
       then store m (buffer + (buffer_size - 1)) NUL
       else Some m).

(** [field_full_name]: ["%s.%s"] of prefix and name, or the name alone, in a
    local array of 256 bytes. *)
Definition field_full_name (name_prefix : option cstring) (cname : cstring)
  : cstring :=
  match name_prefix with
  | Some (c :: p) => snprintf_local 256 ((c :: p) ++ str "." ++ cname)
  | _ => snprintf_local 256 cname
  end.

(** [format_string_buffer]: ["%s=%s"] of path and format specifier, in a
    local array of 512 bytes. *)
Definition format_string_buffer (full_name fmt_spec : cstring) : cstring :=
  snprintf_local 512 (full_name ++ str "=" ++ fmt_spec).

(** The loop over the expanded field list, with the early [return]. *)
Definition fields_loop (logic : field → locals → mem → outcome)
  : list field → locals → mem → outcome :=
  fix loop (fs : list field) (l : locals) (m : mem) : outcome :=
    match fs with
    | [] => Continue l m
    | f :: fs' =>
        match logic f l m with
        | Continue l' m' => loop fs' l' m'
        | stop => stop
        end
    end.

(** The body of [STRUCT_NAME_to_str] for a non-null [s], given the expansion
    [logic] of one field. *)
Definition to_str_body
    (logic : field → Z → Z → option cstring → locals → mem → outcome)
    (s : record) (m : mem) (buffer buffer_size : Z)
    (name_prefix : option cstring) : option (Z * mem) :=
  match fields_loop (fun f => logic f buffer buffer_size name_prefix)
          s (Locals 0 true) m with
  | Undefined => None
  | Return r m' => Some (r, m')
  | Continue l m' =>
      if (0 <? buffer_size) && (offset l <? buffer_size) then
        m'' ← store m' (buffer + offset l) NUL; Some (offset l, m'')
      else if (0 <? buffer_size) && (buffer_size <=? offset l) then
        m'' ← store m' (buffer + (buffer_size - 1)) NUL; Some (offset l, m'')
      else Some (offset l, m')
  end.

(** One expansion of [_XMACRO_FIELD_TO_STRING_LOGIC].  [ckind] is a constant
    of the expansion, so one of the two branches runs: a scalar field never
    reaches the call of [_NA__to_str] in the other.  A nested field calls the
    stringifier generated for its type on [&s->cname], which is never null,
    so that the test [s == NULL] of the callee fails. *)
Fixpoint field_to_string_logic (f : field) (buffer buffer_size : Z)
    (name_prefix : option cstring) (l : locals) (m : mem) {struct f}
  : outcome :=
  match separator_logic buffer buffer_size l m with
  | Continue l m =>
      match f with
      | PRIMITIVE cname fmt_spec v =>
          let full := field_full_name name_prefix cname in
          let rem := remaining buffer_size (offset l) in
          match snprintf m (buffer + offset l) rem
                  (format_string_buffer full fmt_spec) [v] with
          | None => Undefined
          | Some (res, m) =>
              if (res <? 0) || (rem <=? res) then
                return_error (terminate m buffer buffer_size (offset l))
              else
                match int_add (offset l) res with
                | Some o => Continue (Locals o false) m
                | None => Undefined
                end
          end
      | STRUCT cname members =>
          let full := field_full_name name_prefix cname in
          let rem := remaining buffer_size (offset l) in
          match to_str_body field_to_string_logic members m
                  (buffer + offset l) rem (Some full) with
          | None => Undefined
          | Some (res, m) =>
              if res <? 0 then
                return_error (terminate m buffer buffer_size (offset l))
              else
                match int_add (offset l) res with
                | Some o => Continue (Locals o false) m
                | None => Undefined
                end
          end
      end
  | stop => stop
  end.

(** [STRUCT_NAME_to_str(buffer, buffer_size, s, name_prefix)].  With a null
    [s] and [buffer_size = 0] the function goes on to read the fields through
    the null pointer. *)
Definition to_str (m : mem) (buffer buffer_size : Z) (s : option record)
    (name_prefix : option cstring) : option (Z * mem) :=
  match s with
  | None =>
      if 0 <? buffer_size then
        m' ← store m buffer NUL; Some (0, m')
      else None
  | Some fields =>
      to_str_body field_to_string_logic fields m buffer buffer_size name_prefix
  end.

(** The string a caller reads at [p]: the bytes up to the first terminator. *)
Fixpoint until_nul (bs : list ascii) : cstring :=
  match bs with
  | [] => []
  | b :: bs' => if Ascii.eqb b NUL then [] else b :: until_nul bs'
  end.

Definition string_at (m : mem) (p : Z) : cstring :=
  until_nul (drop (Z.to_nat p) m).

(** The string a defined call leaves at [p]. *)
Definition result_string (r : option (Z * mem)) (p : Z) : option cstring :=
  (fun x => string_at (snd x) p) <$> r.

(** ** The records of the test suite *)

(** [POINT_FIELDS]: two [int] fields printed with ["%d"]. *)
Definition Point (x y : Z) : record :=
  [ PRIMITIVE (str "x") (str "%d") (VInt x);
    PRIMITIVE (str "y") (str "%d") (VInt y) ].

(** [LINE_FIELDS]: two nested points and a string printed with ["%s"]. *)
Definition Line (start_ end_ : record) (label : option cstring) : record :=
  [ STRUCT (str "start") start_;
    STRUCT (str "end") end_;
    PRIMITIVE (str "label") (str "%s") (VStr label) ].

(** [Line l1 = {p1, {30, 40}, "MainLine"}] with [Point p1 = {10, 20}]. *)
Definition l1 : record :=
  Line (Point 10 20) (Point 30 40) (Some (str "MainLine")).

(** A buffer of [n] bytes that have not been written yet. *)
Definition fresh_buffer (n : nat) : mem := replicate n "?"%char.

(** A record whose last field is a nested record without fields. *)
Definition trailing_empty : record :=
  [ PRIMITIVE (str "a") (str "%d") (VInt 1); STRUCT (str "b") [] ].

(** ** The logger: [src/slog.c] *)

Definition QUOTE : ascii := "034"%char.

Definition BACKSLASH : ascii := "092"%char.

(** [KeyValuePair]: two [char*], either of which may be null. *)
Record KeyValuePair : Type := {
  key : option cstring;
  value : option cstring
}.

(** Arithmetic on [size_t]. *)
Definition size_t (z : Z) : Z := z mod SIZE_MODULUS.

(** The first loop of [format_logfmt] over [pairs[0 .. num_pairs)]. *)
Fixpoint sizing_loop (pairs : list KeyValuePair) (required_size : Z) : Z :=
  match pairs with
  | [] => required_size
  | p :: pairs' =>
      sizing_loop pairs'
        match key p, value p with
        | Some k, Some v => size_t (required_size + (strlen k + strlen v + 4))
        | _, _ => required_size
        end
  end.

(** [required_size] as it is passed to [malloc]. *)
Definition required_size (user_message : option cstring)
    (pairs : list KeyValuePair) (num_pairs : Z) : Z :=
  let r0 :=
    match user_message with
    | Some msg => size_t (0 + strlen msg)
    | None => 0
    end in
  let r1 := sizing_loop (take (Z.to_nat num_pairs) pairs) r0 in
  let r2 := size_t (r1 + 1) in
  if (0 <? num_pairs)
     && match user_message with Some (_ :: _) => true | _ => false end
  then size_t (r2 + 1)
  else r2.

(** [strcat(buffer, src)] on an allocation of [capacity] bytes that holds the
    string [buffer]; writing past the allocation is undefined. *)
Definition strcat (capacity : Z) (buffer src : cstring) : option cstring :=
  if strlen buffer + strlen src + 1 <=? capacity
  then Some (buffer ++ src)
  else None.

(** The [while] loop over the bytes at [value_ptr]. *)
Fixpoint escape_loop (capacity : Z) (buffer value_ptr : cstring)
  : option cstring :=
  match value_ptr with
  | [] => Some buffer
  | c :: rest =>
      buffer' ←
        (if Ascii.eqb c QUOTE then strcat capacity buffer [BACKSLASH; QUOTE]
         else if Ascii.eqb c BACKSLASH
              then strcat capacity buffer [BACKSLASH; BACKSLASH]
              else strcat capacity buffer [c]);
      escape_loop capacity buffer' rest
  end.

(** The body of the second loop for one pair: nothing for a null key or
    value; otherwise a space unless the buffer is empty or ends in one, the
    key, the equals sign and the opening quote, the escaped value and the
    closing quote. *)
Definition pair_logic (capacity : Z) (buffer : cstring) (p : KeyValuePair)
  : option cstring :=
  match key p, value p with
  | Some k, Some v =>
      b1 ←
        (if 0 <? strlen buffer then
           if negb (Ascii.eqb (List.last buffer NUL) SPACE)
           then strcat capacity buffer [SPACE]
           else Some buffer
         else Some buffer);
      b2 ← strcat capacity b1 k;
      b3 ← strcat capacity b2 ("="%char :: [QUOTE]);
      b4 ← escape_loop capacity b3 v;
      strcat capacity b4 [QUOTE]
  | _, _ => Some buffer
  end.

(** The second loop over [pairs[0 .. num_pairs)]. *)
Fixpoint pairs_loop (capacity : Z) (buffer : cstring)
    (pairs : list KeyValuePair) : option cstring :=
  match pairs with
  | [] => Some buffer
  | p :: pairs' =>
      buffer' ← pair_logic capacity buffer p;
      pairs_loop capacity buffer' pairs'
  end.

(** [format_logfmt(user_message, pairs, num_pairs)].  [malloc_succeeds] is
    the outcome of the one allocation.  The result is [None] when the
    behaviour is undefined (a read past the [pairs] array, a write past the
    allocation), [Some None] for a null result, [Some (Some line)] for the
    string returned. *)
Definition format_logfmt (malloc_succeeds : bool)
    (user_message : option cstring) (pairs : list KeyValuePair)
    (num_pairs : Z) : option (option cstring) :=
  if Z.of_nat (length pairs) <? num_pairs then None
  else
    let capacity := required_size user_message pairs num_pairs in
    if negb malloc_succeeds then Some None
    else if capacity <? 1 then None
    else
      buffer ←
        match user_message with
        | Some (c :: msg) =>
            if strlen (c :: msg) + 1 <=? capacity
            then Some (c :: msg) else None
        | _ => Some []
        end;
      Some <$> pairs_loop capacity buffer (take (Z.to_nat num_pairs) pairs).

(** One allocation ([calloc], [strdup]): [heap] lists the outcomes of the
    allocations to come; when the list is used up the allocation fails. *)
Definition allocate (heap : list bool) : bool * list bool :=
  match heap with
  | ok :: heap' => (ok, heap')
  | [] => (false, [])
  end.

(** [parse_unknown_error(error_details, num_pairs_out)].  [percent_p] is the
    implementation-defined text of ["%p"]; [error_details] is an address, 0
    for null; [num_pairs_out] is the integer the pointer refers to, [None]
    for a null pointer.  The result is the array returned ([None] for null)
    and the integer afterwards. *)
Definition parse_unknown_error (percent_p : Z → cstring) (heap : list bool)
    (error_details : Z) (num_pairs_out : option Z)
  : option (list KeyValuePair) * option Z :=
  let count := (fun _ => 0) <$> num_pairs_out in
  if error_details =? 0 then (None, count)
  else
    let (kvp_array, heap) := allocate heap in
    if negb kvp_array then (None, count)
    else
      let (key0, heap) := allocate heap in
      if negb key0 then (None, count)
      else
        let value_buffer :=
          snprintf_local 128
            (str "unhandled_type_at_address_" ++ percent_p error_details) in
        let (value0, heap) := allocate heap in
        if negb value0 then (None, count)
        else
          (Some [ {| key := Some (str "unknown_error_type");
                     value := Some value_buffer |} ],
           (fun _ => 1) <$> count).

(** ** The logger with its heap and its streams: [inc/slog/slog.h] *)

Module Runtime.

Definition NEWLINE : ascii := "010"%char.

(** A [FILE*] that is not null. *)
Inductive FILE : Type :=
| stderr
| stream (id : nat).

(** What an allocation holds: a string, or an array of [KeyValuePair], whose
    members are two pointers. *)
Inductive block : Type :=
| Chars (s : cstring)
| Pairs (cells : list (Z * Z)).

(** The heap, the outcomes of the allocations to come, and what has been
    written to the streams, oldest first.  A pointer is an integer, 0 for
    null; the allocation at address [a + 1] is entry [a] of the heap, [None]
    once it has been freed. *)
Record world : Type := World {
  heap : list (option block);
  fate : list bool;
  written : list (FILE * cstring)
}.

(** A computation on the world; [None] is undefined behaviour. *)
Definition M (A : Type) : Type := world → option (A * world).

#[export] Instance M_ret : MRet M := fun A (a : A) w => Some (a, w).

#[export] Instance M_bind : MBind M := fun A B (k : A → M B) (x : M A) w =>
  match x w with
  | Some (a, w') => k a w'
  | None => None
  end.

Definition undefined {A} : M A := fun _ => None.

(** The allocation a pointer refers to, if it is live. *)
Definition live (w : world) (p : Z) : option block :=
  if 0 <? p
  then match heap w !! Z.to_nat (p - 1) with
       | Some (Some b) => Some b
       | _ => None
       end
  else None.

Definition load (p : Z) : M block := fun w =>
  match live w p with
  | Some b => Some (b, w)
  | None => None
  end.

(** The string at a pointer that is not null. *)
Definition string_of (p : Z) : M cstring :=
  b ← load p;
  match b with
  | Chars s => mret s
  | Pairs _ => undefined
  end.

(** [pairs[i]] *)
Definition cell_of (pairs : Z) (i : nat) : M (Z * Z) :=
  b ← load pairs;
  match b with
  | Pairs cells =>
      match cells !! i with
      | Some c => mret c
      | None => undefined
      end
  | Chars _ => undefined
  end.

(** [pairs[i] = c] *)
Definition set_cell (pairs : Z) (i : nat) (c : Z * Z) : M unit := fun w =>
  match live w pairs with
  | Some (Pairs cells) =>
      if (i <? length cells)%nat
      then Some (tt, World (<[Z.to_nat (pairs - 1)
                                := Some (Pairs (<[i := c]> cells))]> (heap w))
                       (fate w) (written w))
      else None
  | _ => None
  end.

(** [malloc], [calloc] and [strdup]: a fresh block with the contents [b], or
    null when the allocation fails. *)
Definition alloc (b : block) : M Z := fun w =>
  let (ok, fate') := allocate (fate w) in
  if ok
  then Some (Z.of_nat (length (heap w)) + 1,
             World (heap w ++ [Some b]) fate' (written w))
  else Some (0, World (heap w) fate' (written w)).

(** [free(p)]: nothing for null; freeing what is not live is undefined. *)
Definition free (p : Z) : M unit := fun w =>
  if p =? 0 then Some (tt, w)
  else match live w p with
       | Some _ =>
           Some (tt, World (<[Z.to_nat (p - 1) := None]> (heap w))
                       (fate w) (written w))
       | None => None
       end.

(** One call of [fprintf] that writes the bytes [out] to [f]. *)
Definition fputs (out : cstring) (f : FILE) : M unit := fun w =>
  Some (tt, World (heap w) (fate w) (written w ++ [(f, out)])).

(** [fprintf(f, fmt, args...)] *)
Definition fprintf (f : FILE) (fmt : cstring) (args : list cvalue) : M unit :=
  match printf_output fmt args with
  | Some out => fputs out f
  | None => undefined
  end.

(** *** Global configuration *)

Definition format_log_event_func_t : Type := option cstring → Z → Z → M Z.

Definition log_sink_func_t : Type := Z → option FILE → M unit.

Definition parse_error_func_t : Type := Z → option Z → M (Z * option Z).

(** The three global variables; a null function pointer is [None]. *)
Record globals : Type := Globals {
  g_current_formatter : option format_log_event_func_t;
  g_current_sink : option log_sink_func_t;
  g_default_log_stream : option FILE
}.

(** The globals as they are defined in [slog.c]. *)
Definition globals_at_start : globals := Globals None None None.

(** [init_logging_system(formatter, sink, default_stream)];
    [LOGGING_LIB_DEBUG] is not defined. *)
Definition init_logging_system (formatter : option format_log_event_func_t)
    (sink : option log_sink_func_t) (default_stream : option FILE)
  : globals :=
  Globals formatter sink (Some (default stderr default_stream)).

(** *** The formatter and the sink on the heap *)

(** The strings of [pairs[i]] as [format_logfmt] reads them: it reads the
    two strings only when both pointers are set, and tests the pointers
    only otherwise. *)
Definition pair_at (c : Z * Z) : M KeyValuePair :=
  if (fst c =? 0) || (snd c =? 0)
  then mret {| key := None; value := None |}
  else k ← string_of (fst c);
       v ← string_of (snd c);
       mret {| key := Some k; value := Some v |}.

Fixpoint pairs_at (cells : list (Z * Z)) : M (list KeyValuePair) :=
  match cells with
  | [] => mret []
  | c :: cells' =>
      p ← pair_at c;
      ps ← pairs_at cells';
      mret (p :: ps)
  end.

(** [pairs[0 .. num_pairs)]; nothing is read for [num_pairs <= 0]. *)
Definition read_pairs (pairs num_pairs : Z) : M (list KeyValuePair) :=
  if num_pairs <=? 0 then mret []
  else
    b ← load pairs;
    match b with
    | Pairs cells =>
        if Z.of_nat (length cells) <? num_pairs then undefined
        else pairs_at (take (Z.to_nat num_pairs) cells)
    | Chars _ => undefined
    end.

(** The outcome of the next allocation. *)
Definition next_fate : M bool := fun w =>
  let (ok, fate') := allocate (fate w) in
  Some (ok, World (heap w) fate' (written w)).

(** A fresh block with the contents [b]. *)
Definition place (b : block) : M Z := fun w =>
  Some (Z.of_nat (length (heap w)) + 1,
        World (heap w ++ [Some b]) (fate w) (written w)).

(** [format_logfmt] of [slog.c] with its arguments and its result on the
    heap: the pairs are read through the pointer, the line is a new
    allocation. *)
Definition format_logfmt : format_log_event_func_t :=
  fun user_message pairs num_pairs =>
    kvs ← read_pairs pairs num_pairs;
    ok ← next_fate;
    match format_logfmt ok user_message kvs num_pairs with
    | None => undefined
    | Some None => mret 0
    | Some (Some line) => place (Chars line)
    end.

(** [sink_to_file_stream(formatted_log, output_stream)]; [fflush] changes
    nothing that has been written. *)
Definition sink_to_file_stream : log_sink_func_t :=
  fun formatted_log output_stream =>
    let output_stream := default stderr output_stream in
    s ← (if formatted_log =? 0 then mret None
         else s ← string_of formatted_log; mret (Some s));
    fprintf output_stream (str "%s" ++ [NEWLINE]) [VStr s].

(** *** [free_kv_pairs] and the extractors *)

(** The loop of [free_kv_pairs], [n] pairs from index [i] on. *)
Fixpoint free_loop (pairs : Z) (n i : nat) : M unit :=
  match n with
  | O => mret tt
  | S n' =>
      c ← cell_of pairs i;
      free (fst c);;
      c ← cell_of pairs i;
      free (snd c);;
      free_loop pairs n' (S i)
  end.

(** [free_kv_pairs(pairs, num_pairs)] *)
Definition free_kv_pairs (pairs num_pairs : Z) : M unit :=
  if pairs =? 0 then mret tt
  else free_loop pairs (Z.to_nat num_pairs) 0;; free pairs.

(** [parse_unknown_error] of [slog.c] with its allocations on the heap. *)
Definition parse_unknown_error (percent_p : Z → cstring)
  : parse_error_func_t :=
  fun error_details num_pairs_out =>
    let count := (fun _ => 0) <$> num_pairs_out in
    if error_details =? 0 then mret (0, count)
    else
      kvp_array ← alloc (Pairs [(0, 0)]);
      if kvp_array =? 0 then mret (0, count)
      else
        key0 ← alloc (Chars (str "unknown_error_type"));
        set_cell kvp_array 0 (key0, 0);;
        if key0 =? 0 then free kvp_array;; mret (0, count)
        else
          let value_buffer :=
            snprintf_local 128
              (str "unhandled_type_at_address_" ++ percent_p error_details) in
          value0 ← alloc (Chars value_buffer);
          set_cell kvp_array 0 (key0, value0);;
          if value0 =? 0 then
            c ← cell_of kvp_array 0;
            free (fst c);;
            free kvp_array;;
            mret (0, count)
          else mret (kvp_array, (fun _ => 1) <$> count).

(** [generic_error_parser_placeholder(error_details, num_pairs_out)];
    [LOGGING_LIB_DEBUG] is not defined. *)
Definition generic_error_parser_placeholder (percent_p : Z → cstring)
  : parse_error_func_t :=
  fun error_details num_pairs_out =>
    let count := (fun _ => 0) <$> num_pairs_out in
    if error_details =? 0 then mret (0, count)
    else
      kvp ← alloc (Pairs [(0, 0)]);
      if kvp =? 0 then mret (0, count)
      else
        k ← alloc (Chars (str "logging_error"));
        set_cell kvp 0 (k, 0);;
        let val_buf :=
          snprintf_local 128
            (str "LOG_ERROR_DISPATCH_TO_PARSER not defined by user for type at "
             ++ percent_p error_details) in
        v ← alloc (Chars val_buf);
        set_cell kvp 0 (k, v);;
        c ← cell_of kvp 0;
        if negb (fst c =? 0) && negb (snd c =? 0)
        then mret (kvp, (fun _ => 1) <$> count)
        else
          free (fst c);;
          c ← cell_of kvp 0;
          free (snd c);;
          free kvp;;
          mret (0, count).

(** *** The macro [LOG_ERRORR] *)

Definition trunc_indicator : cstring := str "...(msg_truncated)".

(** Step 2 of the macro: [__user_message_buffer] after [vsnprintf] and the
    two branches on its result. *)
Definition user_message_buffer (user_fmt : cstring) (args : list cvalue)
  : option cstring :=
  out ← printf_output user_fmt args;
  let user_msg_len := if strlen out <=? INT_MAX then strlen out else -1 in
  let buffer := snprintf_local 1024 out in
  if user_msg_len <? 0 then
    Some (snprintf_local 1024
            (str "LOG_ERRORR: vsnprintf failed for user message. Original fmt: "
             ++ user_fmt))
  else if 1024 <=? size_t user_msg_len then
    let remaining_space := size_t (1024 - strlen buffer - 1) in
    if strlen trunc_indicator <=? remaining_space
    then strcat 1024 buffer trunc_indicator
    else Some buffer
  else Some buffer.

(** [LOG_ERRORR(error_details_ptr, user_fmt, ...)] where the globals are [g]
    and [LOG_ERROR_DISPATCH_TO_PARSER] expands to a call of the given
    extractor.  [va_args] are the arguments of the macro, which the first
    branch prints; [args] is what [va_start] finds, the variable arguments
    of the function the macro is expanded in, which [vsnprintf] prints. *)
Definition LOG_ERRORR (percent_p : Z → cstring) (g : globals)
    (LOG_ERROR_DISPATCH_TO_PARSER : parse_error_func_t)
    (error_details_ptr : Z) (user_fmt : cstring)
    (va_args args : list cvalue) : M unit :=
  let current_log_stream := default stderr (g_default_log_stream g) in
  match g_current_formatter g, g_current_sink g with
  | Some formatter, Some sink =>
      parsed ← (if error_details_ptr =? 0 then mret (0, Some 0)
                else LOG_ERROR_DISPATCH_TO_PARSER error_details_ptr (Some 0));
      let kv_pairs := fst parsed in
      let num_pairs := default 0 (snd parsed) in
      match user_message_buffer user_fmt args with
      | None => undefined
      | Some user_message =>
          final_log_message ← formatter (Some user_message) kv_pairs num_pairs;
          (if kv_pairs =? 0 then mret tt
           else free_kv_pairs kv_pairs num_pairs);;
          if final_log_message =? 0 then
            fprintf current_log_stream
              (str "[LOG_ERRORR Warning] Formatter failed. Raw user message: %s"
               ++ [NEWLINE])
              [VStr (Some user_message)];;
            if negb (error_details_ptr =? 0) && (num_pairs =? 0) then
              fputs
                (str "[LOG_ERRORR Warning] Parsing of error details might have also failed for ptr "
                 ++ percent_p error_details_ptr ++ str "." ++ [NEWLINE])
                current_log_stream
            else mret tt
          else
            sink final_log_message (Some current_log_stream);;
            free final_log_message
      end
  | _, _ =>
      fprintf current_log_stream
        (str "[LOG_ERRORR Critical] Logging system not initialized. User message: ")
        [];;
      fprintf current_log_stream user_fmt va_args;;
      fprintf current_log_stream [NEWLINE] []
  end.

End Runtime.

(** ** The stringifier written by hand in the test suite *)

(** [SpecialFeature]: an [int] and a string that may be null. *)
Record SpecialFeature : Type := {
  feature_id : Z;
  feature_name : option cstring
}.

(** [snprintf] into a local array of [size] bytes: the result, the length
    of the whole output or a negative value, and the contents of the
    array. *)
Definition snprintf_array (size : nat) (fmt : cstring) (args : list cvalue)
  : option (Z * cstring) :=
  out ← printf_output fmt args;
  Some (if strlen out <=? INT_MAX then strlen out else -1,
        snprintf_local size out).

(** [SpecialFeature_to_str(buffer, buffer_size, s, name_prefix)] *)
Definition SpecialFeature_to_str (m : mem) (buffer buffer_size : Z)
    (s : option SpecialFeature) (name_prefix : option cstring)
  : option (Z * mem) :=
  match s with
  | None =>
      if 0 <? buffer_size then m' ← store m buffer NUL; Some (0, m')
      else Some (0, m)
  | Some s =>
      let full_feature_prefix :=
        match name_prefix with
        | Some (c :: p) => snprintf_local 256 (c :: p)
        | _ => []
        end in
      let dot :=
        match full_feature_prefix with
        | [] => []
        | _ => str "."
        end in
      id_name ← snprintf_array 300 (str "%s%sfeature_id")
                  [VStr (Some full_feature_prefix); VStr (Some dot)];
      first ← snprintf_array 512 (str "%s=%d (custom_fmt)")
                [VStr (Some (snd id_name)); VInt (feature_id s)];
      let len1 := fst first in
      if (len1 <? 0) || (512 <=? size_t len1) then Some (-1, m)
      else
        name_field_name ←
          snprintf_array 300 (str "%s%sfeature_name")
            [VStr (Some full_feature_prefix); VStr (Some dot)];
        let f_name := default (str "null") (feature_name s) in
        second ←
          snprintf_array (Z.to_nat (size_t (512 - len1)))
            (str " %s=" ++ [BACKSLASH; QUOTE] ++ str "%s"
             ++ [BACKSLASH; QUOTE] ++ str " (custom_fmt)")
            [VStr (Some (snd name_field_name)); VStr (Some f_name)];
        let len2 := fst second in
        if (len2 <? 0) || (size_t (512 - len1) <=? size_t len2)
        then Some (-1, m)
        else
          let temp_buffer := snd first ++ snd second in
          if buffer_size <=? size_t (len1 + len2) then
            if 0 <? buffer_size
            then m' ← store m (buffer + (buffer_size - 1)) NUL; Some (-1, m')
            else Some (-1, m)
          else
            m' ← store_bytes m buffer (temp_buffer ++ [NUL]);
            Some (len1 + len2, m')
  end.

(** [Product]: an [int], a nested [SpecialFeature] and a string. *)
Record Product : Type := {
  product_sku : Z;
  main_feature : SpecialFeature;
  product_name : option cstring
}.

(** The expansion of [_XMACRO_FIELD_TO_STRING_LOGIC] for a nested field
    whose [struct_type_token##_to_str] is the function [callee]. *)
Definition nested_logic
    (callee : mem → Z → Z → option cstring → option (Z * mem))
    (cname : cstring) (buffer buffer_size : Z)
    (name_prefix : option cstring) (l : locals) (m : mem) : outcome :=
  match separator_logic buffer buffer_size l m with
  | Continue l m =>
      let full := field_full_name name_prefix cname in
      let rem := remaining buffer_size (offset l) in
      match callee m (buffer + offset l) rem (Some full) with
      | None => Undefined
      | Some (res, m) =>
          if res <? 0 then
            return_error (terminate m buffer buffer_size (offset l))
          else
            match int_add (offset l) res with
            | Some o => Continue (Locals o false) m
            | None => Undefined
            end
      end
  | stop => stop
  end.

(** What [_DEFINE_TO_STR_INTERNAL] does after the fields. *)
Definition finish (buffer buffer_size : Z) (o : outcome) : option (Z * mem) :=
  match o with
  | Undefined => None
  | Return r m' => Some (r, m')
  | Continue l m' =>
      if (0 <? buffer_size) && (offset l <? buffer_size) then
        m'' ← store m' (buffer + offset l) NUL; Some (offset l, m'')
      else if (0 <? buffer_size) && (buffer_size <=? offset l) then
        m'' ← store m' (buffer + (buffer_size - 1)) NUL; Some (offset l, m'')
      else Some (offset l, m')
  end.

(** [Product_to_str], generated by [DEFINE_STRUCT_AND_TO_STRING] from
    [PRODUCT_FIELDS]: the nested field calls [SpecialFeature_to_str]. *)
Definition Product_to_str (m : mem) (buffer buffer_size : Z)
    (s : option Product) (name_prefix : option cstring)
  : option (Z * mem) :=
  match s with
  | None =>
      if 0 <? buffer_size then m' ← store m buffer NUL; Some (0, m')
      else None
  | Some s =>
      finish buffer buffer_size
        match field_to_string_logic
                (PRIMITIVE (str "product_sku") (str "%d")
                   (VInt (product_sku s)))
                buffer buffer_size name_prefix (Locals 0 true) m with
        | Continue l m =>
            match nested_logic
                    (fun m buffer buffer_size name_prefix =>
                       SpecialFeature_to_str m buffer buffer_size
                         (Some (main_feature s)) name_prefix)
                    (str "main_feature") buffer buffer_size name_prefix l m
            with
            | Continue l m =>
                field_to_string_logic
                  (PRIMITIVE (str "product_name") (str "%s")
                     (VStr (product_name s)))
                  buffer buffer_size name_prefix l m
            | stop => stop
            end
        | stop => stop
        end
  end.

(** The values of [test_struct_to_str]. *)
Definition sf1 : SpecialFeature :=
  {| feature_id := 101; feature_name := Some (str "SuperSpeed") |}.

Definition prod1 : Product :=
  {| product_sku := 9001; main_feature := sf1;
     product_name := Some (str "Awesome Gadget") |}.

Definition prod2 : Product :=
  {| product_sku := 9002;
     main_feature := {| feature_id := 202; feature_name := None |};
     product_name := Some (str "Basic Gadget") |}.

(** ** [test_struct_to_str] *)

(** [strcmp(a, b)]: zero for equal strings, otherwise the difference of the
    first bytes that differ, as [unsigned char]; only its sign is
    specified. *)
Fixpoint strcmp (a b : cstring) : Z :=
  match a, b with
  | [], [] => 0
  | [], d :: _ => - Z.of_N (N_of_ascii d)
  | c :: _, [] => Z.of_N (N_of_ascii c)
  | c :: a', d :: b' =>
      if Ascii.eqb c d then strcmp a' b'
      else Z.of_N (N_of_ascii c) - Z.of_N (N_of_ascii d)
  end.

(** How a run of the test ends: it returns, an [assert] on the given line
    of [tests/test_slog.c] fails, or its behaviour is undefined. *)
Inductive test_result : Type :=
| Returns
| AssertionFails (line : nat)
| UndefinedBehaviour.

(** A statement of the test, given what has been printed so far: it goes
    on with a value, or the run ends. *)
Inductive test_step (A : Type) : Type :=
| Go (a : A) (stdout : list cstring)
| Stop (r : test_result) (stdout : list cstring).

Arguments Go {A} a stdout.
Arguments Stop {A} r stdout.

Definition test (A : Type) : Type := list cstring → test_step A.

#[export] Instance test_ret : MRet test := fun A (a : A) stdout => Go a stdout.

#[export] Instance test_bind : MBind test :=
  fun A B (k : A → test B) (x : test A) stdout =>
    match x stdout with
    | Go a stdout' => k a stdout'
    | Stop r stdout' => Stop r stdout'
    end.

Definition assert (line : nat) (condition : bool) : test unit :=
  fun stdout =>
    if condition then Go tt stdout else Stop (AssertionFails line) stdout.

(** A call whose behaviour may be undefined. *)
Definition call {A} (x : option A) : test A := fun stdout =>
  match x with
  | Some a => Go a stdout
  | None => Stop UndefinedBehaviour stdout
  end.

Definition printf (fmt : cstring) (args : list cvalue) : test unit :=
  fun stdout =>
    match printf_output fmt args with
    | Some out => Go tt (stdout ++ [out])
    | None => Stop UndefinedBehaviour stdout
    end.

(** [test_struct_to_str()] with [assert] enabled.  [buffer] and
    [small_buffer] start with bytes that have not been written.  The
    statements are those of lines 181 to 230 of [tests/test_slog.c]. *)
Definition test_struct_to_str : test unit :=
  let NEWLINE := Runtime.NEWLINE in
  let p1 := Point 10 20 in
  let buffer := fresh_buffer 1024 in
  printf (str "--- Testing Point (Auto-generated) ---" ++ [NEWLINE]) [];;
  '(r, buffer) ← call (to_str buffer 0 1024 (Some p1) (Some (str "mypoint")));
  assert 191 (25 =? r);;
  assert 192
    (strcmp (string_at buffer 0) (str "mypoint.x=10 mypoint.y=20") =? 0);;
  printf
    (NEWLINE
     :: str "--- Testing Line (Auto-generated, uses auto Point_to_string) ---"
     ++ [NEWLINE]) [];;
  '(len, buffer) ←
    call (to_str buffer 0 1024 (Some l1) (Some (str "myline")));
  assert 197 (89 =? len);;
  assert 198
    (strcmp (string_at buffer 0)
       (str "myline.start.x=10 myline.start.y=20 myline.end.x=30 myline.end.y=40 myline.label=MainLine")
     =? 0);;
  printf
    (NEWLINE
     :: str "--- Testing SpecialFeature (Custom _to_string directly) ---"
     ++ [NEWLINE]) [];;
  '(len, buffer) ←
    call (SpecialFeature_to_str buffer 0 1024 (Some sf1) None);
  assert 202 (len =? 68);;
  printf (str "SpecialFeature sf1 (NULL prefix, len %d): '%s'" ++ [NEWLINE])
    [VInt len; VStr (Some (string_at buffer 0))];;
  '(len, buffer) ←
    call (SpecialFeature_to_str buffer 0 1024 (Some sf1) (Some (str "feat")));
  assert 208 (len =? 78);;
  assert 209
    (strcmp (string_at buffer 0)
       (str "feat.feature_id=101 (custom_fmt) feat.feature_name="
        ++ [QUOTE] ++ str "SuperSpeed" ++ [QUOTE] ++ str " (custom_fmt)")
     =? 0);;
  printf
    (NEWLINE
     :: str "--- Testing Product (Auto-generated, uses custom SpecialFeature_to_string) ---"
     ++ [NEWLINE]) [];;
  '(len, buffer) ← call (Product_to_str buffer 0 1024 (Some prod1) None);
  assert 213 (len =? 139);;
  printf (str "Product prod1 (len %d): %s" ++ [NEWLINE])
    [VInt len; VStr (Some (string_at buffer 0))];;
  '(len, buffer) ←
    call (Product_to_str buffer 0 1024 (Some prod2) (Some (str "item")));
  assert 218 (len =? 151);;
  assert 219
    (strcmp (string_at buffer 0)
       (str "item.product_sku=9002 item.main_feature.feature_id=202 (custom_fmt) item.main_feature.feature_name="
        ++ [QUOTE] ++ str "null" ++ [QUOTE]
        ++ str " (custom_fmt) item.product_name=Basic Gadget")
     =? 0);;
  printf
    (NEWLINE
     :: str "--- Testing Buffer Safety with custom function (small buffer) ---"
     ++ [NEWLINE]) [];;
  let sf_long_name :=
    {| feature_id := 777;
       feature_name :=
         Some (str "ThisIsAVeryLongFeatureNameDesignedToCauseOverflowInSmallBuffers")
    |} in
  let small_buffer := fresh_buffer 50 in
  '(len, small_buffer) ←
    call (SpecialFeature_to_str small_buffer 0 50 (Some sf_long_name)
            (Some (str "test")));
  if len <? 0 then
    printf
      (str "Overflow test (custom SpecialFeature_to_string): Correctly indicated error/truncation."
       ++ [NEWLINE]) [];;
    printf
      (str "Small buffer content: " ++ [QUOTE] ++ str "%s"
       ++ [QUOTE; NEWLINE])
      [VStr (Some (string_at small_buffer 0))]
  else assert 229 false.


(** ** [compare_strings_and_print_diff] *)

(** An argument of a call of [printf]. *)
Inductive printf_arg : Type :=
| PInt (n : Z)
| PChar (c : ascii)
| PStr (s : cstring).

(** A call of [printf]: the format string and the arguments.  What the
    library prints for it is not part of the embedding. *)
Definition printf_call : Type := cstring * list printf_arg.

Section Compare.

(** [isprint] of the current locale. *)
Variable isprint : ascii → bool.

(** [(unsigned char)c] as an [int]. *)
Definition unsigned_char (c : ascii) : Z := Z.of_N (N_of_ascii c).

(** [isprint((unsigned char)c) ? c : '.'] *)
Definition printable (c : ascii) : ascii := if isprint c then c else "."%char.

(** [s[k]] for an array [s]: reading past its end is undefined. *)
Definition read (s : mem) (k : Z) : option ascii :=
  if 0 <=? k then s !! Z.to_nat k else None.

(** The loops [for (k = ...; k < limit && s[k] != 0; ++k)] that print one
    byte each, with [n] the distance from [k] to the limit; the byte at
    index [i] is printed between brackets when [mark] is set. *)
Fixpoint context_loop (s : mem) (mark : bool) (i : Z) (n : nat) (k : Z)
  : option (list printf_call) :=
  match n with
  | O => Some []
  | S n' =>
      c ← read s k;
      if Ascii.eqb c NUL then Some []
      else
        rest ← context_loop s mark i n' (k + 1);
        Some ((if mark && (k =? i) then str "[%c]" else str "%c",
               [PChar (printable c)]) :: rest)
  end.

(** The two lines about the bytes that differ at index [i]. *)
Definition mismatch_lines (i : Z) (c1 c2 : ascii) : list printf_call :=
  [ (str "Mismatch at index %d:" ++ [Runtime.NEWLINE], [PInt i]);
    (str "  s1[%d] = '%c' (ASCII: %3d, Hex: 0x%02X)" ++ [Runtime.NEWLINE],
     [PInt i; PChar (printable c1); PInt (unsigned_char c1);
      PInt (unsigned_char c1)]);
    (str "  s2[%d] = '%c' (ASCII: %3d, Hex: 0x%02X)" ++ [Runtime.NEWLINE],
     [PInt i; PChar (printable c2); PInt (unsigned_char c2);
      PInt (unsigned_char c2)]) ].

(** The context of one string around index [i]; [label] is the format
    string that opens the line. *)
Definition context (label : cstring) (s : mem) (i : Z)
  : option (list printf_call) :=
  let context_chars_before := 10 in
  let context_chars_after := 10 in
  let start_ctx :=
    if context_chars_before <? i then i - context_chars_before else 0 in
  limit ← int_add i context_chars_after;
  shown ← context_loop s true i (Z.to_nat (limit - start_ctx)) start_ctx;
  c ← read s limit;
  Some ([(label, [])]
        ++ (if 0 <? start_ctx then [(str "...", [])] else [])
        ++ shown
        ++ (if negb (Ascii.eqb c NUL) then [(str "...", [])] else [])
        ++ [(QUOTE :: [Runtime.NEWLINE], [])]).

(** The branch of the loop for bytes that differ. *)
Definition mismatch (s1 s2 : mem) (i : Z) (c1 c2 : ascii)
  : option (Z * list printf_call) :=
  c1_lines ← context (str "  Context s1: " ++ [QUOTE]) s1 i;
  c2_lines ← context (str "  Context s2: " ++ [QUOTE]) s2 i;
  Some (1, mismatch_lines i c1 c2 ++ c1_lines ++ c2_lines).

(** The branches after the loop for a string that has ended before the
    other: [ended] and [longer] are the names in the messages, [s] is the
    longer string. *)
Definition one_ended (ended longer : cstring) (s : mem) (i : Z)
  : option (Z * list printf_call) :=
  c ← read s i;
  limit ← int_add i 20;
  shown ← context_loop s false i 20 i;
  last ← read s limit;
  Some (1,
        [ (ended ++ str " ended at index %d (length %d), but " ++ longer
           ++ str " is longer." ++ [Runtime.NEWLINE], [PInt i; PInt i]);
          (str "  " ++ longer
           ++ str " continues at index %d with '%c' (ASCII: %3d, Hex: 0x%02X)"
           ++ [Runtime.NEWLINE],
           [PInt i; PChar (printable c); PInt (unsigned_char c);
            PInt (unsigned_char c)]);
          (str "  Remaining " ++ longer ++ str " (first 20 chars): "
           ++ [QUOTE], []) ]
        ++ shown
        ++ (if negb (Ascii.eqb last NUL) then [(str "...", [])] else [])
        ++ [(QUOTE :: [Runtime.NEWLINE], [])]).

(** The [while] loop from index [i] on and what follows it; [fuel] bounds
    the number of rounds. *)
Fixpoint scan (s1 s2 : mem) (fuel : nat) (i : Z)
  : option (Z * list printf_call) :=
  c1 ← read s1 i;
  if Ascii.eqb c1 NUL then
    c2 ← read s2 i;
    if Ascii.eqb c2 NUL then Some (0, [])
    else one_ended (str "s1") (str "s2") s2 i
  else
    c2 ← read s2 i;
    if Ascii.eqb c2 NUL then one_ended (str "s2") (str "s1") s1 i
    else if negb (Ascii.eqb c1 c2) then mismatch s1 s2 i c1 c2
    else
      match fuel with
      | O => None
      | S fuel' => i' ← int_add i 1; scan s1 s2 fuel' i'
      end.

(** The branches for one null pointer; [null] and [other] are the names in
    the messages, [s] is the string that is not null. *)
Definition one_null (null other : cstring) (s : mem)
  : option (Z * list printf_call) :=
  c ← read s 50;
  Some (1,
        [ (null ++ str " is NULL, " ++ other ++ str " is not NULL."
           ++ [Runtime.NEWLINE], []);
          (str "  " ++ other ++ str " (first 50 chars): " ++ [QUOTE]
           ++ str "%.50s%s" ++ QUOTE :: [Runtime.NEWLINE],
           [PStr (until_nul (take 50 s));
            PStr (if negb (Ascii.eqb c NUL) then str "..." else [])]) ]).

(** [compare_strings_and_print_diff(s1, s2)]: the result and the calls of
    [printf].  A string is the array its pointer refers to, from the
    pointer on; [None] is a null pointer. *)
Definition compare_strings_and_print_diff (s1 s2 : option mem)
  : option (Z * list printf_call) :=
  match s1, s2 with
  | None, None => Some (0, [])
  | None, Some s2 => one_null (str "s1") (str "s2") s2
  | Some s1, None => one_null (str "s2") (str "s1") s1
  | Some s1, Some s2 => scan s1 s2 (length s1) 0
  end.

End Compare.
(** * Definitions for the statements *)

(** ** The unbounded output *)

(** The text of a field list when nothing limits the output: a space before
    every field but the first of its record, and for each field the bytes
    its [snprintf] produces or the text of the nested record. *)
Definition fields_text (text : field → option cstring → option cstring)
  : list field → option cstring → bool → option cstring :=
  fix go (fs : list field) (name_prefix : option cstring) (first : bool) :=
    match fs with
    | [] => Some []
    | f :: fs' =>
        t ← text f name_prefix;
        rest ← go fs' name_prefix false;
        Some ((if first then [] else [SPACE]) ++ t ++ rest)
    end.

Fixpoint field_text (f : field) (name_prefix : option cstring)
  : option cstring :=
  match f with
  | PRIMITIVE cname fmt_spec v =>
      printf_output
        (format_string_buffer (field_full_name name_prefix cname) fmt_spec) [v]
  | STRUCT cname members =>
      fields_text field_text members
        (Some (field_full_name name_prefix cname)) true
  end.

(** The text of a whole record under a prefix. *)
Definition record_text (s : record) (name_prefix : option cstring)
  : option cstring :=
  fields_text field_text s name_prefix true.

(** The number of scalar fields reachable from a field list. *)
Fixpoint field_leaves (f : field) : nat :=
  match f with
  | PRIMITIVE _ _ _ => 1
  | STRUCT _ members => list_sum (map field_leaves members)
  end.

Definition leaves (s : record) : nat := list_sum (map field_leaves s).

(** Records in which every record type, nested ones included, has a field. *)
Fixpoint populated_field (f : field) : bool :=
  match f with
  | PRIMITIVE _ _ _ => true
  | STRUCT _ members =>
      negb (Nat.eqb (length members) 0) && forallb populated_field members
  end.

Definition populated (s : record) : bool :=
  negb (Nat.eqb (length s) 0) && forallb populated_field s.

(** The region after the bytes [bs] have been stored from index [p] on. *)
Fixpoint write (m : mem) (p : nat) (bs : list ascii) : mem :=
  match bs with
  | [] => m
  | b :: bs' => write (<[p := b]> m) (S p) bs'
  end.

(** A buffer of [buffer_size] bytes at [buffer] holds a terminator. *)
Definition terminated (m : mem) (buffer buffer_size : Z) : Prop :=
  ∃ i, buffer <= i < buffer + buffer_size ∧ m !! Z.to_nat i = Some NUL.

(** The bytes outside the [buffer_size] bytes at [buffer] are the same in
    [m'] as in [m]. *)
Definition unchanged_outside (buffer buffer_size : Z) (m m' : mem) : Prop :=
  length m' = length m ∧
  ∀ i : nat, ¬ (buffer <= Z.of_nat i < buffer + buffer_size) →
             m' !! i = m !! i.

(** A text without terminator bytes. *)
Definition nul_free (t : cstring) : bool :=
  forallb (fun c => negb (Ascii.eqb c NUL)) t.

(** The region holds the bytes of [t] from index [p] on. *)
Definition holds (m : mem) (p : Z) (t : cstring) : Prop :=
  ∀ i : nat, (i < length t)%nat → m !! (Z.to_nat p + i)%nat = t !! i.

(** The address of entry [c - 1] of the blocks allocated after those of
    [h]. *)
Definition after (h : list (option Runtime.block)) (c : Z) : Z :=
  Z.of_nat (length h) + c.

(** The names and the text that [SpecialFeature_to_str] builds when its
    local arrays hold them whole. *)
Definition SpecialFeature_key (name_prefix : option cstring)
    (cname : cstring) : cstring :=
  match name_prefix with
  | Some (c :: p) => snprintf_local 256 (c :: p) ++ str "." ++ cname
  | _ => cname
  end.

Definition SpecialFeature_first (s : SpecialFeature)
    (name_prefix : option cstring) : cstring :=
  SpecialFeature_key name_prefix (str "feature_id") ++ str "="
  ++ decimal (feature_id s) ++ str " (custom_fmt)".

Definition SpecialFeature_second (s : SpecialFeature)
    (name_prefix : option cstring) : cstring :=
  str " " ++ SpecialFeature_key name_prefix (str "feature_name")
  ++ "="%char :: BACKSLASH :: QUOTE
     :: default (str "null") (feature_name s)
     ++ BACKSLASH :: QUOTE :: str " (custom_fmt)".

Definition SpecialFeature_text (s : SpecialFeature)
    (name_prefix : option cstring) : cstring :=
  SpecialFeature_first s name_prefix ++ SpecialFeature_second s name_prefix.

(** The text of a [Product] when nothing limits it. *)
Definition Product_text (s : Product) (name_prefix : option cstring)
  : option cstring :=
  sku ← field_text (PRIMITIVE (str "product_sku") (str "%d")
                      (VInt (product_sku s))) name_prefix;
  name ← field_text (PRIMITIVE (str "product_name") (str "%s")
                       (VStr (product_name s))) name_prefix;
  Some (sku ++ [SPACE]
        ++ SpecialFeature_text (main_feature s)
             (Some (field_full_name name_prefix (str "main_feature")))
        ++ [SPACE] ++ name).

(** ** The output grammar in the words of the specification *)

(** The output is a sequence of [fieldpath=value] tokens and single spaces. *)
Inductive piece : Type :=
| Sep
| Tok (key value : cstring).

Definition spec_piece_text (p : piece) : cstring :=
  match p with
  | Sep => [SPACE]
  | Tok key value => key ++ str "=" ++ value
  end.

Definition spec_pieces_text (ps : list piece) : cstring :=
  concat (map spec_piece_text ps).

(** The field path: the prefix, if it is not empty, with ['.'] and the field
    name; the field name alone for an empty prefix. *)
Definition spec_path (prefix cname : cstring) : cstring :=
  match prefix with
  | [] => cname
  | _ => prefix ++ str "." ++ cname
  end.

Definition spec_fields_pieces
    (pieces : field → cstring → option (list piece))
  : list field → cstring → bool → option (list piece) :=
  fix go (fs : list field) (prefix : cstring) (first : bool) :=
    match fs with
    | [] => Some []
    | f :: fs' =>
        ps ← pieces f prefix;
        rest ← go fs' prefix false;
        Some ((if first then [] else [Sep]) ++ ps ++ rest)
    end.

(** A scalar field is its path, ['='] and the scalar rendered with the
    field's formatting hint; a nested field is the output of the nested
    record under the extended prefix, spliced in as it is. *)
Fixpoint spec_field_pieces (f : field) (prefix : cstring)
  : option (list piece) :=
  match f with
  | PRIMITIVE cname fmt_spec v =>
      value ← printf_output fmt_spec [v];
      Some [Tok (spec_path prefix cname) value]
  | STRUCT cname members =>
      spec_fields_pieces spec_field_pieces members (spec_path prefix cname)
        true
  end.

Definition spec_pieces (s : record) (prefix : cstring) : option (list piece) :=
  spec_fields_pieces spec_field_pieces s prefix true.

(** Every key segment prefixed by [prefix] and a dot. *)
Definition spec_prefix_key (prefix : cstring) (p : piece) : piece :=
  match p with
  | Sep => Sep
  | Tok key value => Tok (prefix ++ str "." ++ key) value
  end.

Definition percent_free (s : cstring) : bool :=
  forallb (fun c => negb (Ascii.eqb c PERCENT)) s.

Definition field_name (f : field) : cstring :=
  match f with
  | PRIMITIVE cname _ _ | STRUCT cname _ => cname
  end.

(** The paths the code can build without loss: no ['%'] in a path, which
    becomes part of a format string; field names that are not empty; every
    path within the 255 bytes of [field_full_name] and every format string
    within the 511 bytes of [format_string_buffer]. *)
Fixpoint plain_field (f : field) (prefix : cstring) : bool :=
  let path := spec_path prefix (field_name f) in
  percent_free path && negb (Nat.eqb (length (field_name f)) 0)
  && Nat.leb (length path) 255
  && match f with
     | PRIMITIVE _ fmt_spec _ =>
         Nat.leb (length (path ++ str "=" ++ fmt_spec)) 511
     | STRUCT _ members => forallb (fun g => plain_field g path) members
     end.

Definition plain_paths (s : record) (prefix : cstring) : bool :=
  forallb (fun f => plain_field f prefix) s.

(** The prefix [outer] extended by the path [inner], if there is one. *)
Definition extend (outer inner : cstring) : cstring :=
  match inner with
  | [] => outer
  | _ => outer ++ str "." ++ inner
  end.

(** ** The line format in the words of the specification *)

(** A double quote is replaced by a backslash and a double quote, a
    backslash by two backslashes, every other byte is copied. *)
Definition spec_escape_byte (c : ascii) : cstring :=
  if Ascii.eqb c QUOTE then [BACKSLASH; QUOTE]
  else if Ascii.eqb c BACKSLASH then [BACKSLASH; BACKSLASH]
  else [c].

Definition spec_escape (v : cstring) : cstring :=
  concat (map spec_escape_byte v).

(** [key="value"] *)
Definition spec_token (kv : cstring * cstring) : cstring :=
  fst kv ++ "="%char :: QUOTE :: spec_escape (snd kv) ++ [QUOTE].

(** Tokens separated by single spaces. *)
Fixpoint spec_join_spaces (tokens : list cstring) : cstring :=
  match tokens with
  | [] => []
  | [t] => t
  | t :: ts => t ++ SPACE :: spec_join_spaces ts
  end.

(** The message verbatim, a single space if the message is not empty, the
    tokens. *)
Definition spec_line (msg : cstring) (kvs : list (cstring * cstring))
  : cstring :=
  msg ++ (match msg with [] => [] | _ => [SPACE] end)
  ++ spec_join_spaces (map spec_token kvs).

(** A pair with both pointers set. *)
Definition pair_of (kv : cstring * cstring) : KeyValuePair :=
  {| key := Some (fst kv); value := Some (snd kv) |}.


Definition ends_in_space (s : cstring) : bool :=
  match s with
  | [] => false
  | _ => Ascii.eqb (List.last s NUL) SPACE
  end.

(** The separator the second loop puts before a token. *)
Definition token_separator (buffer : cstring) : cstring :=
  if (0 <? strlen buffer) && negb (ends_in_space buffer) then [SPACE] else [].

(** The text the second loop has built after the pairs [kvs], when nothing
    limits it. *)
Fixpoint append_tokens (buffer : cstring) (kvs : list (cstring * cstring))
  : cstring :=
  match kvs with
  | [] => buffer
  | kv :: kvs' =>
      append_tokens (buffer ++ token_separator buffer ++ spec_token kv) kvs'
  end.

(** A message that is null or has no bytes. *)
Definition empty_message (user_message : option cstring) : bool :=
  match user_message with
  | Some (_ :: _) => false
  | _ => true
  end.

Definition needs_escape (c : ascii) : bool :=
  Ascii.eqb c QUOTE || Ascii.eqb c BACKSLASH.

(** The number of bytes of the values that are escaped. *)
Fixpoint count_escapes (v : cstring) : nat :=
  match v with
  | [] => 0
  | c :: v' => (if needs_escape c then 1 else 0) + count_escapes v'
  end.

Definition escaped_bytes (kvs : list (cstring * cstring)) : Z :=
  Z.of_nat (list_sum (map (fun kv => count_escapes (snd kv)) kvs)).

(** The sum the first loop computes, without wrap-around. *)
Definition pairs_size (kvs : list (cstring * cstring)) : Z :=
  Z.of_nat
    (list_sum (map (fun kv => length (fst kv) + length (snd kv) + 4)%nat kvs)).

(** The text glibc gives ["%p"] for a pointer that is not null. *)
Definition glibc_percent_p (address : Z) : cstring :=
  str "0x"
  ++ str (HexadecimalString.NilZero.string_of_uint
            (N.to_hex_uint (Z.to_N address))).

(** ** Predicates of the inductions over the record descriptor *)

(** The separator the field logic stores before a field. *)
Definition separator (l : locals) : cstring :=
  if first_field_in_struct l then [] else [SPACE].

(** A field whose text fits the space that is left appends its text and the
    terminator. *)
Definition fits_step (f : field) : Prop :=
  ∀ buffer buffer_size name_prefix l m t,
    field_text f name_prefix = Some t →
    0 <= buffer → 0 <= offset l →
    offset l + strlen (separator l ++ t) < buffer_size →
    offset l + strlen (separator l ++ t) <= INT_MAX →
    buffer + offset l + strlen (separator l ++ t) < Z.of_nat (length m) →
    field_to_string_logic f buffer buffer_size name_prefix l m =
    Continue (Locals (offset l + strlen (separator l ++ t)) false)
      (write m (Z.to_nat (buffer + offset l)) (separator l ++ t ++ [NUL])).

(** A field after which the offset is still below the capacity has appended
    its whole text. *)
Definition below_step (f : field) : Prop :=
  ∀ buffer buffer_size name_prefix l m l' m',
    field_to_string_logic f buffer buffer_size name_prefix l m
      = Continue l' m' →
    offset l' < buffer_size →
    ∃ t, field_text f name_prefix = Some t ∧
         offset l' = offset l + strlen (separator l ++ t) ∧
         offset l' <= INT_MAX ∧ length m' = length m.

(** A populated field after which the call goes on has left the offset below
    the capacity. *)
Definition populated_step (f : field) : Prop :=
  populated_field f = true →
  ∀ buffer buffer_size name_prefix l m l' m',
    field_to_string_logic f buffer buffer_size name_prefix l m
      = Continue l' m' →
    offset l' < buffer_size.

(** With no capacity a field either makes the call return the sentinel or,
    when it holds no scalar at all, leaves everything as it was. *)
Definition zero_step (f : field) : Prop :=
  ∀ buffer name_prefix l m t,
    field_text f name_prefix = Some t → offset l = 0 →
    field_to_string_logic f buffer 0 name_prefix l m = Return (-1) m ∨
    (field_to_string_logic f buffer 0 name_prefix l m
       = Continue (Locals 0 false) m ∧ field_leaves f = 0%nat).

(** Every index holds the same byte in [a'] and [b'], or was left as it was
    in both. *)
Definition same_writes (a b a' b' : mem) : Prop :=
  length a' = length a ∧ length b' = length b ∧
  ∀ i : nat, a' !! i = b' !! i ∨ (a' !! i = a !! i ∧ b' !! i = b !! i).

(** Two results of the same operation on the regions [a] and [b]: both
    undefined, or the same value and the same writes. *)
Definition agree_mem (a b : mem) (x y : option mem) : Prop :=
  match x, y with
  | Some a', Some b' => same_writes a b a' b'
  | None, None => True
  | _, _ => False
  end.

Definition agree_result (a b : mem) (x y : option (Z * mem)) : Prop :=
  match x, y with
  | Some (r1, a'), Some (r2, b') => r1 = r2 ∧ same_writes a b a' b'
  | None, None => True
  | _, _ => False
  end.

Definition agree_outcome (a b : mem) (x y : outcome) : Prop :=
  match x, y with
  | Undefined, Undefined => True
  | Return r1 a', Return r2 b' => r1 = r2 ∧ same_writes a b a' b'
  | Continue l1 a', Continue l2 b' => l1 = l2 ∧ same_writes a b a' b'
  | _, _ => False
  end.

Definition agree_step (f : field) : Prop :=
  ∀ buffer buffer_size name_prefix l a b,
    length a = length b →
    agree_outcome a b
      (field_to_string_logic f buffer buffer_size name_prefix l a)
      (field_to_string_logic f buffer buffer_size name_prefix l b).

(** On a destination that has [buffer_size] bytes, with format strings the
    model of [printf] covers, a field neither overflows the destination nor
    the offset. *)
Definition within (buffer_size : Z) (n : nat) (o : outcome) : Prop :=
  match o with
  | Undefined => False
  | Return _ m' => length m' = n
  | Continue l' m' => 0 <= offset l' <= buffer_size ∧ length m' = n
  end.

Definition defined_step (f : field) : Prop :=
  ∀ buffer buffer_size name_prefix l m t,
    field_text f name_prefix = Some t →
    0 <= buffer → 0 <= offset l <= buffer_size → buffer_size <= INT_MAX →
    buffer + buffer_size <= Z.of_nat (length m) →
    within buffer_size (length m)
      (field_to_string_logic f buffer buffer_size name_prefix l m).

(** On plain paths the text of the code is the text of the grammar. *)
Definition plain_step (f : field) : Prop :=
  ∀ prefix, plain_field f prefix = true →
    field_text f (Some prefix)
    = spec_pieces_text <$> spec_field_pieces f prefix.

(** Under a longer prefix the paths stay plain when the outer part is
    dropped, and the pieces are those of the inner prefix with every key
    prefixed. *)
Definition relabel_step (f : field) : Prop :=
  ∀ outer inner,
    outer ≠ [] → plain_field f (extend outer inner) = true →
    plain_field f inner = true ∧
    spec_field_pieces f (extend outer inner)
    = map (spec_prefix_key outer) <$> spec_field_pieces f inner.

(** What a step leaves outside the destination. *)
Definition outcome_unchanged_outside (buffer buffer_size : Z) (m : mem)
    (o : outcome) : Prop :=
  match o with
  | Undefined => True
  | Return _ m' | Continue _ m' => unchanged_outside buffer buffer_size m m'
  end.

(** A field stores nothing outside the destination. *)
Definition frame_step (f : field) : Prop :=
  ∀ buffer buffer_size name_prefix l m,
    0 <= offset l →
    outcome_unchanged_outside buffer buffer_size m
      (field_to_string_logic f buffer buffer_size name_prefix l m).

(** * Properties of the stringifier *)

(** A property of every field holds for all fields of a record. *)
Ltac every_field lemma :=
  apply Forall_forall; intros ? _; apply lemma.

(** ** Stores *)

Lemma store_Some m p c m' :
  store m p c = Some m' →
  0 <= p < Z.of_nat (length m) ∧ m' = <[Z.to_nat p := c]> m.
Proof.
  unfold store. intros H.
  destruct (0 <=? p) eqn:E1; destruct (p <? Z.of_nat (length m)) eqn:E2;
    simpl in H; inversion H; subst. split; [lia | reflexivity].
Qed.

Lemma store_in_range m p c :
  0 <= p < Z.of_nat (length m) → store m p c = Some (<[Z.to_nat p := c]> m).
Proof.
  intros H. unfold store.
  replace (0 <=? p) with true by lia.
  replace (p <? Z.of_nat (length m)) with true by lia. reflexivity.
Qed.

Lemma store_length m p c m' : store m p c = Some m' → length m' = length m.
Proof. intros [_ ->]%store_Some. apply length_insert. Qed.

Lemma store_lookup m p c m' :
  store m p c = Some m' → m' !! Z.to_nat p = Some c.
Proof.
  intros [Hp ->]%store_Some. apply list_lookup_insert_eq. lia.
Qed.

Lemma length_write bs : ∀ m p, length (write m p bs) = length m.
Proof.
  induction bs as [|b bs IH]; intros m p; simpl; [reflexivity|].
  rewrite IH. apply length_insert.
Qed.

Lemma write_lookup_lt bs : ∀ m p i,
  (i < p)%nat → write m p bs !! i = m !! i.
Proof.
  induction bs as [|b bs IH]; intros m p i Hi; simpl; [reflexivity|].
  rewrite IH by lia. apply list_lookup_insert_ne. lia.
Qed.

Lemma write_lookup_ge bs : ∀ m p i,
  (p + length bs <= i)%nat → write m p bs !! i = m !! i.
Proof.
  induction bs as [|b bs IH]; intros m p i Hi; simpl in *; [reflexivity|].
  rewrite IH by lia. apply list_lookup_insert_ne. lia.
Qed.

Lemma write_lookup_in bs : ∀ m p i,
  (p <= i)%nat → (i < length m)%nat →
  (i < p + length bs)%nat → write m p bs !! i = bs !! (i - p)%nat.
Proof.
  induction bs as [|b bs IH]; intros m p i H1 H2 H3; simpl in *; [lia|].
  destruct (decide (i = p)) as [->|Hne].
  - rewrite write_lookup_lt by lia. rewrite Nat.sub_diag. simpl.
    apply list_lookup_insert_eq. lia.
  - rewrite IH by (rewrite ?length_insert; lia).
    replace (i - p)%nat with (S (i - S p)) by lia. reflexivity.
Qed.

Lemma store_bytes_Some bs : ∀ m p m',
  store_bytes m p bs = Some m' →
  m' = write m (Z.to_nat p) bs ∧
  (bs ≠ [] → 0 <= p ∧ p + strlen bs <= Z.of_nat (length m)).
Proof.
  unfold strlen.
  induction bs as [|b bs IH]; intros m p m' H; simpl in *.
  - inversion H. split; [reflexivity | congruence].
  - destruct (store m p b) as [m1|] eqn:E; [|discriminate].
    apply store_Some in E as [Hp ->].
    apply IH in H as [-> Hb]. split.
    + replace (Z.to_nat (p + 1)) with (S (Z.to_nat p)) by lia. reflexivity.
    + intros _. destruct bs as [|b' bs]; simpl in *; [lia|].
      rewrite length_insert in Hb. specialize (Hb ltac:(congruence)). lia.
Qed.

Lemma store_bytes_in_range bs : ∀ m p,
  0 <= p → p + strlen bs <= Z.of_nat (length m) →
  store_bytes m p bs = Some (write m (Z.to_nat p) bs).
Proof.
  unfold strlen.
  induction bs as [|b bs IH]; intros m p H1 H2; simpl in *; [reflexivity|].
  rewrite store_in_range by lia.
  rewrite IH by (rewrite ?length_insert; lia).
  replace (Z.to_nat (p + 1)) with (S (Z.to_nat p)) by lia. reflexivity.
Qed.

Lemma store_bytes_length bs m p m' :
  store_bytes m p bs = Some m' → length m' = length m.
Proof. intros [-> _]%store_bytes_Some. apply length_write. Qed.

(** ** One step of the generated code *)

Lemma field_to_string_logic_eq f buffer buffer_size name_prefix l m :
  field_to_string_logic f buffer buffer_size name_prefix l m =
  match separator_logic buffer buffer_size l m with
  | Continue l m =>
      let full :=
        field_full_name name_prefix
          match f with PRIMITIVE c _ _ | STRUCT c _ => c end in
      let rem := remaining buffer_size (offset l) in
      match
        match f with
        | PRIMITIVE _ fmt_spec v =>
            snprintf m (buffer + offset l) rem
              (format_string_buffer full fmt_spec) [v]
        | STRUCT _ members =>
            to_str_body field_to_string_logic members m
              (buffer + offset l) rem (Some full)
        end
      with
      | None => Undefined
      | Some (res, m) =>
          if match f with
             | PRIMITIVE _ _ _ => (res <? 0) || (rem <=? res)
             | STRUCT _ _ => res <? 0
             end
          then return_error (terminate m buffer buffer_size (offset l))
          else
            match int_add (offset l) res with
            | Some o => Continue (Locals o false) m
            | None => Undefined
            end
      end
  | stop => stop
  end.
Proof. destruct f; reflexivity. Qed.

Global Opaque field_to_string_logic.

Lemma separator_logic_Continue buffer buffer_size l m l' m' :
  separator_logic buffer buffer_size l m = Continue l' m' →
  first_field_in_struct l' = false ∧
  ((first_field_in_struct l = true ∧ offset l' = offset l ∧ m' = m) ∨
   (first_field_in_struct l = false ∧ offset l < buffer_size ∧
    offset l' = offset l + 1 ∧ offset l' <= INT_MAX ∧
    store m (buffer + offset l) SPACE = Some m')).
Proof.
  unfold separator_logic, return_error, int_add. intros H.
  destruct (first_field_in_struct l).
  - inversion H; subst; simpl. auto.
  - destruct (offset l <? buffer_size) eqn:E.
    + destruct (store m (buffer + offset l) SPACE) as [m1|]; [|discriminate].
      destruct (offset l + 1 <=? INT_MAX) eqn:E2; [|discriminate].
      inversion H; subst; simpl. split; [reflexivity|]. right.
      repeat split; try lia.
    + destruct (0 <? buffer_size);
        [destruct (store m (buffer + (buffer_size - 1)) NUL)|]; discriminate.
Qed.

Lemma separator_logic_Return buffer buffer_size l m r m' :
  separator_logic buffer buffer_size l m = Return r m' →
  r = -1 ∧ buffer_size <= offset l ∧ first_field_in_struct l = false ∧
  (0 < buffer_size → store m (buffer + (buffer_size - 1)) NUL = Some m') ∧
  (buffer_size <= 0 → m' = m).
Proof.
  unfold separator_logic, return_error, int_add. intros H.
  destruct (first_field_in_struct l); [discriminate|].
  destruct (offset l <? buffer_size) eqn:E.
  - destruct (store m (buffer + offset l) SPACE) as [m1|]; [|discriminate].
    destruct (offset l + 1 <=? INT_MAX); discriminate.
  - destruct (0 <? buffer_size) eqn:E0.
    + destruct (store m (buffer + (buffer_size - 1)) NUL) as [m1|] eqn:Es;
        [|discriminate].
      inversion H; subst. repeat split; auto; lia.
    + inversion H; subst. repeat split; auto; lia.
Qed.

Lemma terminate_terminated m buffer buffer_size off m' :
  terminate m buffer buffer_size off = Some m' →
  0 <= off → 0 < buffer_size → terminated m' buffer buffer_size.
Proof.
  unfold terminate. intros H Hoff Hsz.
  replace (0 <? buffer_size) with true in H by lia. simpl in H.
  destruct (off <? buffer_size) eqn:E.
  - exists (buffer + off). split; [lia|]. eapply store_lookup; eauto.
  - exists (buffer + (buffer_size - 1)). split; [lia|].
    eapply store_lookup; eauto.
Qed.

(** The offset never decreases, and a step that returns has terminated the
    buffer. *)
Lemma field_logic_Continue_mono f buffer buffer_size name_prefix l m l' m' :
  field_to_string_logic f buffer buffer_size name_prefix l m = Continue l' m' →
  offset l <= offset l' ∧ first_field_in_struct l' = false.
Proof.
  rewrite field_to_string_logic_eq.
  destruct (separator_logic buffer buffer_size l m) as [|r0 m0|l0 m0] eqn:Es;
    try discriminate.
  apply separator_logic_Continue in Es as [_ Hs]. cbv zeta.
  match goal with |- context [match ?x with Some _ => _ | None => _ end] =>
    destruct x as [[res m1]|] end; [|discriminate].
  unfold return_error, int_add.
  match goal with |- context [if ?c then _ else _] => destruct c eqn:Ec end.
  - destruct (terminate m1 buffer buffer_size (offset l0)); discriminate.
  - destruct (offset l0 + res <=? INT_MAX); [|discriminate].
    intros H; inversion H; subst; simpl. split; [|reflexivity].
    assert (0 <= res) by (destruct f; lia).
    destruct Hs as [(_ & -> & _)|(_ & _ & -> & _)]; lia.
Qed.

Lemma field_logic_Return f buffer buffer_size name_prefix l m r m' :
  field_to_string_logic f buffer buffer_size name_prefix l m = Return r m' →
  r = -1 ∧ (0 <= offset l → 0 < buffer_size → terminated m' buffer buffer_size).
Proof.
  rewrite field_to_string_logic_eq.
  destruct (separator_logic buffer buffer_size l m) as [|r0 m0|l0 m0] eqn:Es.
  - discriminate.
  - intros H; inversion H; subst.
    apply separator_logic_Return in Es as (-> & _ & _ & Hst & _).
    split; [reflexivity|]. intros _ Hsz.
    exists (buffer + (buffer_size - 1)). split; [lia|].
    eapply store_lookup; eauto.
  - apply separator_logic_Continue in Es as [_ Hs]. cbv zeta.
    match goal with |- context [match ?x with Some _ => _ | None => _ end] =>
      destruct x as [[res m1]|] end; [|discriminate].
    unfold return_error, int_add.
    match goal with |- context [if ?c then _ else _] => destruct c eqn:Ec end.
    + destruct (terminate m1 buffer buffer_size (offset l0)) eqn:Et;
        [|discriminate].
      intros H; inversion H; subst. split; [reflexivity|]. intros Ho Hsz.
      eapply terminate_terminated; eauto.
      destruct Hs as [(_ & -> & _)|(_ & _ & -> & _)]; lia.
    + destruct (offset l0 + res <=? INT_MAX); discriminate.
Qed.

Section Loop.

Variables (buffer buffer_size : Z) (name_prefix : option cstring).

Let step (f : field) := field_to_string_logic f buffer buffer_size name_prefix.

Lemma fields_loop_Continue_mono fs : ∀ l m l' m',
  fields_loop step fs l m = Continue l' m' → offset l <= offset l'.
Proof.
  induction fs as [|f fs IH]; intros l m l' m' H; simpl in H.
  - inversion H; subst. lia.
  - destruct (step f l m) as [|r0 m0|l0 m0] eqn:E; try discriminate.
    apply field_logic_Continue_mono in E as [? _]. apply IH in H. lia.
Qed.

Lemma fields_loop_Return fs : ∀ l m r m',
  fields_loop step fs l m = Return r m' →
  r = -1 ∧
  (0 <= offset l → 0 < buffer_size → terminated m' buffer buffer_size).
Proof.
  induction fs as [|f fs IH]; intros l m r m' H; simpl in H.
  - discriminate.
  - destruct (step f l m) as [|r0 m0|l0 m0] eqn:E; try discriminate.
    + inversion H; subst. eapply field_logic_Return; eauto.
    + apply field_logic_Continue_mono in E as [? _].
      apply IH in H as [-> Ht]. split; [reflexivity|].
      intros ? ?. apply Ht; lia.
Qed.

End Loop.

(** The result of the body is the sentinel or a count that is not negative,
    and with room for one byte the buffer is terminated. *)
Lemma to_str_body_result s m buffer buffer_size name_prefix r m' :
  to_str_body field_to_string_logic s m buffer buffer_size name_prefix
    = Some (r, m') →
  (r = -1 ∨ 0 <= r) ∧ (0 < buffer_size → terminated m' buffer buffer_size).
Proof.
  unfold to_str_body.
  destruct (fields_loop _ s (Locals 0 true) m) as [|r0 m0|l0 m0] eqn:E.
  - discriminate.
  - intros H; inversion H; subst.
    apply fields_loop_Return in E as [-> Ht]. split; [auto|].
    intros ?. apply Ht; simpl; lia.
  - apply fields_loop_Continue_mono in E. simpl in E.
    destruct (0 <? buffer_size) eqn:E0; simpl.
    + destruct (offset l0 <? buffer_size) eqn:E1.
      * destruct (store m0 (buffer + offset l0) NUL) as [m1|] eqn:Es;
          [|discriminate].
        intros H; inversion H; subst. split; [lia|]. intros _.
        exists (buffer + offset l0). split; [lia|]. eapply store_lookup; eauto.
      * replace (buffer_size <=? offset l0) with true by lia.
        destruct (store m0 (buffer + (buffer_size - 1)) NUL) as [m1|] eqn:Es;
          [|discriminate].
        intros H; inversion H; subst. split; [lia|]. intros _.
        exists (buffer + (buffer_size - 1)). split; [lia|].
        eapply store_lookup; eauto.
    + intros H; inversion H; subst. split; [lia|]. lia.
Qed.

(** ** Runs in which everything fits *)

Lemma write_app a : ∀ m p b,
  write m p (a ++ b) = write (write m p a) (p + length a) b.
Proof.
  induction a as [|x a IH]; intros m p b; simpl.
  - rewrite Nat.add_0_r. reflexivity.
  - rewrite IH. replace (S p + length a)%nat with (p + S (length a))%nat by lia.
    reflexivity.
Qed.

Lemma write_over_last a x y b m p :
  write (write m p (a ++ [x])) (p + length a) (y :: b)
  = write m p (a ++ y :: b).
Proof.
  rewrite !write_app. simpl. rewrite list_insert_insert_eq. reflexivity.
Qed.

Lemma write_over_terminator a b x m p :
  write (write m p (a ++ [x])) (p + length a) (b ++ [x])
  = write m p ((a ++ b) ++ [x]).
Proof.
  destruct b as [|y b].
  - rewrite app_nil_r. rewrite !write_app. simpl.
    rewrite Nat.add_0_r, list_insert_insert_eq. reflexivity.
  - simpl app at 2. rewrite write_over_last. rewrite <- app_assoc. reflexivity.
Qed.

Lemma field_text_eq f name_prefix :
  field_text f name_prefix =
  match f with
  | PRIMITIVE cname fmt_spec v =>
      printf_output
        (format_string_buffer (field_full_name name_prefix cname) fmt_spec) [v]
  | STRUCT cname members =>
      record_text members (Some (field_full_name name_prefix cname))
  end.
Proof. destruct f; reflexivity. Qed.

Lemma fields_text_cons f fs name_prefix first :
  fields_text field_text (f :: fs) name_prefix first =
  t ← field_text f name_prefix;
  rest ← fields_text field_text fs name_prefix false;
  Some ((if first then [] else [SPACE]) ++ t ++ rest).
Proof. reflexivity. Qed.

Global Opaque field_text.

Lemma separator_logic_fits buffer buffer_size l m :
  0 <= buffer → 0 <= offset l →
  offset l + strlen (separator l) <= buffer_size →
  offset l + strlen (separator l) <= INT_MAX →
  buffer + offset l + strlen (separator l) <= Z.of_nat (length m) →
  separator_logic buffer buffer_size l m =
  Continue (Locals (offset l + strlen (separator l)) false)
    (write m (Z.to_nat (buffer + offset l)) (separator l)).
Proof.
  unfold separator_logic, separator, strlen, int_add.
  destruct (first_field_in_struct l); simpl; intros Hb Ho Hs Hi Hm.
  - rewrite Z.add_0_r. reflexivity.
  - replace (offset l <? buffer_size) with true by lia.
    rewrite store_in_range by lia.
    replace (offset l + 1 <=? INT_MAX) with true by lia. reflexivity.
Qed.

Lemma strlen_app a b : strlen (a ++ b) = strlen a + strlen b.
Proof. unfold strlen. rewrite length_app. lia. Qed.

Lemma strlen_nonneg a : 0 <= strlen a.
Proof. unfold strlen. lia. Qed.

Lemma fields_loop_fits fs :
  Forall fits_step fs →
  ∀ buffer buffer_size name_prefix l m t,
    fields_text field_text fs name_prefix (first_field_in_struct l) = Some t →
    0 <= buffer → 0 <= offset l →
    offset l + strlen t < buffer_size →
    offset l + strlen t <= INT_MAX →
    buffer + offset l + strlen t < Z.of_nat (length m) →
    ∃ l' m',
      fields_loop
        (fun f => field_to_string_logic f buffer buffer_size name_prefix)
        fs l m = Continue l' m' ∧
      offset l' = offset l + strlen t ∧
      write m' (Z.to_nat (buffer + offset l')) [NUL]
      = write m (Z.to_nat (buffer + offset l)) (t ++ [NUL]).
Proof.
  induction 1 as [|f fs Hf _ IH];
    intros buffer buffer_size name_prefix l m t Ht Hb Ho Hs Hi Hm.
  - simpl in Ht. inversion Ht; subst. exists l, m. simpl.
    rewrite Z.add_0_r. auto.
  - rewrite fields_text_cons in Ht.
    destruct (field_text f name_prefix) as [tf|] eqn:Ef; [|discriminate].
    simpl in Ht.
    destruct (fields_text field_text fs name_prefix false) as [tr|] eqn:Er;
      [|discriminate].
    simpl in Ht. inversion Ht; subst t. clear Ht.
    fold (separator l) in *.
    rewrite !strlen_app in *.
    pose proof (strlen_nonneg (separator l)).
    pose proof (strlen_nonneg tf). pose proof (strlen_nonneg tr).
    simpl.
    rewrite (Hf buffer buffer_size name_prefix l m tf Ef)
      by (rewrite ?strlen_app; lia).
    rewrite strlen_app.
    set (l1 := Locals (offset l + (strlen (separator l) + strlen tf)) false).
    set (m1 := write m (Z.to_nat (buffer + offset l))
                 (separator l ++ tf ++ [NUL])).
    destruct (IH buffer buffer_size name_prefix l1 m1 tr)
      as (l' & m' & Hloop & Hoff & Hmem); subst l1 m1; simpl;
      rewrite ?length_write; try lia; [assumption|].
    exists l', m'. split; [assumption|]. simpl in Hoff. split; [lia|].
    simpl in Hmem |- *. rewrite Hmem.
    replace (Z.to_nat (buffer + (offset l + (strlen (separator l) + strlen tf))))
      with (Z.to_nat (buffer + offset l) + length (separator l ++ tf))%nat
      by (unfold strlen in *; rewrite length_app; lia).
    rewrite (app_assoc (separator l) tf [NUL]).
    rewrite write_over_terminator. rewrite <- !app_assoc. reflexivity.
Qed.

Lemma to_str_body_fits_from fs :
  Forall fits_step fs →
  ∀ m buffer buffer_size name_prefix t,
    record_text fs name_prefix = Some t →
    0 <= buffer → strlen t < buffer_size → strlen t <= INT_MAX →
    buffer + strlen t < Z.of_nat (length m) →
    to_str_body field_to_string_logic fs m buffer buffer_size name_prefix
    = Some (strlen t, write m (Z.to_nat buffer) (t ++ [NUL])).
Proof.
  intros Hfs m buffer buffer_size name_prefix t Ht Hb Hs Hi Hm.
  pose proof (strlen_nonneg t).
  destruct (fields_loop_fits fs Hfs buffer buffer_size name_prefix
              (Locals 0 true) m t) as (l' & m' & Hloop & Hoff & Hmem);
    simpl; try lia; [assumption|].
  unfold to_str_body. rewrite Hloop. simpl in Hoff.
  replace (0 <? buffer_size) with true by lia.
  replace (offset l' <? buffer_size) with true by lia. simpl.
  assert (length m' = length m) as Hlen.
  { apply (f_equal length) in Hmem. rewrite !length_write in Hmem. exact Hmem. }
  rewrite store_in_range by lia. simpl.
  simpl in Hmem. rewrite Hmem, Hoff, Z.add_0_r. reflexivity.
Qed.

Lemma fits_step_all f : fits_step f.
Proof.
  induction f as [cname fmt_spec v|cname members IH] using field_ind;
    intros buffer buffer_size name_prefix l m t Ht Hb Ho Hs Hi Hm;
    rewrite field_text_eq in Ht; rewrite field_to_string_logic_eq;
    rewrite strlen_app in *;
    pose proof (strlen_nonneg (separator l)); pose proof (strlen_nonneg t);
    rewrite separator_logic_fits by lia; cbv zeta; simpl offset;
    unfold remaining;
    replace (offset l + strlen (separator l) <? buffer_size) with true by lia.
  - unfold snprintf. rewrite Ht.
    replace (strlen t <=? INT_MAX) with true by lia.
    replace (0 <? buffer_size - (offset l + strlen (separator l)))
      with true by lia.
    rewrite take_ge by (unfold strlen in *; lia).
    rewrite store_bytes_in_range
      by (rewrite ?strlen_app, ?length_write; unfold strlen in *; simpl; lia).
    replace (strlen t <? 0) with false by lia.
    replace (buffer_size - (offset l + strlen (separator l)) <=? strlen t)
      with false by lia.
    simpl. unfold int_add.
    replace (offset l + strlen (separator l) + strlen t <=? INT_MAX)
      with true by lia.
    rewrite (write_app (separator l)).
    f_equal; [f_equal; lia | f_equal; unfold strlen in *; lia].
  - rewrite (to_str_body_fits_from members IH _ _ _ _ t Ht)
      by (rewrite ?length_write; lia).
    replace (strlen t <? 0) with false by lia.
    unfold int_add.
    replace (offset l + strlen (separator l) + strlen t <=? INT_MAX)
      with true by lia.
    rewrite (write_app (separator l)).
    f_equal; [f_equal; lia | f_equal; unfold strlen in *; lia].
Qed.

(** When the whole text and its terminator fit, the call returns the length
    of the text and has stored the text and the terminator. *)
Lemma to_str_body_fits s m buffer buffer_size name_prefix t :
  record_text s name_prefix = Some t →
  0 <= buffer → strlen t < buffer_size → strlen t <= INT_MAX →
  buffer + strlen t < Z.of_nat (length m) →
  to_str_body field_to_string_logic s m buffer buffer_size name_prefix
  = Some (strlen t, write m (Z.to_nat buffer) (t ++ [NUL])).
Proof.
  apply to_str_body_fits_from. every_field fits_step_all.
Qed.

(** ** Runs that succeed below the capacity *)

Lemma fields_loop_below fs :
  Forall below_step fs →
  ∀ buffer buffer_size name_prefix l m l' m',
    fields_loop
      (fun f => field_to_string_logic f buffer buffer_size name_prefix)
      fs l m = Continue l' m' →
    offset l' < buffer_size → offset l <= INT_MAX →
    ∃ t, fields_text field_text fs name_prefix (first_field_in_struct l)
           = Some t ∧
         offset l' = offset l + strlen t ∧
         offset l' <= INT_MAX ∧ length m' = length m.
Proof.
  induction 1 as [|f fs Hf _ IH];
    intros buffer buffer_size name_prefix l m l' m' Hloop Hlt Hi.
  - simpl in Hloop. inversion Hloop; subst. exists []. simpl.
    unfold strlen; simpl. repeat split; auto; lia.
  - simpl in Hloop.
    destruct (field_to_string_logic f buffer buffer_size name_prefix l m)
      as [|r0 m0|l0 m0] eqn:E; try discriminate.
    pose proof (fields_loop_Continue_mono _ _ _ _ _ _ _ _ Hloop) as Hmono.
    pose proof (field_logic_Continue_mono _ _ _ _ _ _ _ _ E) as [_ Hfirst].
    destruct (Hf _ _ _ _ _ _ _ E) as (tf & Htf & Ho & Hi0 & Hl0); [lia|].
    destruct (IH _ _ _ _ _ _ _ Hloop) as (tr & Htr & Ho' & Hi' & Hl');
      [lia|lia|].
    rewrite Hfirst in Htr.
    exists (separator l ++ tf ++ tr).
    rewrite fields_text_cons, Htf. simpl. rewrite Htr. simpl.
    rewrite !strlen_app in *. repeat split; auto; try lia; congruence.
Qed.

Lemma to_str_body_below_from fs :
  Forall below_step fs →
  ∀ m buffer buffer_size name_prefix n m',
    to_str_body field_to_string_logic fs m buffer buffer_size name_prefix
      = Some (n, m') →
    0 <= n < buffer_size →
    ∃ t, record_text fs name_prefix = Some t ∧ strlen t = n ∧
         n <= INT_MAX ∧ length m' = length m ∧
         0 <= buffer + n < Z.of_nat (length m).
Proof.
  intros Hfs m buffer buffer_size name_prefix n m'. unfold to_str_body.
  destruct (fields_loop _ fs (Locals 0 true) m) as [|r0 m0|l0 m0] eqn:E.
  - discriminate.
  - intros H; inversion H; subst.
    apply fields_loop_Return in E as [-> _]. lia.
  - intros H Hn.
    assert (offset l0 = n ∧ store m0 (buffer + n) NUL = Some m')
      as [<- Hst].
    { replace (0 <? buffer_size) with true in H by lia. simpl in H.
      destruct (offset l0 <? buffer_size) eqn:E1.
      - destruct (store m0 (buffer + offset l0) NUL) eqn:Es; [|discriminate].
        inversion H; subst. auto.
      - replace (buffer_size <=? offset l0) with true in H by lia.
        destruct (store m0 (buffer + (buffer_size - 1)) NUL);
          [|discriminate].
        inversion H; subst. lia. }
    destruct (fields_loop_below fs Hfs _ _ _ _ _ _ _ E)
      as (t & Ht & Ho & Hi & Hl); [lia|simpl; unfold INT_MAX; lia|].
    simpl in *. exists t. unfold record_text.
    pose proof (store_length _ _ _ _ Hst).
    apply store_Some in Hst as [Hr _].
    repeat split; auto; try lia; congruence.
Qed.

Lemma below_step_all f : below_step f.
Proof.
  induction f as [cname fmt_spec v|cname members IH] using field_ind;
    intros buffer buffer_size name_prefix l m l' m';
    rewrite field_text_eq, field_to_string_logic_eq;
    (destruct (separator_logic buffer buffer_size l m) as [|r0 m0|l0 m0] eqn:Es;
     try discriminate);
    apply separator_logic_Continue in Es as [_ Hs]; cbv zeta;
    assert (offset l0 = offset l + strlen (separator l) ∧
            length m0 = length m) as [Ho0 Hl0]
      by (unfold separator, strlen;
          destruct Hs as [(-> & -> & ->)|(-> & _ & -> & _ & Hst)];
          simpl; [split; [lia|reflexivity] |
                  split; [reflexivity | eapply store_length; eauto]]).
  - unfold snprintf.
    destruct (printf_output _ [v]) as [t|]; [|discriminate].
    set (rem := remaining buffer_size (offset l0)).
    set (res := if strlen t <=? INT_MAX then strlen t else -1).
    assert (∀ m1, (if (res <? 0) || (rem <=? res)
              then return_error (terminate m1 buffer buffer_size (offset l0))
              else match int_add (offset l0) res with
                   | Some o => Continue (Locals o false) m1
                   | None => Undefined
                   end) = Continue l' m' →
            res = strlen t ∧ offset l' = offset l0 + res ∧
            offset l' <= INT_MAX ∧ m1 = m') as Hfin.
    { intros m1. destruct ((res <? 0) || (rem <=? res)) eqn:Ec.
      - unfold return_error. destruct (terminate _ _ _ _); discriminate.
      - unfold int_add. destruct (offset l0 + res <=? INT_MAX) eqn:Ei;
          [|discriminate].
        intros H; inversion H; subst l'; simpl.
        subst res. destruct (strlen t <=? INT_MAX); [|simpl in Ec; lia].
        repeat split; auto; lia. }
    destruct (0 <? rem) eqn:Erem.
    + destruct (store_bytes m0 _ _) as [m1|] eqn:Esb; [|discriminate].
      intros H Hlt. apply Hfin in H as (Hres & Ho & Hi & ->).
      exists t. rewrite strlen_app.
      apply store_bytes_length in Esb.
      repeat split; auto; try lia; congruence.
    + intros H Hlt. apply Hfin in H as (Hres & Ho & Hi & ->).
      exists t. rewrite strlen_app. repeat split; auto; lia.
  - destruct (to_str_body field_to_string_logic members m0
                (buffer + offset l0) (remaining buffer_size (offset l0))
                (Some (field_full_name name_prefix cname)))
      as [[res m1]|] eqn:Eb; [|discriminate].
    destruct (res <? 0) eqn:Eres.
    { unfold return_error. destruct (terminate _ _ _ _); discriminate. }
    unfold int_add. destruct (offset l0 + res <=? INT_MAX) eqn:Ei;
      [|discriminate].
    intros H Hlt. inversion H; subst l' m1. simpl in Hlt |- *.
    destruct (to_str_body_below_from members IH _ _ _ _ _ _ Eb)
      as (t & Ht & Hn & _ & Hl & _);
      [unfold remaining; destruct (offset l0 <? buffer_size) eqn:E1; lia|].
    exists t. rewrite strlen_app. repeat split; auto; try lia; congruence.
Qed.

(** A call that returns a count below the capacity has produced the whole
    text of the record. *)
Lemma to_str_body_below s m buffer buffer_size name_prefix n m' :
  to_str_body field_to_string_logic s m buffer buffer_size name_prefix
    = Some (n, m') →
  0 <= n < buffer_size →
  ∃ t, record_text s name_prefix = Some t ∧ strlen t = n ∧
       n <= INT_MAX ∧ length m' = length m ∧
       0 <= buffer + n < Z.of_nat (length m).
Proof.
  apply to_str_body_below_from. every_field below_step_all.
Qed.

(** ** Populated records *)

Lemma fields_loop_populated fs :
  Forall populated_step fs →
  forallb populated_field fs = true → fs ≠ [] →
  ∀ buffer buffer_size name_prefix l m l' m',
    fields_loop
      (fun f => field_to_string_logic f buffer buffer_size name_prefix)
      fs l m = Continue l' m' →
    offset l' < buffer_size.
Proof.
  induction 1 as [|f fs Hf Hfs IH]; intros Hp Hne; [congruence|].
  intros buffer buffer_size name_prefix l m l' m' Hloop.
  simpl in Hp. apply andb_true_iff in Hp as [Hpf Hpfs]. simpl in Hloop.
  destruct (field_to_string_logic f buffer buffer_size name_prefix l m)
    as [|r0 m0|l0 m0] eqn:E; try discriminate.
  destruct fs as [|g fs].
  - simpl in Hloop. inversion Hloop; subst. eapply Hf; eauto.
  - eapply IH; eauto; congruence.
Qed.

Lemma to_str_body_populated_from fs :
  Forall populated_step fs → populated fs = true →
  ∀ m buffer buffer_size name_prefix n m',
    to_str_body field_to_string_logic fs m buffer buffer_size name_prefix
      = Some (n, m') →
    0 <= n → n < buffer_size.
Proof.
  intros Hfs Hp m buffer buffer_size name_prefix n m'.
  unfold populated in Hp. apply andb_true_iff in Hp as [Hne Hp].
  assert (fs ≠ []) as Hne' by (intros ->; discriminate).
  unfold to_str_body.
  destruct (fields_loop _ fs (Locals 0 true) m) as [|r0 m0|l0 m0] eqn:E.
  - discriminate.
  - intros H; inversion H; subst.
    apply fields_loop_Return in E as [-> _]. lia.
  - pose proof (fields_loop_populated fs Hfs Hp Hne' _ _ _ _ _ _ _ E) as Hlt.
    destruct ((0 <? buffer_size) && (offset l0 <? buffer_size)).
    { destruct (store m0 _ NUL); [|discriminate].
      intros H; inversion H; subst. lia. }
    destruct ((0 <? buffer_size) && (buffer_size <=? offset l0)).
    { destruct (store m0 _ NUL); [|discriminate].
      intros H; inversion H; subst. lia. }
    intros H; inversion H; subst. lia.
Qed.

Lemma populated_step_all f : populated_step f.
Proof.
  induction f as [cname fmt_spec v|cname members IH] using field_ind;
    intros Hp buffer buffer_size name_prefix l m l' m';
    rewrite field_to_string_logic_eq;
    (destruct (separator_logic buffer buffer_size l m) as [|r0 m0|l0 m0];
     try discriminate); cbv zeta.
  - destruct (snprintf m0 _ _ _ _) as [[res m1]|]; [|discriminate].
    destruct ((res <? 0) || (remaining buffer_size (offset l0) <=? res))
      eqn:Ec.
    { unfold return_error. destruct (terminate _ _ _ _); discriminate. }
    unfold int_add. destruct (offset l0 + res <=? INT_MAX); [|discriminate].
    intros H; inversion H; subst; simpl.
    unfold remaining in Ec. destruct (offset l0 <? buffer_size) eqn:E; lia.
  - destruct (to_str_body field_to_string_logic members m0 _ _ _)
      as [[res m1]|] eqn:Eb; [|discriminate].
    destruct (res <? 0) eqn:Eres.
    { unfold return_error. destruct (terminate _ _ _ _); discriminate. }
    unfold int_add. destruct (offset l0 + res <=? INT_MAX); [|discriminate].
    intros H; inversion H; subst; simpl.
    apply (to_str_body_populated_from members IH Hp) in Eb; [|lia].
    unfold remaining in Eb. destruct (offset l0 <? buffer_size) eqn:E; lia.
Qed.

(** A count that a call for a populated record returns is below the
    capacity. *)
Lemma to_str_body_populated s m buffer buffer_size name_prefix n m' :
  populated s = true →
  to_str_body field_to_string_logic s m buffer buffer_size name_prefix
    = Some (n, m') →
  0 <= n → n < buffer_size.
Proof.
  intros Hp. apply to_str_body_populated_from; [|exact Hp].
  every_field populated_step_all.
Qed.

(** ** Calls with capacity 0 *)

Lemma fields_loop_zero fs :
  Forall zero_step fs →
  ∀ buffer name_prefix l m t,
    fields_text field_text fs name_prefix (first_field_in_struct l) = Some t →
    offset l = 0 →
    fields_loop (fun f => field_to_string_logic f buffer 0 name_prefix) fs l m
      = Return (-1) m ∨
    (∃ l', fields_loop (fun f => field_to_string_logic f buffer 0 name_prefix)
             fs l m = Continue l' m ∧ offset l' = 0 ∧ leaves fs = 0%nat).
Proof.
  induction 1 as [|f fs Hf _ IH]; intros buffer name_prefix l m t Ht Ho.
  - right. exists l. simpl. auto.
  - rewrite fields_text_cons in Ht.
    destruct (field_text f name_prefix) as [tf|] eqn:Ef; [|discriminate].
    simpl in Ht.
    destruct (fields_text field_text fs name_prefix false) as [tr|] eqn:Er;
      [|discriminate].
    simpl.
    destruct (Hf buffer name_prefix l m tf Ef Ho) as [->|[-> Hz]]; [auto|].
    destruct (IH buffer name_prefix (Locals 0 false) m tr Er eq_refl)
      as [->|(l' & -> & Ho' & Hz')]; [auto|].
    right. exists l'. unfold leaves in *. simpl. rewrite Hz, Hz'. auto.
Qed.

Lemma to_str_body_zero_from fs :
  Forall zero_step fs →
  ∀ m buffer name_prefix t,
    record_text fs name_prefix = Some t →
    to_str_body field_to_string_logic fs m buffer 0 name_prefix
      = Some (-1, m) ∨
    (to_str_body field_to_string_logic fs m buffer 0 name_prefix
       = Some (0, m) ∧ leaves fs = 0%nat).
Proof.
  intros Hfs m buffer name_prefix t Ht. unfold to_str_body.
  destruct (fields_loop_zero fs Hfs buffer name_prefix (Locals 0 true) m t
              Ht eq_refl) as [->|(l' & -> & Ho & Hz)]; [auto|].
  right. simpl. rewrite Ho. auto.
Qed.

Lemma zero_step_all f : zero_step f.
Proof.
  induction f as [cname fmt_spec v|cname members IH] using field_ind;
    intros buffer name_prefix l m t Ht Ho;
    rewrite field_text_eq in Ht; rewrite field_to_string_logic_eq;
    unfold separator_logic; rewrite Ho;
    (destruct (first_field_in_struct l); [|left; reflexivity]);
    cbv zeta; simpl offset; change (remaining 0 0) with 0.
  - left. unfold snprintf. rewrite Ht. simpl.
    destruct (strlen t <=? INT_MAX) eqn:E.
    + replace ((strlen t <? 0) || (0 <=? strlen t)) with true
        by (pose proof (strlen_nonneg t); lia).
      reflexivity.
    + reflexivity.
  - rewrite Z.add_0_r.
    destruct (to_str_body_zero_from members IH m buffer _ t Ht)
      as [->|[-> Hz]]; [left; reflexivity|].
    right. split; [reflexivity|]. exact Hz.
Qed.

Lemma to_str_body_zero s m buffer name_prefix t :
  record_text s name_prefix = Some t →
  (0 < leaves s)%nat →
  to_str_body field_to_string_logic s m buffer 0 name_prefix = Some (-1, m).
Proof.
  intros Ht Hl.
  destruct (to_str_body_zero_from s
              ltac:(every_field zero_step_all)
              m buffer name_prefix t Ht) as [H|[_ Hz]]; [exact H|lia].
Qed.

(** ** Two calls on regions with different contents *)

Lemma same_writes_refl a b : same_writes a b a b.
Proof. repeat split; auto. Qed.

Lemma same_writes_trans a b a1 b1 a2 b2 :
  same_writes a b a1 b1 → same_writes a1 b1 a2 b2 → same_writes a b a2 b2.
Proof.
  intros (H1 & H2 & H3) (H4 & H5 & H6). repeat split; try congruence.
  intros i. destruct (H6 i) as [?|[Ha Hb]]; [auto|].
  rewrite Ha, Hb. apply H3.
Qed.

Lemma same_writes_length a b a' b' :
  same_writes a b a' b' → length a = length b → length a' = length b'.
Proof. intros (H1 & H2 & _) H. congruence. Qed.

Lemma agree_mem_trans a b a1 b1 x y :
  same_writes a b a1 b1 → agree_mem a1 b1 x y → agree_mem a b x y.
Proof.
  intros H. destruct x, y; simpl; auto. apply same_writes_trans, H.
Qed.

Lemma agree_result_trans a b a1 b1 x y :
  same_writes a b a1 b1 → agree_result a1 b1 x y → agree_result a b x y.
Proof.
  intros H. destruct x as [[? ?]|], y as [[? ?]|]; simpl; auto.
  intros [? ?]. split; [assumption|]. eapply same_writes_trans; eauto.
Qed.

Lemma agree_outcome_trans a b a1 b1 x y :
  same_writes a b a1 b1 → agree_outcome a1 b1 x y → agree_outcome a b x y.
Proof.
  intros H. destruct x, y; simpl; auto;
    (intros [? ?]; split; [assumption|]; eapply same_writes_trans; eauto).
Qed.

Lemma store_agree a b p c :
  length a = length b → agree_mem a b (store a p c) (store b p c).
Proof.
  intros Hlen. unfold store. rewrite Hlen.
  destruct ((0 <=? p) && (p <? Z.of_nat (length b))) eqn:E; simpl; [|exact I].
  repeat split; rewrite ?length_insert; auto.
  intros i. destruct (decide (i = Z.to_nat p)) as [->|Hne].
  - left. rewrite !list_lookup_insert_eq by lia. reflexivity.
  - right. rewrite !list_lookup_insert_ne by auto. auto.
Qed.

Lemma store_bytes_agree bs : ∀ a b p,
  length a = length b →
  agree_mem a b (store_bytes a p bs) (store_bytes b p bs).
Proof.
  induction bs as [|c bs IH]; intros a b p Hlen; simpl.
  - apply same_writes_refl.
  - pose proof (store_agree a b p c Hlen) as H.
    destruct (store a p c) as [a1|], (store b p c) as [b1|]; simpl in H;
      try contradiction; [|exact I].
    eapply agree_mem_trans; [exact H|]. apply IH.
    eapply same_writes_length; eauto.
Qed.

Lemma snprintf_agree a b dst n fmt args :
  length a = length b →
  agree_result a b (snprintf a dst n fmt args) (snprintf b dst n fmt args).
Proof.
  intros Hlen. unfold snprintf.
  destruct (printf_output fmt args) as [out|]; [|exact I].
  destruct (0 <? n).
  - pose proof (store_bytes_agree (take (Z.to_nat (n - 1)) out ++ [NUL])
                  a b dst Hlen) as H.
    destruct (store_bytes a dst _) as [a1|], (store_bytes b dst _) as [b1|];
      simpl in *; auto.
  - simpl. split; [reflexivity | apply same_writes_refl].
Qed.

Lemma terminate_agree a b buffer buffer_size off :
  length a = length b →
  agree_mem a b (terminate a buffer buffer_size off)
    (terminate b buffer buffer_size off).
Proof.
  intros Hlen. unfold terminate.
  destruct ((0 <? buffer_size) && (off <? buffer_size));
    [apply store_agree; assumption|].
  destruct (0 <? buffer_size); [apply store_agree; assumption|].
  apply same_writes_refl.
Qed.

Lemma return_error_agree a b x y :
  agree_mem a b x y → agree_outcome a b (return_error x) (return_error y).
Proof. destruct x, y; simpl; auto. Qed.

Lemma separator_logic_agree a b buffer buffer_size l :
  length a = length b →
  agree_outcome a b (separator_logic buffer buffer_size l a)
    (separator_logic buffer buffer_size l b).
Proof.
  intros Hlen. unfold separator_logic.
  destruct (first_field_in_struct l).
  { simpl. split; [reflexivity | apply same_writes_refl]. }
  destruct (offset l <? buffer_size).
  - pose proof (store_agree a b (buffer + offset l) SPACE Hlen) as H.
    destruct (store a _ SPACE) as [a1|], (store b _ SPACE) as [b1|];
      simpl in H; try contradiction; [|exact I].
    destruct (int_add (offset l) 1); simpl; auto.
  - apply return_error_agree.
    destruct (0 <? buffer_size); [apply store_agree; assumption|].
    apply same_writes_refl.
Qed.

Lemma fields_loop_agree fs :
  Forall agree_step fs →
  ∀ buffer buffer_size name_prefix l a b,
    length a = length b →
    agree_outcome a b
      (fields_loop
         (fun f => field_to_string_logic f buffer buffer_size name_prefix)
         fs l a)
      (fields_loop
         (fun f => field_to_string_logic f buffer buffer_size name_prefix)
         fs l b).
Proof.
  induction 1 as [|f fs Hf _ IH];
    intros buffer buffer_size name_prefix l a b Hlen; simpl.
  - split; [reflexivity | apply same_writes_refl].
  - pose proof (Hf buffer buffer_size name_prefix l a b Hlen) as H.
    destruct (field_to_string_logic f buffer buffer_size name_prefix l a)
      as [|r1 a1|l1 a1],
      (field_to_string_logic f buffer buffer_size name_prefix l b)
      as [|r2 b1|l2 b1]; simpl in H; try contradiction; auto.
    destruct H as [<- H]. eapply agree_outcome_trans; [exact H|].
    apply IH. eapply same_writes_length; eauto.
Qed.

Lemma to_str_body_agree_from fs :
  Forall agree_step fs →
  ∀ buffer buffer_size name_prefix a b,
    length a = length b →
    agree_result a b
      (to_str_body field_to_string_logic fs a buffer buffer_size name_prefix)
      (to_str_body field_to_string_logic fs b buffer buffer_size name_prefix).
Proof.
  intros Hfs buffer buffer_size name_prefix a b Hlen. unfold to_str_body.
  pose proof (fields_loop_agree fs Hfs buffer buffer_size name_prefix
                (Locals 0 true) a b Hlen) as H.
  destruct (fields_loop _ fs (Locals 0 true) a) as [|r1 a1|l1 a1],
    (fields_loop _ fs (Locals 0 true) b) as [|r2 b1|l2 b1];
    simpl in H; try contradiction; auto.
  destruct H as [<- H].
  pose proof (same_writes_length _ _ _ _ H Hlen) as Hlen1.
  destruct ((0 <? buffer_size) && (offset l1 <? buffer_size)).
  { pose proof (store_agree a1 b1 (buffer + offset l1) NUL Hlen1) as Hs.
    destruct (store a1 _ NUL), (store b1 _ NUL); simpl in *;
      try contradiction; auto.
    split; [reflexivity|]. eapply same_writes_trans; eauto. }
  destruct ((0 <? buffer_size) && (buffer_size <=? offset l1)).
  { pose proof (store_agree a1 b1 (buffer + (buffer_size - 1)) NUL Hlen1)
      as Hs.
    destruct (store a1 _ NUL), (store b1 _ NUL); simpl in *;
      try contradiction; auto.
    split; [reflexivity|]. eapply same_writes_trans; eauto. }
  simpl. auto.
Qed.

Lemma agree_step_all f : agree_step f.
Proof.
  induction f as [cname fmt_spec v|cname members IH] using field_ind;
    intros buffer buffer_size name_prefix l a b Hlen;
    rewrite !field_to_string_logic_eq;
    pose proof (separator_logic_agree a b buffer buffer_size l Hlen) as Hs;
    (destruct (separator_logic buffer buffer_size l a) as [|r1 a1|l1 a1],
       (separator_logic buffer buffer_size l b) as [|r2 b1|l2 b1];
     simpl in Hs; try contradiction; auto);
    destruct Hs as [<- Hs];
    pose proof (same_writes_length _ _ _ _ Hs Hlen) as Hlen1;
    eapply agree_outcome_trans; try exact Hs; cbv zeta.
  - pose proof (snprintf_agree a1 b1 (buffer + offset l1)
                  (remaining buffer_size (offset l1))
                  (format_string_buffer
                     (field_full_name name_prefix cname) fmt_spec) [v] Hlen1)
      as Hp.
    destruct (snprintf a1 _ _ _ _) as [[res a2]|],
      (snprintf b1 _ _ _ _) as [[res' b2]|];
      simpl in Hp; try contradiction; auto.
    destruct Hp as [<- Hp].
    pose proof (same_writes_length _ _ _ _ Hp Hlen1) as Hlen2.
    eapply agree_outcome_trans; [exact Hp|].
    destruct ((res <? 0) || (remaining buffer_size (offset l1) <=? res)).
    + apply return_error_agree, terminate_agree, Hlen2.
    + destruct (int_add (offset l1) res); simpl; auto.
      split; [reflexivity | apply same_writes_refl].
  - pose proof (to_str_body_agree_from members IH (buffer + offset l1)
                  (remaining buffer_size (offset l1))
                  (Some (field_full_name name_prefix cname)) a1 b1 Hlen1)
      as Hp.
    destruct (to_str_body _ members a1 _ _ _) as [[res a2]|],
      (to_str_body _ members b1 _ _ _) as [[res' b2]|];
      simpl in Hp; try contradiction; auto.
    destruct Hp as [<- Hp].
    pose proof (same_writes_length _ _ _ _ Hp Hlen1) as Hlen2.
    eapply agree_outcome_trans; [exact Hp|].
    destruct (res <? 0).
    + apply return_error_agree, terminate_agree, Hlen2.
    + destruct (int_add (offset l1) res); simpl; auto.
      split; [reflexivity | apply same_writes_refl].
Qed.

Lemma to_str_agree a b buffer buffer_size s name_prefix :
  length a = length b →
  agree_result a b (to_str a buffer buffer_size s name_prefix)
    (to_str b buffer buffer_size s name_prefix).
Proof.
  intros Hlen. destruct s as [fields|]; simpl.
  - apply to_str_body_agree_from; [|assumption].
    every_field agree_step_all.
  - destruct (0 <? buffer_size); [|exact I].
    pose proof (store_agree a b buffer NUL Hlen) as Hs.
    destruct (store a buffer NUL), (store b buffer NUL); simpl in *; auto.
Qed.

(** ** Calls that are defined *)

Lemma terminate_defined m buffer buffer_size off :
  0 <= buffer → 0 <= off →
  buffer + buffer_size <= Z.of_nat (length m) →
  ∃ m', terminate m buffer buffer_size off = Some m' ∧ length m' = length m.
Proof.
  intros Hb Ho Hm. unfold terminate.
  destruct (0 <? buffer_size) eqn:E0; simpl.
  - destruct (off <? buffer_size) eqn:E1;
      rewrite store_in_range by lia; eexists; split; try reflexivity;
      apply length_insert.
  - eauto.
Qed.

Lemma separator_logic_defined buffer buffer_size l m :
  0 <= buffer → 0 <= offset l <= buffer_size → buffer_size <= INT_MAX →
  buffer + buffer_size <= Z.of_nat (length m) →
  within buffer_size (length m) (separator_logic buffer buffer_size l m).
Proof.
  intros Hb Ho Hi Hm. unfold separator_logic, int_add.
  destruct (first_field_in_struct l); simpl; [auto|].
  destruct (offset l <? buffer_size) eqn:E.
  - rewrite store_in_range by lia.
    replace (offset l + 1 <=? INT_MAX) with true by lia.
    simpl. rewrite length_insert. split; [lia|reflexivity].
  - destruct (0 <? buffer_size) eqn:E0; simpl; [|reflexivity].
    rewrite store_in_range by lia. simpl. apply length_insert.
Qed.

Lemma fields_loop_defined fs :
  Forall defined_step fs →
  ∀ buffer buffer_size name_prefix l m t,
    fields_text field_text fs name_prefix (first_field_in_struct l) = Some t →
    0 <= buffer → 0 <= offset l <= buffer_size → buffer_size <= INT_MAX →
    buffer + buffer_size <= Z.of_nat (length m) →
    within buffer_size (length m)
      (fields_loop
         (fun f => field_to_string_logic f buffer buffer_size name_prefix)
         fs l m).
Proof.
  induction 1 as [|f fs Hf _ IH];
    intros buffer buffer_size name_prefix l m t Ht Hb Ho Hi Hm.
  - simpl. auto.
  - rewrite fields_text_cons in Ht.
    destruct (field_text f name_prefix) as [tf|] eqn:Ef; [|discriminate].
    simpl in Ht.
    destruct (fields_text field_text fs name_prefix false) as [tr|] eqn:Er;
      [|discriminate].
    simpl.
    pose proof (Hf buffer buffer_size name_prefix l m tf Ef Hb Ho Hi Hm) as H.
    destruct (field_to_string_logic f buffer buffer_size name_prefix l m)
      as [|r0 m0|l0 m0] eqn:E; simpl in H; auto.
    destruct H as [Ho0 Hl0].
    apply field_logic_Continue_mono in E as [_ Hfirst].
    rewrite <- Hl0. eapply IH; rewrite ?Hfirst; eauto. lia.
Qed.

Lemma to_str_body_defined_from fs :
  Forall defined_step fs →
  ∀ m buffer buffer_size name_prefix t,
    record_text fs name_prefix = Some t →
    0 <= buffer → 0 <= buffer_size <= INT_MAX →
    buffer + buffer_size <= Z.of_nat (length m) →
    ∃ r m',
      to_str_body field_to_string_logic fs m buffer buffer_size name_prefix
        = Some (r, m') ∧
      (r = -1 ∨ 0 <= r <= buffer_size) ∧ length m' = length m.
Proof.
  intros Hfs m buffer buffer_size name_prefix t Ht Hb Hs Hm.
  pose proof (fields_loop_defined fs Hfs buffer buffer_size name_prefix
                (Locals 0 true) m t Ht Hb) as H.
  simpl in H. specialize (H ltac:(lia) ltac:(lia) Hm).
  unfold to_str_body.
  destruct (fields_loop _ fs (Locals 0 true) m) as [|r0 m0|l0 m0] eqn:E;
    simpl in H; [contradiction| |].
  - apply fields_loop_Return in E as [-> _].
    exists (-1), m0. auto.
  - destruct H as [Ho Hl].
    destruct (0 <? buffer_size) eqn:E0; simpl.
    + destruct (offset l0 <? buffer_size) eqn:E1.
      * rewrite store_in_range by lia. simpl.
        eexists _, _. split; [reflexivity|].
        rewrite length_insert. split; [right; lia | assumption].
      * replace (buffer_size <=? offset l0) with true by lia.
        rewrite store_in_range by lia. simpl.
        eexists _, _. split; [reflexivity|].
        rewrite length_insert. split; [right; lia | assumption].
    + eexists _, _. split; [reflexivity|]. split; [right; lia | assumption].
Qed.

Lemma defined_step_all f : defined_step f.
Proof.
  induction f as [cname fmt_spec v|cname members IH] using field_ind;
    intros buffer buffer_size name_prefix l m t Ht Hb Ho Hi Hm;
    rewrite field_text_eq in Ht; rewrite field_to_string_logic_eq;
    pose proof (separator_logic_defined buffer buffer_size l m Hb Ho Hi Hm)
      as Hs;
    (destruct (separator_logic buffer buffer_size l m) as [|r0 m0|l0 m0];
     simpl in Hs; auto);
    destruct Hs as [Ho0 Hl0]; cbv zeta; rewrite <- Hl0 in *;
    assert (0 <= remaining buffer_size (offset l0) ∧
            offset l0 + remaining buffer_size (offset l0) <= buffer_size)
      as [Hr0 Hr1]
      by (unfold remaining; destruct (offset l0 <? buffer_size) eqn:E; lia).
  - unfold snprintf. rewrite Ht.
    set (rem := remaining buffer_size (offset l0)) in *.
    set (res := if strlen t <=? INT_MAX then strlen t else -1).
    assert (∀ m1, length m1 = length m0 →
              within buffer_size (length m0)
                (if (res <? 0) || (rem <=? res)
                 then return_error
                        (terminate m1 buffer buffer_size (offset l0))
                 else match int_add (offset l0) res with
                      | Some o => Continue (Locals o false) m1
                      | None => Undefined
                      end)) as Hfin.
    { intros m1 Hl1. destruct ((res <? 0) || (rem <=? res)) eqn:Ec.
      - destruct (terminate_defined m1 buffer buffer_size (offset l0))
          as (m2 & -> & Hl2); try lia. simpl. congruence.
      - unfold int_add.
        replace (offset l0 + res <=? INT_MAX) with true by lia.
        simpl. split; [lia | assumption]. }
    destruct (0 <? rem) eqn:Erem.
    + rewrite store_bytes_in_range.
      * apply Hfin. apply length_write.
      * lia.
      * unfold strlen. rewrite length_app, length_take. simpl. lia.
    + apply Hfin. reflexivity.
  - destruct (to_str_body_defined_from members IH m0 (buffer + offset l0)
                (remaining buffer_size (offset l0))
                (Some (field_full_name name_prefix cname)) t Ht)
      as (res & m1 & -> & Hres & Hl1); try lia.
    destruct (res <? 0) eqn:Eres.
    + destruct (terminate_defined m1 buffer buffer_size (offset l0))
        as (m2 & -> & Hl2); try lia. simpl. congruence.
    + unfold int_add.
      replace (offset l0 + res <=? INT_MAX) with true by lia.
      simpl. split; [lia | assumption].
Qed.

Lemma to_str_defined m buffer buffer_size s name_prefix :
  0 <= buffer → 1 <= buffer_size <= INT_MAX →
  buffer + buffer_size <= Z.of_nat (length m) →
  (∀ fields, s = Some fields → is_Some (record_text fields name_prefix)) →
  ∃ r m', to_str m buffer buffer_size s name_prefix = Some (r, m') ∧
          (r = -1 ∨ 0 <= r <= buffer_size) ∧ length m' = length m.
Proof.
  intros Hb Hs Hm Hfmt. destruct s as [fields|]; simpl.
  - destruct (Hfmt fields eq_refl) as [t Ht].
    eapply to_str_body_defined_from; eauto; [|lia].
    every_field defined_step_all.
  - replace (0 <? buffer_size) with true by lia.
    rewrite store_in_range by lia. simpl.
    eexists _, _. split; [reflexivity|]. rewrite length_insert.
    split; [right; lia | reflexivity].
Qed.

(** ** The prefix law *)

Lemma printf_output_literal lit : ∀ fmt args,
  percent_free lit = true →
  printf_output (lit ++ fmt) args = app lit <$> printf_output fmt args.
Proof.
  induction lit as [|c lit IH]; intros fmt args H; simpl in *.
  - destruct (printf_output fmt args); reflexivity.
  - apply andb_true_iff in H as [Hc H].
    apply negb_true_iff in Hc. rewrite Hc, IH by assumption.
    destruct (printf_output fmt args); reflexivity.
Qed.

Lemma percent_free_app a b :
  percent_free (a ++ b) = percent_free a && percent_free b.
Proof. apply forallb_app. Qed.

Lemma spec_field_pieces_eq f prefix :
  spec_field_pieces f prefix =
  match f with
  | PRIMITIVE cname fmt_spec v =>
      value ← printf_output fmt_spec [v];
      Some [Tok (spec_path prefix cname) value]
  | STRUCT cname members => spec_pieces members (spec_path prefix cname)
  end.
Proof. destruct f; reflexivity. Qed.

Lemma plain_field_eq f prefix :
  plain_field f prefix =
  let path := spec_path prefix (field_name f) in
  percent_free path && negb (Nat.eqb (length (field_name f)) 0)
  && Nat.leb (length path) 255
  && match f with
     | PRIMITIVE _ fmt_spec _ =>
         Nat.leb (length (path ++ str "=" ++ fmt_spec)) 511
     | STRUCT _ members => plain_paths members path
     end.
Proof. destruct f; reflexivity. Qed.

Lemma spec_fields_pieces_cons f fs prefix first :
  spec_fields_pieces spec_field_pieces (f :: fs) prefix first =
  ps ← spec_field_pieces f prefix;
  rest ← spec_fields_pieces spec_field_pieces fs prefix false;
  Some ((if first then [] else [Sep]) ++ ps ++ rest).
Proof. reflexivity. Qed.

Global Opaque spec_field_pieces plain_field.

Lemma field_full_name_plain prefix cname :
  (length (spec_path prefix cname) <= 255)%nat →
  field_full_name (Some prefix) cname = spec_path prefix cname.
Proof.
  unfold field_full_name, spec_path, snprintf_local.
  destruct prefix; intros H; apply take_ge; simpl in *; lia.
Qed.

Lemma spec_pieces_text_app a b :
  spec_pieces_text (a ++ b) = spec_pieces_text a ++ spec_pieces_text b.
Proof. unfold spec_pieces_text. rewrite map_app, concat_app. reflexivity. Qed.

Lemma fields_text_plain fs :
  Forall plain_step fs →
  ∀ prefix first, plain_paths fs prefix = true →
    fields_text field_text fs (Some prefix) first
    = spec_pieces_text <$> spec_fields_pieces spec_field_pieces fs prefix first.
Proof.
  induction 1 as [|f fs Hf _ IH]; intros prefix first Hp.
  - reflexivity.
  - unfold plain_paths in Hp. simpl in Hp.
    apply andb_true_iff in Hp as [Hp1 Hp2].
    rewrite fields_text_cons, spec_fields_pieces_cons.
    rewrite (Hf prefix Hp1), (IH prefix false Hp2).
    destruct (spec_field_pieces f prefix) as [ps|]; [|reflexivity].
    destruct (spec_fields_pieces spec_field_pieces fs prefix false)
      as [rest|]; [|reflexivity].
    simpl. rewrite !spec_pieces_text_app. destruct first; reflexivity.
Qed.

Lemma plain_step_all f : plain_step f.
Proof.
  induction f as [cname fmt_spec v|cname members IH] using field_ind;
    intros prefix Hp; rewrite plain_field_eq in Hp; cbv zeta in Hp;
    simpl field_name in Hp;
    apply andb_true_iff in Hp as [Hp H4];
    apply andb_true_iff in Hp as [Hp H3];
    apply andb_true_iff in Hp as [H1 H2];
    apply Nat.leb_le in H3;
    rewrite field_text_eq, spec_field_pieces_eq, field_full_name_plain
      by assumption.
  - apply Nat.leb_le in H4.
    unfold format_string_buffer, snprintf_local.
    rewrite take_ge by (change (512 - 1)%nat with 511%nat; lia).
    rewrite printf_output_literal by assumption.
    change (str "=" ++ fmt_spec) with ([ "="%char ] ++ fmt_spec).
    rewrite printf_output_literal by reflexivity.
    destruct (printf_output fmt_spec [v]) as [value|]; [|reflexivity].
    simpl. unfold spec_pieces_text. simpl. rewrite app_nil_r. reflexivity.
  - apply fields_text_plain; assumption.
Qed.

Lemma record_text_plain s prefix :
  plain_paths s prefix = true →
  record_text s (Some prefix) = spec_pieces_text <$> spec_pieces s prefix.
Proof.
  apply fields_text_plain. every_field plain_step_all.
Qed.

Lemma spec_path_extend outer inner cname :
  outer ≠ [] → cname ≠ [] →
  spec_path (extend outer inner) cname = outer ++ str "." ++ spec_path inner cname
  ∧ extend outer (spec_path inner cname)
    = outer ++ str "." ++ spec_path inner cname.
Proof.
  intros Ho Hc. unfold spec_path, extend.
  destruct outer as [|o outer]; [congruence|].
  destruct cname as [|c cname]; [congruence|].
  destruct inner as [|i inner]; simpl.
  - split; reflexivity.
  - rewrite <- !app_assoc. simpl.
    destruct (inner ++ "."%char :: c :: cname) eqn:E; split; reflexivity.
Qed.

Lemma spec_fields_pieces_relabel fs :
  Forall relabel_step fs →
  ∀ outer inner first,
    outer ≠ [] → plain_paths fs (extend outer inner) = true →
    plain_paths fs inner = true ∧
    spec_fields_pieces spec_field_pieces fs (extend outer inner) first
    = map (spec_prefix_key outer)
        <$> spec_fields_pieces spec_field_pieces fs inner first.
Proof.
  induction 1 as [|f fs Hf _ IH]; intros outer inner first Ho Hp.
  - split; reflexivity.
  - unfold plain_paths in Hp |- *. simpl forallb in Hp |- *.
    apply andb_true_iff in Hp as [Hp1 Hp2].
    destruct (Hf outer inner Ho Hp1) as [Hq1 E1].
    destruct (IH outer inner false Ho Hp2) as [Hq2 E2].
    split; [apply andb_true_iff; split; assumption|].
    rewrite !spec_fields_pieces_cons, E1, E2.
    destruct (spec_field_pieces f inner) as [ps|]; [|reflexivity].
    destruct (spec_fields_pieces spec_field_pieces fs inner false)
      as [rest|]; [|reflexivity].
    simpl. rewrite !map_app. destruct first; reflexivity.
Qed.

Lemma relabel_step_all f : relabel_step f.
Proof.
  induction f as [cname fmt_spec v|cname members IH] using field_ind;
    intros outer inner Ho Hp; rewrite plain_field_eq in Hp |- *;
    cbv zeta in Hp |- *; simpl field_name in Hp |- *;
    apply andb_true_iff in Hp as [Hp H4];
    apply andb_true_iff in Hp as [Hp H3];
    apply andb_true_iff in Hp as [H1 H2];
    assert (cname ≠ []) as Hc
      by (intros ->; simpl in H2; discriminate);
    destruct (spec_path_extend outer inner cname Ho Hc) as [E1 E2];
    rewrite E1 in H1, H3, H4;
    rewrite !percent_free_app in H1;
    apply andb_true_iff in H1 as [_ H1];
    apply andb_true_iff in H1 as [_ H1];
    apply Nat.leb_le in H3; rewrite !length_app in H3;
    rewrite !spec_field_pieces_eq, H1, H2.
  - apply Nat.leb_le in H4. rewrite !length_app in H4.
    change (length (str ".")) with 1%nat in *.
    change (length (str "=")) with 1%nat in *.
    split.
    + rewrite !andb_true_l. apply andb_true_iff. split; apply Nat.leb_le;
        rewrite ?length_app; change (length (str "=")) with 1%nat; lia.
    + rewrite E1.
      destruct (printf_output fmt_spec [v]); reflexivity.
  - rewrite E1, <- E2. rewrite <- E2 in H4.
    destruct (spec_fields_pieces_relabel members IH outer
                (spec_path inner cname) true Ho H4) as [Hq E].
    split; [|exact E].
    rewrite Hq, andb_true_r, !andb_true_l. apply Nat.leb_le. lia.
Qed.

Lemma spec_pieces_relabel s prefix :
  prefix ≠ [] → plain_paths s prefix = true →
  plain_paths s [] = true ∧
  spec_pieces s prefix = map (spec_prefix_key prefix) <$> spec_pieces s [].
Proof.
  intros Hp H.
  apply (spec_fields_pieces_relabel s
           ltac:(every_field relabel_step_all)
           prefix [] true Hp H).
Qed.

Lemma spec_pieces_text_prefix_key prefix ps :
  strlen (spec_pieces_text ps)
  <= strlen (spec_pieces_text (map (spec_prefix_key prefix) ps)).
Proof.
  induction ps as [|p ps IH]; [reflexivity|].
  change (p :: ps) with ([p] ++ ps).
  rewrite map_app, !spec_pieces_text_app, !strlen_app.
  assert (strlen (spec_pieces_text [p])
          <= strlen (spec_pieces_text (map (spec_prefix_key prefix) [p]))); [|lia].
  unfold spec_pieces_text, strlen.
  destruct p; simpl; rewrite ?length_app; simpl length; lia.
Qed.

(** ** The string in the buffer *)

Lemma until_nul_app t rest :
  forallb (fun c => negb (Ascii.eqb c NUL)) t = true →
  until_nul (t ++ NUL :: rest) = t.
Proof.
  induction t as [|c t IH]; intros H; simpl in *; [reflexivity|].
  apply andb_true_iff in H as [Hc H]. apply negb_true_iff in Hc.
  rewrite Hc, IH by assumption. reflexivity.
Qed.

Lemma drop_write bs m p :
  (p + length bs <= length m)%nat →
  drop p (write m p bs) = bs ++ drop (p + length bs) m.
Proof.
  intros H. apply list_eq. intros i. rewrite lookup_drop.
  destruct (decide (i < length bs)%nat) as [Hi|Hi].
  - rewrite write_lookup_in, lookup_app_l by lia. f_equal. lia.
  - rewrite write_lookup_ge, lookup_app_r, lookup_drop by lia. f_equal. lia.
Qed.

(** The string read where a text without terminator bytes and a terminator
    have been stored is that text. *)
Lemma string_at_write m p t :
  0 <= p →
  forallb (fun c => negb (Ascii.eqb c NUL)) t = true →
  (Z.to_nat p + length t < length m)%nat →
  string_at (write m (Z.to_nat p) (t ++ [NUL])) p = t.
Proof.
  intros Hp Ht Hm. unfold string_at.
  rewrite drop_write by (rewrite length_app; simpl; lia).
  rewrite <- app_assoc. apply until_nul_app. exact Ht.
Qed.

Lemma string_at_terminator m p :
  0 <= p → m !! Z.to_nat p = Some NUL → string_at m p = [].
Proof.
  intros Hp H. unfold string_at.
  rewrite <- (Nat.add_0_r (Z.to_nat p)) in H.
  rewrite <- lookup_drop in H.
  destruct (drop (Z.to_nat p) m) as [|b bs]; [reflexivity|].
  simpl in H. inversion H; subst. reflexivity.
Qed.

(** ** A second call on the same buffer *)

Lemma to_str_length m buffer buffer_size s name_prefix r m' :
  to_str m buffer buffer_size s name_prefix = Some (r, m') →
  length m' = length m.
Proof.
  intros H.
  pose proof (to_str_agree m m buffer buffer_size s name_prefix eq_refl) as Ha.
  rewrite H in Ha. destruct Ha as [_ (Hl & _)]. exact Hl.
Qed.

Lemma to_str_again m buffer buffer_size s name_prefix r m' :
  to_str m buffer buffer_size s name_prefix = Some (r, m') →
  to_str m' buffer buffer_size s name_prefix = Some (r, m').
Proof.
  intros H. pose proof (to_str_length _ _ _ _ _ _ _ H) as Hlen.
  pose proof (to_str_agree m m' buffer buffer_size s name_prefix
                (eq_sym Hlen)) as Ha.
  rewrite H in Ha.
  destruct (to_str m' buffer buffer_size s name_prefix) as [[r' m'']|];
    [|contradiction].
  destruct Ha as [<- (_ & _ & Hw)].
  f_equal. f_equal. apply list_eq. intros i.
  destruct (Hw i) as [Hi|[_ Hi]]; congruence.
Qed.

(** * What the specification states about the stringifier *)

(** C1, as the code has it.  With capacity 0, null destination included, the
    call for a record with at least one scalar field returns the sentinel -1
    and stores nothing; the byte count [strlen t] of the full text is what a
    call returns whose capacity exceeds it. *)
Theorem sizing_call_returns_sentinel s name_prefix t :
  record_text s name_prefix = Some t →
  (0 < leaves s)%nat →
  (∀ m buffer, to_str m buffer 0 (Some s) name_prefix = Some (-1, m)) ∧
  (∀ m buffer buffer_size,
     0 <= buffer → strlen t < buffer_size → strlen t <= INT_MAX →
     buffer + buffer_size <= Z.of_nat (length m) →
     fst <$> to_str m buffer buffer_size (Some s) name_prefix
     = Some (strlen t)).
Proof.
  intros Ht Hl. split.
  - intros m buffer. simpl. eapply to_str_body_zero; eauto.
  - intros m buffer buffer_size Hb Hs Hi Hm. simpl.
    erewrite to_str_body_fits; eauto. lia.
Qed.

(** The line of the test suite: -1 with capacity 0, 89 with capacity 128. *)
Lemma sizing_call_returns_sentinel_witness :
  to_str [] 0 0 (Some l1) (Some (str "myline")) = Some (-1, []) ∧
  fst <$> to_str (fresh_buffer 128) 0 128 (Some l1) (Some (str "myline"))
  = Some 89.
Proof.
  destruct (sizing_call_returns_sentinel l1 (Some (str "myline"))
              (str "myline.start.x=10 myline.start.y=20 myline.end.x=30 myline.end.y=40 myline.label=MainLine"))
    as [H0 H1]; [vm_compute; reflexivity | vm_compute; lia |].
  split; [apply H0 |].
  apply (H1 (fresh_buffer 128) 0 128); vm_compute; congruence.
Defined.

(** C1 as the specification states it fails: for [Point {10, 20}] under the
    prefix ["mypoint"] a call with room returns the 25 bytes of the text,
    the call with a null destination and capacity 0 returns -1. *)
Lemma sizing_call_counterexample :
  record_text (Point 10 20) (Some (str "mypoint"))
    = Some (str "mypoint.x=10 mypoint.y=20") ∧
  fst <$> to_str (fresh_buffer 1024) 0 1024 (Some (Point 10 20))
            (Some (str "mypoint")) = Some 25 ∧
  fst <$> to_str [] 0 0 (Some (Point 10 20)) (Some (str "mypoint"))
    = Some (-1) ∧
  fst <$> to_str [] 0 0 (Some (Point 10 20)) (Some (str "mypoint"))
    ≠ fst <$> to_str (fresh_buffer 1024) 0 1024 (Some (Point 10 20))
                (Some (str "mypoint")).
Proof. vm_compute. repeat split; congruence. Qed.

(** C2.  After a call with capacity at least 1 the result is the sentinel or
    a count that is not negative, and the buffer holds a terminator at an
    index below the capacity.  Such a call is defined whenever the
    destination has [buffer_size] bytes, [buffer_size] fits an [int] and the
    format strings are within the model of [printf]. *)
Theorem render_terminates_buffer m buffer buffer_size s name_prefix :
  1 <= buffer_size → 0 <= buffer →
  (∀ r m',
     to_str m buffer buffer_size s name_prefix = Some (r, m') →
     (r = -1 ∨ 0 <= r) ∧
     ∃ k, 0 <= k < buffer_size ∧ m' !! Z.to_nat (buffer + k) = Some NUL) ∧
  (buffer_size <= INT_MAX →
   buffer + buffer_size <= Z.of_nat (length m) →
   (∀ fields, s = Some fields → is_Some (record_text fields name_prefix)) →
   is_Some (to_str m buffer buffer_size s name_prefix)).
Proof.
  intros Hs Hb. split.
  - intros r m' H. destruct s as [fields|]; simpl in H.
    + apply to_str_body_result in H as [Hr Ht]. split; [exact Hr|].
      destruct Ht as (i & Hi & Hnul); [lia|].
      exists (i - buffer). split; [lia|].
      replace (buffer + (i - buffer)) with i by lia. exact Hnul.
    + replace (0 <? buffer_size) with true in H by lia.
      destruct (store m buffer NUL) as [m1|] eqn:E; [|discriminate].
      inversion H; subst. split; [right; lia|].
      exists 0. split; [lia|]. rewrite Z.add_0_r.
      eapply store_lookup; eauto.
  - intros Hi Hm Hfmt.
    destruct (to_str_defined m buffer buffer_size s name_prefix)
      as (r & m' & -> & _); auto.
Qed.

(** The line of the test suite in a buffer of 40 bytes: the call returns -1
    and the buffer is terminated. *)
Lemma render_terminates_buffer_witness :
  ∃ m', to_str (fresh_buffer 40) 0 40 (Some l1) (Some (str "myline"))
        = Some (-1, m') ∧
        ∃ k, 0 <= k < 40 ∧ m' !! Z.to_nat (0 + k) = Some NUL.
Proof.
  eexists. split; [vm_compute; reflexivity|].
  eapply (render_terminates_buffer (fresh_buffer 40) 0 40 (Some l1)
            (Some (str "myline"))); [lia | lia | vm_compute; reflexivity].
Defined.

(** C3.  With capacity at least 1 a null record gives the result 0 and the
    empty string: the first byte of the buffer is the terminator. *)
Theorem render_null_record m buffer buffer_size name_prefix :
  1 <= buffer_size → 0 <= buffer →
  buffer + buffer_size <= Z.of_nat (length m) →
  ∃ m', to_str m buffer buffer_size None name_prefix = Some (0, m') ∧
        m' !! Z.to_nat buffer = Some NUL ∧ string_at m' buffer = [].
Proof.
  intros Hs Hb Hm. simpl.
  replace (0 <? buffer_size) with true by lia.
  rewrite store_in_range by lia. simpl. eexists. split; [reflexivity|].
  assert (<[Z.to_nat buffer:=NUL]> m !! Z.to_nat buffer = Some NUL) as H
    by (apply list_lookup_insert_eq; lia).
  split; [exact H|]. apply string_at_terminator; assumption.
Qed.

(** A null record and a buffer of 16 bytes. *)
Lemma render_null_record_witness :
  ∃ m', to_str (fresh_buffer 16) 0 16 None (Some (str "p")) = Some (0, m') ∧
        m' !! Z.to_nat 0 = Some NUL ∧ string_at m' 0 = [].
Proof.
  apply (render_null_record (fresh_buffer 16) 0 16 (Some (str "p")));
    vm_compute; congruence.
Defined.

(** C4, as the code has it.  For a prefix that is not empty and paths that
    are plain (no ['%'], names not empty, paths within 255 bytes and format
    strings within 511), with room for the output, the call under [prefix]
    writes the output of the call under the empty prefix with every key
    prefixed by [prefix] and a dot; that output is the grammar's, with the
    field name as the path and nested records spliced in. *)
Theorem prefix_law s prefix ps m buffer buffer_size :
  prefix ≠ [] →
  plain_paths s prefix = true →
  spec_pieces s [] = Some ps →
  0 <= buffer →
  strlen (spec_pieces_text (map (spec_prefix_key prefix) ps)) < buffer_size →
  strlen (spec_pieces_text (map (spec_prefix_key prefix) ps)) <= INT_MAX →
  buffer + buffer_size <= Z.of_nat (length m) →
  to_str m buffer buffer_size (Some s) (Some [])
  = Some (strlen (spec_pieces_text ps),
          write m (Z.to_nat buffer) (spec_pieces_text ps ++ [NUL])) ∧
  to_str m buffer buffer_size (Some s) (Some prefix)
  = Some (strlen (spec_pieces_text (map (spec_prefix_key prefix) ps)),
          write m (Z.to_nat buffer)
            (spec_pieces_text (map (spec_prefix_key prefix) ps) ++ [NUL])).
Proof.
  intros Hne Hplain Hps Hb Hs Hi Hm.
  destruct (spec_pieces_relabel s prefix Hne Hplain) as [Hplain0 Hrel].
  pose proof (spec_pieces_text_prefix_key prefix ps).
  split; simpl; apply to_str_body_fits; try lia.
  - rewrite record_text_plain, Hps by assumption. reflexivity.
  - rewrite record_text_plain, Hrel, Hps by assumption. reflexivity.
Qed.

(** The line of the test suite under the empty prefix and under ["myline"]. *)
Lemma prefix_law_witness :
  result_string (to_str (fresh_buffer 128) 0 128 (Some l1) (Some [])) 0
  = Some (str "start.x=10 start.y=20 end.x=30 end.y=40 label=MainLine") ∧
  result_string (to_str (fresh_buffer 128) 0 128 (Some l1)
                           (Some (str "myline"))) 0
  = Some (str "myline.start.x=10 myline.start.y=20 myline.end.x=30 myline.end.y=40 myline.label=MainLine").
Proof.
  destruct (prefix_law l1 (str "myline")
              [Tok (str "start.x") (str "10"); Sep;
               Tok (str "start.y") (str "20"); Sep;
               Tok (str "end.x") (str "30"); Sep;
               Tok (str "end.y") (str "40"); Sep;
               Tok (str "label") (str "MainLine")]
              (fresh_buffer 128) 0 128) as [H0 H1];
    try (vm_compute; congruence).
  rewrite H0, H1. split; vm_compute; reflexivity.
Defined.

(** C4 as the specification states it fails for a prefix of 256 bytes:
    [field_full_name] keeps 255 of them, so both keys of [Point {10, 20}]
    are the truncated prefix and the field names are lost. *)
Lemma prefix_law_counterexample :
  let prefix := replicate 256 "a"%char in
  spec_pieces (Point 10 20) []
    = Some [Tok (str "x") (str "10"); Sep; Tok (str "y") (str "20")] ∧
  result_string (to_str (fresh_buffer 2048) 0 2048
                           (Some (Point 10 20)) (Some prefix)) 0
    = Some (replicate 255 "a"%char ++ str "=10 "
            ++ replicate 255 "a"%char ++ str "=20") ∧
  replicate 255 "a"%char ++ str "=10 " ++ replicate 255 "a"%char ++ str "=20"
    ≠ spec_pieces_text
        (map (spec_prefix_key prefix)
           [Tok (str "x") (str "10"); Sep; Tok (str "y") (str "20")]).
Proof.
  cbv zeta. split; [vm_compute; reflexivity|].
  split; [vm_compute; reflexivity|].
  intros H. apply (f_equal length) in H. vm_compute in H. discriminate.
Qed.

(** A ['%'] in the prefix reaches the format string: ["%%"] comes out as
    one ['%'], and a directive that is not matched by the field's argument
    leaves the call undefined. *)
Lemma prefix_with_percent :
  result_string (to_str (fresh_buffer 64) 0 64 (Some (Point 10 20))
                           (Some (str "a%%b"))) 0
    = Some (str "a%b.x=10 a%b.y=20") ∧
  to_str (fresh_buffer 64) 0 64 (Some (Point 10 20)) (Some (str "a%b"))
    = None.
Proof. split; vm_compute; reflexivity. Qed.

(** C5, as the code has it.  If a call with capacity [c1] returns a count
    [n] below [c1], then a call with any capacity above [n], on any
    destination that has that many bytes, returns [n] as well and leaves the
    same [n] bytes. *)
Theorem capacity_monotonicity s name_prefix m1 b1 c1 n m1' m2 b2 c2 :
  to_str m1 b1 c1 s name_prefix = Some (n, m1') →
  0 <= n < c1 → n + 1 <= c2 →
  0 <= b1 → 0 <= b2 → b2 + c2 <= Z.of_nat (length m2) →
  ∃ m2', to_str m2 b2 c2 s name_prefix = Some (n, m2') ∧
         ∀ i, 0 <= i < n →
              m2' !! Z.to_nat (b2 + i) = m1' !! Z.to_nat (b1 + i).
Proof.
  intros H1 Hn Hc Hb1 Hb2 Hm2. destruct s as [fields|]; simpl in *.
  - destruct (to_str_body_below _ _ _ _ _ _ _ H1 Hn)
      as (t & Ht & Hlen & Hi & Hl & Hr).
    rewrite (to_str_body_fits fields m1 b1 c1 name_prefix t) in H1
      by (try assumption; lia).
    inversion H1; subst m1'. clear H1.
    rewrite (to_str_body_fits fields m2 b2 c2 name_prefix t)
      by (try assumption; lia).
    rewrite Hlen. eexists. split; [reflexivity|].
    intros i Hi'. unfold strlen in *.
    rewrite !write_lookup_in by (rewrite ?length_app; simpl; lia).
    f_equal. lia.
  - destruct (0 <? c1); [|discriminate].
    destruct (store m1 b1 NUL); [|discriminate].
    inversion H1; subst.
    replace (0 <? c2) with true by lia.
    rewrite store_in_range by lia. simpl. eexists. split; [reflexivity|].
    intros i Hi. lia.
Qed.

(** The point of the test suite with capacity 32, and with capacity 30 in
    another buffer from index 3 on. *)
Lemma capacity_monotonicity_witness :
  ∃ m2', to_str (fresh_buffer 64) 3 30 (Some (Point 10 20))
           (Some (str "mypoint")) = Some (25, m2') ∧
         ∀ i, 0 <= i < 25 →
              m2' !! Z.to_nat (3 + i)
              = (str "mypoint.x=10 mypoint.y=20" ++ NUL :: replicate 6 "?"%char)
                  !! Z.to_nat (0 + i).
Proof.
  eapply (capacity_monotonicity (Some (Point 10 20)) (Some (str "mypoint"))
            (fresh_buffer 32) 0 32 25 _ (fresh_buffer 64) 3 30);
    [vm_compute; reflexivity | lia | lia | lia | lia | vm_compute; congruence].
Defined.

(** C5 as the specification states it fails when the last field is a nested
    record without fields and the capacity is used up by the separator
    before it: with capacity 4 the call returns 4 and has overwritten the
    separator with the terminator, with capacity 5 it returns 4 and the
    fourth byte is the separator. *)
Lemma capacity_monotonicity_counterexample :
  prod_map id (take 4)
    <$> to_str (fresh_buffer 8) 0 4 (Some trailing_empty) None
    = Some (4, str "a=1" ++ [NUL]) ∧
  prod_map id (take 4)
    <$> to_str (fresh_buffer 8) 0 5 (Some trailing_empty) None
    = Some (4, str "a=1 ") ∧
  str "a=1" ++ [NUL] ≠ str "a=1 ".
Proof. vm_compute. repeat split; congruence. Qed.

(** For populated records a count that is not negative is below the
    capacity, so that the monotonicity holds for every call that succeeds. *)
Lemma capacity_monotonicity_populated s name_prefix m1 b1 c1 n m1' m2 b2 c2 :
  populated s = true →
  to_str m1 b1 c1 (Some s) name_prefix = Some (n, m1') →
  0 <= n → n + 1 <= c2 →
  0 <= b1 → 0 <= b2 → b2 + c2 <= Z.of_nat (length m2) →
  ∃ m2', to_str m2 b2 c2 (Some s) name_prefix = Some (n, m2') ∧
         ∀ i, 0 <= i < n →
              m2' !! Z.to_nat (b2 + i) = m1' !! Z.to_nat (b1 + i).
Proof.
  intros Hp H1 Hn Hc Hb1 Hb2 Hm2.
  pose proof (to_str_body_populated _ _ _ _ _ _ _ Hp H1 Hn) as Hlt.
  simpl in H1.
  destruct (to_str_body_below _ _ _ _ _ _ _ H1 (conj Hn Hlt))
    as (t & Ht & Hlen & Hi & Hl & Hr).
  rewrite (to_str_body_fits s m1 b1 c1 name_prefix t) in H1
    by (try assumption; lia).
  inversion H1; subst m1'. clear H1. simpl.
  rewrite (to_str_body_fits s m2 b2 c2 name_prefix t)
    by (try assumption; lia).
  rewrite Hlen. eexists. split; [reflexivity|].
  intros i Hi'. unfold strlen in *.
  rewrite !write_lookup_in by (rewrite ?length_app; simpl; lia).
  f_equal. lia.
Qed.

(** C6.  The second scenario of the test suite: for the line
    [{{10, 20}, {30, 40}, "MainLine"}] under the prefix ["myline"], on every
    destination with room for more than 89 bytes, the result is 89 and the
    buffer holds the expected string and its terminator. *)
Theorem render_line_scenario m buffer buffer_size :
  0 <= buffer → 89 < buffer_size →
  buffer + buffer_size <= Z.of_nat (length m) →
  to_str m buffer buffer_size (Some l1) (Some (str "myline"))
  = Some (89,
      write m (Z.to_nat buffer)
        (str "myline.start.x=10 myline.start.y=20 myline.end.x=30 myline.end.y=40 myline.label=MainLine"
         ++ [NUL])) ∧
  result_string
    (to_str m buffer buffer_size (Some l1) (Some (str "myline"))) buffer
  = Some (str "myline.start.x=10 myline.start.y=20 myline.end.x=30 myline.end.y=40 myline.label=MainLine").
Proof.
  intros Hb Hs Hm.
  set (t := str "myline.start.x=10 myline.start.y=20 myline.end.x=30 myline.end.y=40 myline.label=MainLine").
  assert (length t = 89%nat) as Hlen by reflexivity.
  assert (strlen t = 89) as Hstrlen by reflexivity.
  assert (to_str m buffer buffer_size (Some l1) (Some (str "myline"))
          = Some (89, write m (Z.to_nat buffer) (t ++ [NUL]))) as E.
  { simpl to_str.
    rewrite (to_str_body_fits l1 m buffer buffer_size (Some (str "myline")) t);
      [rewrite Hstrlen; reflexivity | vm_compute; reflexivity | exact Hb
      | | |]; rewrite Hstrlen; unfold INT_MAX; lia. }
  split; [exact E|]. rewrite E. unfold result_string. simpl snd.
  cbn [fmap option_fmap option_map]. f_equal.
  apply string_at_write; [exact Hb | reflexivity | lia].
Qed.

(** The buffer of 1024 bytes of the test. *)
Lemma render_line_scenario_witness :
  result_string
    (to_str (fresh_buffer 1024) 0 1024 (Some l1) (Some (str "myline"))) 0
  = Some (str "myline.start.x=10 myline.start.y=20 myline.end.x=30 myline.end.y=40 myline.label=MainLine").
Proof.
  apply (render_line_scenario (fresh_buffer 1024) 0 1024);
    vm_compute; congruence.
Defined.

(** C9.  The result of a call and the bytes it stores do not depend on what
    the destination held before: two calls with the same arguments on
    regions of the same size are both undefined or return the same value,
    and every byte of the two regions is then the same or untouched in both.
    In particular a second call on the buffer the first one left returns the
    same value and leaves every byte as it is. *)
Theorem render_deterministic buffer buffer_size s name_prefix m1 m2 :
  length m1 = length m2 →
  agree_result m1 m2
    (to_str m1 buffer buffer_size s name_prefix)
    (to_str m2 buffer buffer_size s name_prefix) ∧
  (∀ r m1', to_str m1 buffer buffer_size s name_prefix = Some (r, m1') →
            to_str m1' buffer buffer_size s name_prefix = Some (r, m1')).
Proof.
  intros Hlen. split; [apply to_str_agree; assumption|].
  intros r m1'. apply to_str_again.
Qed.

(** Two buffers of 40 bytes with different contents. *)
Lemma render_deterministic_witness :
  agree_result (fresh_buffer 40) (replicate 40 "!"%char)
    (to_str (fresh_buffer 40) 0 40 (Some l1) (Some (str "myline")))
    (to_str (replicate 40 "!"%char) 0 40 (Some l1) (Some (str "myline"))).
Proof.
  apply (render_deterministic 0 40 (Some l1) (Some (str "myline"))
           (fresh_buffer 40) (replicate 40 "!"%char)).
  vm_compute. reflexivity.
Defined.

(** * Properties of the formatter *)

Lemma strcat_fits capacity buffer src :
  strlen buffer + strlen src + 1 <= capacity →
  strcat capacity buffer src = Some (buffer ++ src).
Proof.
  intros H. unfold strcat.
  replace (strlen buffer + strlen src + 1 <=? capacity) with true by lia.
  reflexivity.
Qed.

Lemma spec_escape_cons c v :
  spec_escape (c :: v) = spec_escape_byte c ++ spec_escape v.
Proof. reflexivity. Qed.

Lemma escape_loop_fits v : ∀ capacity buffer,
  strlen buffer + strlen (spec_escape v) + 1 <= capacity →
  escape_loop capacity buffer v = Some (buffer ++ spec_escape v).
Proof.
  induction v as [|c v IH]; intros capacity buffer H.
  - simpl. rewrite app_nil_r. reflexivity.
  - rewrite spec_escape_cons, strlen_app in H.
    pose proof (strlen_nonneg (spec_escape v)).
    cbn [escape_loop].
    replace (if Ascii.eqb c QUOTE
             then strcat capacity buffer [BACKSLASH; QUOTE]
             else if Ascii.eqb c BACKSLASH
                  then strcat capacity buffer [BACKSLASH; BACKSLASH]
                  else strcat capacity buffer [c])
      with (strcat capacity buffer (spec_escape_byte c))
      by (unfold spec_escape_byte; destruct (Ascii.eqb c QUOTE);
          [|destruct (Ascii.eqb c BACKSLASH)]; reflexivity).
    rewrite strcat_fits by lia. simpl.
    rewrite IH by (rewrite strlen_app; lia).
    rewrite spec_escape_cons, <- app_assoc. reflexivity.
Qed.

Lemma token_separator_code capacity buffer :
  strlen buffer + strlen (token_separator buffer) + 1 <= capacity →
  (if 0 <? strlen buffer then
     if negb (Ascii.eqb (List.last buffer NUL) SPACE)
     then strcat capacity buffer [SPACE]
     else Some buffer
   else Some buffer)
  = Some (buffer ++ token_separator buffer).
Proof.
  unfold token_separator, ends_in_space.
  destruct buffer as [|b buffer]; [reflexivity|].
  change (0 <? strlen (b :: buffer)) with true.
  generalize (Ascii.eqb (List.last (b :: buffer) NUL) SPACE).
  intros [|]; cbn [negb andb]; intros H.
  - rewrite app_nil_r. reflexivity.
  - apply strcat_fits. exact H.
Qed.

(** What the second loop appends for a pair with key and value. *)
Lemma pair_logic_fits capacity buffer kv :
  strlen (buffer ++ token_separator buffer ++ spec_token kv) + 1 <= capacity →
  pair_logic capacity buffer (pair_of kv)
  = Some (buffer ++ token_separator buffer ++ spec_token kv).
Proof.
  destruct kv as [k v]. unfold pair_logic, pair_of, spec_token. simpl.
  rewrite !strlen_app. change (?a :: ?b :: ?l) with ([a; b] ++ l).
  rewrite !strlen_app.
  pose proof (strlen_nonneg buffer). pose proof (strlen_nonneg k).
  pose proof (strlen_nonneg (token_separator buffer)).
  pose proof (strlen_nonneg (spec_escape v)).
  change (strlen ["="%char; QUOTE]) with 2. change (strlen [QUOTE]) with 1.
  intros Hfit.
  rewrite token_separator_code by lia. simpl.
  rewrite strcat_fits by (rewrite ?strlen_app; lia). simpl.
  rewrite strcat_fits
    by (rewrite ?strlen_app; change (strlen ["="%char; QUOTE]) with 2; lia).
  simpl.
  rewrite escape_loop_fits
    by (rewrite ?strlen_app; change (strlen ["="%char; QUOTE]) with 2; lia).
  simpl.
  rewrite strcat_fits
    by (rewrite ?strlen_app; change (strlen ["="%char; QUOTE]) with 2;
        change (strlen [QUOTE]) with 1; lia).
  rewrite <- !app_assoc. reflexivity.
Qed.

Lemma append_tokens_grows kvs : ∀ buffer,
  strlen buffer <= strlen (append_tokens buffer kvs).
Proof.
  induction kvs as [|kv kvs IH]; intros buffer; simpl; [lia|].
  etransitivity; [|apply IH]. rewrite !strlen_app.
  pose proof (strlen_nonneg (token_separator buffer)).
  pose proof (strlen_nonneg (spec_token kv)). lia.
Qed.

Lemma pairs_loop_fits kvs : ∀ capacity buffer,
  strlen (append_tokens buffer kvs) + 1 <= capacity →
  pairs_loop capacity buffer (map pair_of kvs)
  = Some (append_tokens buffer kvs).
Proof.
  induction kvs as [|kv kvs IH]; intros capacity buffer H; simpl in *.
  - reflexivity.
  - pose proof (append_tokens_grows kvs
                  (buffer ++ token_separator buffer ++ spec_token kv)).
    rewrite pair_logic_fits by lia. simpl. apply IH. exact H.
Qed.

Lemma last_snoc_token buffer kv d :
  List.last (buffer ++ token_separator buffer ++ spec_token kv) d = QUOTE.
Proof.
  unfold spec_token.
  change (fst kv ++ "="%char :: QUOTE :: spec_escape (snd kv) ++ [QUOTE])
    with (fst kv ++ ("="%char :: QUOTE :: spec_escape (snd kv)) ++ [QUOTE]).
  rewrite !app_assoc. apply last_last.
Qed.

Lemma token_separator_after_token buffer kv :
  token_separator (buffer ++ token_separator buffer ++ spec_token kv)
  = [SPACE].
Proof.
  unfold token_separator at 1, ends_in_space.
  rewrite last_snoc_token.
  destruct (buffer ++ token_separator buffer ++ spec_token kv) eqn:E.
  - apply (f_equal length) in E. rewrite !length_app in E.
    unfold spec_token in E. rewrite length_app in E. simpl in E. lia.
  - reflexivity.
Qed.

Lemma append_tokens_after_token kvs : ∀ buffer kv,
  append_tokens (buffer ++ token_separator buffer ++ spec_token kv) kvs
  = (buffer ++ token_separator buffer)
    ++ spec_join_spaces (map spec_token (kv :: kvs)).
Proof.
  induction kvs as [|kv' kvs IH]; intros buffer kv.
  - simpl. rewrite <- app_assoc. reflexivity.
  - cbn [append_tokens]. rewrite IH, token_separator_after_token.
    cbn [map spec_join_spaces]. rewrite <- !app_assoc. reflexivity.
Qed.

Lemma append_tokens_join buffer kvs :
  kvs ≠ [] →
  append_tokens buffer kvs
  = buffer ++ token_separator buffer ++ spec_join_spaces (map spec_token kvs).
Proof.
  destruct kvs as [|kv kvs]; [congruence|]. intros _.
  cbn [append_tokens]. rewrite append_tokens_after_token, <- app_assoc.
  reflexivity.
Qed.

Lemma size_t_small z : 0 <= z < SIZE_MODULUS → size_t z = z.
Proof. apply Z.mod_small. Qed.

Lemma take_length_map {A B} (f : A → B) (l : list A) :
  take (Z.to_nat (Z.of_nat (length l))) (map f l) = map f l.
Proof. apply take_ge. rewrite length_map. lia. Qed.

(** The call on pairs with keys and values, when the line fits the
    allocation. *)
Lemma format_logfmt_fits user_message kvs :
  let msg := default [] user_message in
  let n := Z.of_nat (length kvs) in
  strlen (append_tokens msg kvs) + 1
    <= required_size user_message (map pair_of kvs) n →
  format_logfmt true user_message (map pair_of kvs) n
  = Some (Some (append_tokens msg kvs)).
Proof.
  intros msg n H. unfold format_logfmt.
  rewrite length_map.
  replace (Z.of_nat (length kvs) <? n) with false by lia.
  fold n. cbv zeta. simpl negb. cbv iota.
  pose proof (append_tokens_grows kvs msg).
  pose proof (strlen_nonneg msg).
  replace (required_size user_message (map pair_of kvs) n <? 1)
    with false by lia.
  assert (match user_message with
          | Some (c :: m) =>
              if strlen (c :: m) + 1
                 <=? required_size user_message (map pair_of kvs) n
              then Some (c :: m) else None
          | _ => Some []
          end = Some msg) as ->.
  { subst msg. destruct user_message as [[|c m]|]; simpl in *; try reflexivity.
    replace (strlen (c :: m) + 1
             <=? required_size (Some (c :: m)) (map pair_of kvs) n)
      with true by lia.
    reflexivity. }
  simpl. subst n. rewrite take_length_map, pairs_loop_fits by exact H.
  reflexivity.
Qed.

(** ** Lines that do not fit *)

Lemma strcat_Some capacity buffer src r :
  strcat capacity buffer src = Some r →
  r = buffer ++ src ∧ strlen r + 1 <= capacity.
Proof.
  unfold strcat.
  destruct (strlen buffer + strlen src + 1 <=? capacity) eqn:E; [|discriminate].
  intros H; inversion H; subst. rewrite strlen_app. split; [reflexivity|lia].
Qed.

Lemma escape_loop_Some v : ∀ capacity buffer r,
  escape_loop capacity buffer v = Some r →
  r = buffer ++ spec_escape v ∧ (v ≠ [] → strlen r + 1 <= capacity).
Proof.
  induction v as [|c v IH]; intros capacity buffer r H.
  - simpl in H. inversion H; subst. rewrite app_nil_r. split; congruence.
  - cbn [escape_loop] in H.
    replace (if Ascii.eqb c QUOTE
             then strcat capacity buffer [BACKSLASH; QUOTE]
             else if Ascii.eqb c BACKSLASH
                  then strcat capacity buffer [BACKSLASH; BACKSLASH]
                  else strcat capacity buffer [c])
      with (strcat capacity buffer (spec_escape_byte c)) in H
      by (unfold spec_escape_byte; destruct (Ascii.eqb c QUOTE);
          [|destruct (Ascii.eqb c BACKSLASH)]; reflexivity).
    destruct (strcat capacity buffer (spec_escape_byte c)) as [b1|] eqn:E;
      [|discriminate].
    simpl in H. apply strcat_Some in E as [-> Hfit].
    apply IH in H as [-> Hr].
    rewrite spec_escape_cons, app_assoc. split; [reflexivity|]. intros _.
    destruct v as [|c' v]; [|apply Hr; congruence].
    change (spec_escape []) with (@nil ascii). rewrite app_nil_r. exact Hfit.
Qed.

(** A pair with key and value that the second loop gets through has
    appended its token within the allocation. *)
Lemma pair_logic_Some capacity buffer kv r :
  pair_logic capacity buffer (pair_of kv) = Some r →
  r = buffer ++ token_separator buffer ++ spec_token kv ∧
  strlen r + 1 <= capacity.
Proof.
  destruct kv as [k v]. unfold pair_logic, pair_of, spec_token. simpl.
  intros H.
  assert (∃ b1, b1 = buffer ++ token_separator buffer ∧
                mbind (fun b1 =>
                  mbind (fun b2 =>
                    mbind (fun b3 =>
                      mbind (fun b4 => strcat capacity b4 [QUOTE])
                        (escape_loop capacity b3 v))
                      (strcat capacity b2 ["="%char; QUOTE]))
                    (strcat capacity b1 k)) (Some b1) = Some r)
    as (b1 & -> & H1).
  { unfold token_separator, ends_in_space.
    destruct buffer as [|b buffer].
    - exists []. split; [reflexivity|exact H].
    - change (0 <? strlen (b :: buffer)) with true in H |- *.
      revert H. generalize (Ascii.eqb (List.last (b :: buffer) NUL) SPACE).
      intros [|]; cbn [negb andb]; intros H.
      + exists (b :: buffer). rewrite app_nil_r. split; [reflexivity|exact H].
      + destruct (strcat capacity (b :: buffer) [SPACE]) as [b1|] eqn:E;
          [|discriminate].
        apply strcat_Some in E as [-> _]. eexists. split; [reflexivity|].
        exact H. }
  simpl in H1.
  destruct (strcat capacity _ k) as [b2|] eqn:E2; [|discriminate].
  apply strcat_Some in E2 as [-> _]. simpl in H1.
  destruct (strcat capacity _ ["="%char; QUOTE]) as [b3|] eqn:E3;
    [|discriminate].
  apply strcat_Some in E3 as [-> _]. simpl in H1.
  destruct (escape_loop capacity _ v) as [b4|] eqn:E4; [|discriminate].
  apply escape_loop_Some in E4 as [-> _]. simpl in H1.
  apply strcat_Some in H1 as [-> Hfit]. split; [|exact Hfit].
  rewrite <- !app_assoc. reflexivity.
Qed.

Lemma pairs_loop_Some kvs : ∀ capacity buffer r,
  pairs_loop capacity buffer (map pair_of kvs) = Some r →
  r = append_tokens buffer kvs ∧ (kvs ≠ [] → strlen r + 1 <= capacity).
Proof.
  induction kvs as [|kv kvs IH]; intros capacity buffer r H; simpl in H.
  - inversion H; subst. split; [reflexivity | congruence].
  - destruct (pair_logic capacity buffer (pair_of kv)) as [b1|] eqn:E;
      [|discriminate].
    simpl in H. apply pair_logic_Some in E as [-> Hfit].
    apply IH in H as [-> Hr]. split; [reflexivity|]. intros _.
    destruct kvs as [|kv' kvs]; [exact Hfit | apply Hr; congruence].
Qed.

(** The call on pairs with keys and values returns a line only when the
    line fits the allocation; with a longer line a [strcat] writes past the
    allocation. *)
Lemma format_logfmt_Some user_message kvs line :
  format_logfmt true user_message (map pair_of kvs) (Z.of_nat (length kvs))
    = Some (Some line) →
  line = append_tokens (default [] user_message) kvs ∧
  strlen line + 1
    <= required_size user_message (map pair_of kvs) (Z.of_nat (length kvs)).
Proof.
  unfold format_logfmt. rewrite length_map, Z.ltb_irrefl. cbv zeta.
  simpl negb. cbv iota.
  set (capacity := required_size user_message (map pair_of kvs)
                     (Z.of_nat (length kvs))).
  destruct (capacity <? 1) eqn:Ecap; [discriminate|].
  rewrite take_length_map.
  assert (∀ b, Some <$> pairs_loop capacity b (map pair_of kvs)
               = Some (Some line) →
               strlen b + 1 <= capacity →
               line = append_tokens b kvs ∧ strlen line + 1 <= capacity)
    as Hloop.
  { intros b H Hb.
    destruct (pairs_loop capacity b (map pair_of kvs)) as [r|] eqn:E;
      [|discriminate].
    simpl in H. inversion H; subst r.
    apply pairs_loop_Some in E as [-> Hr]. split; [reflexivity|].
    destruct kvs as [|kv kvs]; [exact Hb | apply Hr; congruence]. }
  destruct user_message as [[|c msg]|]; simpl default.
  - intros H. apply Hloop; [exact H | change (strlen []) with 0; lia].
  - destruct (strlen (c :: msg) + 1 <=? capacity) eqn:E; [|discriminate].
    intros H. apply Hloop; [exact H | lia].
  - intros H. apply Hloop; [exact H | change (strlen []) with 0; lia].
Qed.

Lemma format_logfmt_not_null user_message pairs num_pairs :
  format_logfmt true user_message pairs num_pairs ≠ Some None.
Proof.
  unfold format_logfmt.
  destruct (Z.of_nat (length pairs) <? num_pairs); [discriminate|].
  cbv zeta. simpl negb. cbv iota.
  destruct (required_size user_message pairs num_pairs <? 1); [discriminate|].
  match goal with |- context [mbind _ ?x] => destruct x end; simpl;
    [|discriminate].
  destruct (pairs_loop _ _ _); discriminate.
Qed.

Lemma format_logfmt_overflow user_message kvs :
  required_size user_message (map pair_of kvs) (Z.of_nat (length kvs))
    < strlen (append_tokens (default [] user_message) kvs) + 1 →
  format_logfmt true user_message (map pair_of kvs) (Z.of_nat (length kvs))
  = None.
Proof.
  intros H.
  destruct (format_logfmt true user_message (map pair_of kvs)
              (Z.of_nat (length kvs))) as [[line|]|] eqn:E.
  - apply format_logfmt_Some in E as [-> Hfit]. lia.
  - exfalso. exact (format_logfmt_not_null _ _ _ E).
  - reflexivity.
Qed.

(** ** Pairs with a null key or value *)











(** ** The size of the allocation *)

Lemma sizing_loop_sum kvs : ∀ r,
  0 <= r → r + pairs_size kvs < SIZE_MODULUS →
  sizing_loop (map pair_of kvs) r = r + pairs_size kvs.
Proof.
  unfold pairs_size.
  induction kvs as [|[k v] kvs IH]; intros r Hr H; simpl in *; [lia|].
  rewrite size_t_small by (unfold strlen; lia).
  rewrite IH by (unfold strlen; lia). unfold strlen. lia.
Qed.

Lemma strlen_spec_escape v :
  strlen (spec_escape v) = strlen v + Z.of_nat (count_escapes v).
Proof.
  unfold strlen. induction v as [|c v IH]; [reflexivity|].
  rewrite spec_escape_cons, length_app. cbn [count_escapes length].
  unfold spec_escape_byte, needs_escape.
  destruct (Ascii.eqb c QUOTE); [|destruct (Ascii.eqb c BACKSLASH)];
    simpl in *; lia.
Qed.

Lemma strlen_join_tokens kvs :
  kvs ≠ [] →
  strlen (spec_join_spaces (map spec_token kvs))
  = pairs_size kvs + escaped_bytes kvs - 1.
Proof.
  unfold pairs_size, escaped_bytes.
  induction kvs as [|[k v] kvs IH]; [congruence|]. intros _.
  assert (strlen (spec_token (k, v))
          = strlen k + strlen v + Z.of_nat (count_escapes v) + 3) as Ht.
  { unfold spec_token. simpl fst. simpl snd.
    change (?a :: ?b :: ?l) with ([a; b] ++ l).
    rewrite !strlen_app, strlen_spec_escape.
    change (strlen ["="%char; QUOTE]) with 2. change (strlen [QUOTE]) with 1.
    lia. }
  destruct kvs as [|kv' kvs].
  - simpl in *. unfold strlen in *. lia.
  - specialize (IH ltac:(congruence)).
    change (spec_join_spaces (map spec_token ((k, v) :: kv' :: kvs)))
      with (spec_token (k, v) ++ [SPACE]
            ++ spec_join_spaces (map spec_token (kv' :: kvs))).
    rewrite !strlen_app, IH, Ht. change (strlen [SPACE]) with 1.
    simpl map. simpl list_sum. unfold strlen. simpl fst. simpl snd. lia.
Qed.

(** The allocation has room for the line when at most one byte of the values
    is escaped and the sizes do not wrap around. *)
Lemma line_fits_allocation user_message kvs :
  let msg := default [] user_message in
  kvs ≠ [] → ends_in_space msg = false →
  escaped_bytes kvs <= 1 →
  strlen msg + pairs_size kvs + 2 < SIZE_MODULUS →
  strlen (spec_line msg kvs) + 1
  <= required_size user_message (map pair_of kvs) (Z.of_nat (length kvs)).
Proof.
  intros msg Hne Hsp Hesc Hwrap. unfold required_size, spec_line.
  rewrite take_length_map.
  pose proof (strlen_nonneg msg).
  assert (0 <= pairs_size kvs) by (unfold pairs_size; lia).
  assert (match user_message with
          | Some m => size_t (0 + strlen m)
          | None => 0
          end = strlen msg) as ->.
  { subst msg. destruct user_message as [m|]; simpl; [|reflexivity].
    apply size_t_small. simpl in *. lia. }
  rewrite sizing_loop_sum by lia.
  rewrite !strlen_app, strlen_join_tokens by assumption.
  replace (0 <? Z.of_nat (length kvs)) with true
    by (symmetry; apply Z.ltb_lt;
        destruct kvs; [congruence | cbn [length]; lia]).
  rewrite (size_t_small (strlen msg + pairs_size kvs + 1)) by lia.
  subst msg.
  destruct user_message as [[|c m]|]; simpl default in *; cbn [andb];
    rewrite ?size_t_small by lia; change (strlen []) with 0;
    change (strlen [SPACE]) with 1; lia.
Qed.

(** * What the specification states about the logger *)


(** C7, as the code has it.  For pairs with keys and values, a message
    (null counts as empty) that does not end in a space, and a line that fits
    the allocation computed up front, the result is the message, a single
    space if the message is not empty, and the [key="value"] tokens with
    their values escaped, separated by single spaces.  The line fits when at
    most one byte of the values is escaped ([line_fits_allocation]); when it
    does not fit the call writes past the allocation
    ([format_logfmt_overflow]). *)
Theorem format_logfmt_line user_message kvs :
  let msg := default [] user_message in
  kvs ≠ [] → ends_in_space msg = false →
  strlen (spec_line msg kvs) + 1
    <= required_size user_message (map pair_of kvs) (Z.of_nat (length kvs)) →
  format_logfmt true user_message (map pair_of kvs) (Z.of_nat (length kvs))
  = Some (Some (spec_line msg kvs)).
Proof.
  intros msg Hne Hsp Hfit.
  assert (append_tokens msg kvs = spec_line msg kvs) as E.
  { rewrite append_tokens_join by assumption. unfold spec_line.
    f_equal. f_equal. unfold token_separator. rewrite Hsp.
    destruct msg; reflexivity. }
  rewrite <- E in *. apply format_logfmt_fits. exact Hfit.
Qed.

(** A message and two pairs, one of them with a quote in its value. *)
Lemma format_logfmt_line_witness :
  format_logfmt true (Some (str "bad thing 7"))
    [pair_of (str "x", str "1"); pair_of (str "y", [QUOTE])] 2
  = Some (Some (str "bad thing 7 x=" ++ QUOTE :: str "1" ++ QUOTE
                :: str " y=" ++ [QUOTE; BACKSLASH; QUOTE; QUOTE])).
Proof.
  apply (format_logfmt_line (Some (str "bad thing 7"))
           [(str "x", str "1"); (str "y", [QUOTE])]);
    [congruence | reflexivity |].
  apply (line_fits_allocation (Some (str "bad thing 7"))
           [(str "x", str "1"); (str "y", [QUOTE])]);
    [congruence | reflexivity | vm_compute; congruence | reflexivity].
Defined.

(** C7 as the specification states it fails for a message that ends in a
    space: the code puts no second space before the first token.  It also
    leaves out of account that a line with two escaped bytes is one byte
    longer than the allocation. *)
Lemma format_logfmt_line_counterexample :
  format_logfmt true (Some (str "msg ")) [pair_of (str "k", str "v")] 1
    = Some (Some (str "msg k=" ++ QUOTE :: str "v" ++ [QUOTE])) ∧
  spec_line (str "msg ") [(str "k", str "v")]
    = str "msg  k=" ++ QUOTE :: str "v" ++ [QUOTE] ∧
  str "msg k=" ++ QUOTE :: str "v" ++ [QUOTE]
    ≠ str "msg  k=" ++ QUOTE :: str "v" ++ [QUOTE].
Proof. vm_compute. repeat split; congruence. Qed.

(** Two escaped bytes: the allocation has 10 bytes, the line and its
    terminator need 11. *)
Lemma format_logfmt_two_escapes_overflow :
  format_logfmt true (Some (str "m")) [pair_of (str "k", [QUOTE; QUOTE])] 1
    = None ∧
  required_size (Some (str "m")) [pair_of (str "k", [QUOTE; QUOTE])] 1 = 10 ∧
  strlen (spec_line (str "m") [(str "k", [QUOTE; QUOTE])]) + 1 = 11.
Proof. vm_compute. auto. Qed.

(** C8.  For a pointer that is not null and three allocations that succeed
    the fallback extractor returns one pair, [unknown_error_type] with the
    value [unhandled_type_at_address_] followed by the text of the address,
    and sets the count to 1; for a null pointer, and when an allocation
    fails, it returns null and the count is 0.  The text of ["%p"] is at
    most 101 bytes, so that the value fits [value_buffer]. *)
Theorem parse_unknown_error_result percent_p heap error_details num_pairs_out :
  (error_details ≠ 0 → strlen (percent_p error_details) <= 101 →
   parse_unknown_error percent_p (true :: true :: true :: heap)
     error_details num_pairs_out
   = (Some [ {| key := Some (str "unknown_error_type");
                value := Some (str "unhandled_type_at_address_"
                               ++ percent_p error_details) |} ],
      (fun _ => 1) <$> num_pairs_out)) ∧
  parse_unknown_error percent_p heap 0 num_pairs_out
  = (None, (fun _ => 0) <$> num_pairs_out) ∧
  (match heap with true :: true :: true :: _ => False | _ => True end →
   parse_unknown_error percent_p heap error_details num_pairs_out
   = (None, (fun _ => 0) <$> num_pairs_out)).
Proof.
  split; [|split].
  - intros Hp Hlen. unfold parse_unknown_error.
    replace (error_details =? 0) with false by lia. cbn [allocate negb].
    unfold snprintf_local. rewrite take_ge.
    + destruct num_pairs_out; reflexivity.
    + unfold strlen in Hlen. rewrite length_app.
      change (length (str "unhandled_type_at_address_")) with 26%nat. lia.
  - reflexivity.
  - intros Hheap. unfold parse_unknown_error.
    destruct (error_details =? 0); [reflexivity|].
    destruct heap as [|[|] [|[|] [|[|] heap]]]; simpl; try reflexivity.
    contradiction.
Qed.

(** An address on the stack, printed as glibc does. *)
Lemma parse_unknown_error_result_witness :
  parse_unknown_error glibc_percent_p [true; true; true] 140737488347136
    (Some 7)
  = (Some [ {| key := Some (str "unknown_error_type");
               value := Some (str "unhandled_type_at_address_0x7fffffffe000") |} ],
     Some 1).
Proof.
  apply (parse_unknown_error_result glibc_percent_p [] 140737488347136
           (Some 7)); vm_compute; congruence.
Defined.




(** * The destination of the stringifier *)

Ltac comparison_lemma :=
  first [ apply Z.ltb_lt | apply Z.ltb_ge | apply Z.leb_le | apply Z.leb_gt
        | apply Z.eqb_eq | apply Z.eqb_neq ].

Ltac decide_comparison :=
  first [ comparison_lemma | symmetry; comparison_lemma ]; lia.

(** ** Nothing is stored outside the buffer *)

Lemma unchanged_outside_refl buffer buffer_size m :
  unchanged_outside buffer buffer_size m m.
Proof. split; auto. Qed.

Lemma unchanged_outside_trans buffer buffer_size m1 m2 m3 :
  unchanged_outside buffer buffer_size m1 m2 →
  unchanged_outside buffer buffer_size m2 m3 →
  unchanged_outside buffer buffer_size m1 m3.
Proof.
  intros [Hl1 H1] [Hl2 H2]. split; [congruence|].
  intros i Hi. rewrite H2, H1; auto.
Qed.

Lemma unchanged_outside_sub b1 s1 b2 s2 m m' :
  unchanged_outside b1 s1 m m' →
  (0 < s1 → b2 <= b1 ∧ b1 + s1 <= b2 + s2) →
  unchanged_outside b2 s2 m m'.
Proof.
  intros [Hl H] Hsub. split; [exact Hl|].
  intros i Hi. apply H. lia.
Qed.

Lemma store_unchanged_outside buffer buffer_size m p c m' :
  store m p c = Some m' → buffer <= p < buffer + buffer_size →
  unchanged_outside buffer buffer_size m m'.
Proof.
  intros [Hp ->]%store_Some Hin. split; [apply length_insert|].
  intros i Hi. apply list_lookup_insert_ne. lia.
Qed.

Lemma write_unchanged_outside bs : ∀ buffer buffer_size m p,
  buffer <= Z.of_nat p → Z.of_nat p + strlen bs <= buffer + buffer_size →
  unchanged_outside buffer buffer_size m (write m p bs).
Proof.
  intros buffer buffer_size m p H1 H2. split; [apply length_write|].
  intros i Hi. unfold strlen in H2.
  destruct (decide (i < p)%nat).
  - apply write_lookup_lt. lia.
  - apply write_lookup_ge. lia.
Qed.

Lemma store_bytes_unchanged_outside bs buffer buffer_size m p m' :
  store_bytes m p bs = Some m' →
  (bs ≠ [] → buffer <= p ∧ p + strlen bs <= buffer + buffer_size) →
  unchanged_outside buffer buffer_size m m'.
Proof.
  intros [-> Hp]%store_bytes_Some Hin.
  destruct bs as [|b bs]; [apply unchanged_outside_refl|].
  destruct Hp as [Hp0 Hp1]; [congruence|].
  destruct Hin as [Hi0 Hi1]; [congruence|].
  apply write_unchanged_outside; lia.
Qed.

Lemma snprintf_unchanged_outside m dst n fmt args res m' :
  snprintf m dst n fmt args = Some (res, m') →
  unchanged_outside dst n m m'.
Proof.
  unfold snprintf. destruct (printf_output fmt args) as [out|]; [|discriminate].
  destruct (0 <? n) eqn:En.
  - destruct (store_bytes m dst _) as [m1|] eqn:E; [|discriminate].
    intros H; inversion H; subst.
    eapply store_bytes_unchanged_outside; [exact E|].
    intros _. unfold strlen. rewrite length_app, length_take. simpl. lia.
  - intros H; inversion H; subst. apply unchanged_outside_refl.
Qed.

Lemma terminate_unchanged_outside m buffer buffer_size off m' :
  terminate m buffer buffer_size off = Some m' → 0 <= off →
  unchanged_outside buffer buffer_size m m'.
Proof.
  unfold terminate. intros H Hoff.
  destruct (0 <? buffer_size) eqn:E0; simpl in H.
  - destruct (off <? buffer_size) eqn:E1;
      eapply store_unchanged_outside; eauto; lia.
  - inversion H; subst. apply unchanged_outside_refl.
Qed.

Lemma return_error_unchanged_outside buffer buffer_size m0 m off :
  unchanged_outside buffer buffer_size m0 m → 0 <= off →
  outcome_unchanged_outside buffer buffer_size m0
    (return_error (terminate m buffer buffer_size off)).
Proof.
  intros Hm Hoff.
  destruct (terminate m buffer buffer_size off) as [m1|] eqn:E; simpl; auto.
  eapply unchanged_outside_trans; [exact Hm|].
  eapply terminate_unchanged_outside; eauto.
Qed.

Lemma separator_logic_unchanged_outside buffer buffer_size l m :
  0 <= offset l →
  outcome_unchanged_outside buffer buffer_size m
    (separator_logic buffer buffer_size l m).
Proof.
  intros Ho. unfold separator_logic, int_add.
  destruct (first_field_in_struct l); simpl; [apply unchanged_outside_refl|].
  destruct (offset l <? buffer_size) eqn:E.
  - destruct (store m (buffer + offset l) SPACE) as [m1|] eqn:Es; simpl; auto.
    destruct (offset l + 1 <=? INT_MAX); simpl; auto.
    eapply store_unchanged_outside; eauto. lia.
  - destruct (0 <? buffer_size) eqn:E0; simpl; [|apply unchanged_outside_refl].
    destruct (store m (buffer + (buffer_size - 1)) NUL) as [m1|] eqn:Es;
      simpl; auto.
    eapply store_unchanged_outside; eauto. lia.
Qed.

Lemma fields_loop_unchanged_outside fs :
  Forall frame_step fs →
  ∀ buffer buffer_size name_prefix l m,
    0 <= offset l →
    outcome_unchanged_outside buffer buffer_size m
      (fields_loop
         (fun f => field_to_string_logic f buffer buffer_size name_prefix)
         fs l m).
Proof.
  induction 1 as [|f fs Hf _ IH]; intros buffer buffer_size name_prefix l m Ho.
  - simpl. apply unchanged_outside_refl.
  - simpl. pose proof (Hf buffer buffer_size name_prefix l m Ho) as H.
    destruct (field_to_string_logic f buffer buffer_size name_prefix l m)
      as [|r0 m0|l0 m0] eqn:E; simpl in *; auto.
    apply field_logic_Continue_mono in E as [? _].
    specialize (IH buffer buffer_size name_prefix l0 m0 ltac:(lia)).
    destruct (fields_loop _ fs l0 m0); simpl in *; auto;
      eapply unchanged_outside_trans; eauto.
Qed.

Lemma to_str_body_unchanged_outside_from fs :
  Forall frame_step fs →
  ∀ m buffer buffer_size name_prefix r m',
    to_str_body field_to_string_logic fs m buffer buffer_size name_prefix
      = Some (r, m') →
    unchanged_outside buffer buffer_size m m'.
Proof.
  intros Hfs m buffer buffer_size name_prefix r m'.
  pose proof (fields_loop_unchanged_outside fs Hfs buffer buffer_size
                name_prefix (Locals 0 true) m ltac:(simpl; lia)) as H.
  unfold to_str_body.
  destruct (fields_loop _ fs (Locals 0 true) m) as [|r0 m0|l0 m0] eqn:E;
    simpl in H.
  - discriminate.
  - intros H'; inversion H'; subst. exact H.
  - apply fields_loop_Continue_mono in E. simpl in E.
    destruct (0 <? buffer_size) eqn:E0; simpl.
    + destruct (offset l0 <? buffer_size) eqn:E1.
      * destruct (store m0 _ NUL) as [m1|] eqn:Es; [|discriminate].
        intros H'; inversion H'; subst.
        eapply unchanged_outside_trans; [exact H|].
        eapply store_unchanged_outside; eauto. lia.
      * replace (buffer_size <=? offset l0) with true by lia.
        destruct (store m0 _ NUL) as [m1|] eqn:Es; [|discriminate].
        intros H'; inversion H'; subst.
        eapply unchanged_outside_trans; [exact H|].
        eapply store_unchanged_outside; eauto. lia.
    + intros H'; inversion H'; subst. exact H.
Qed.

Lemma frame_step_all f : frame_step f.
Proof.
  induction f as [cname fmt_spec v|cname members IH] using field_ind;
    intros buffer buffer_size name_prefix l m Ho;
    rewrite field_to_string_logic_eq;
    pose proof (separator_logic_unchanged_outside buffer buffer_size l m Ho)
      as Hs;
    (destruct (separator_logic buffer buffer_size l m) as [|r0 m0|l0 m0] eqn:Es;
     simpl in Hs; auto);
    apply separator_logic_Continue in Es as [_ Hl0];
    assert (0 <= offset l0)
      by (destruct Hl0 as [(_ & -> & _)|(_ & _ & -> & _)]; lia);
    cbv zeta;
    assert (0 < remaining buffer_size (offset l0) →
            buffer <= buffer + offset l0 ∧
            buffer + offset l0 + remaining buffer_size (offset l0)
            <= buffer + buffer_size) as Hsub
      by (unfold remaining; destruct (offset l0 <? buffer_size) eqn:E; lia).
  - destruct (snprintf m0 _ _ _ _) as [[res m1]|] eqn:E; simpl; auto.
    apply snprintf_unchanged_outside in E.
    eapply unchanged_outside_sub in E; [|exact Hsub].
    pose proof (unchanged_outside_trans _ _ _ _ _ Hs E) as Hm1.
    destruct ((res <? 0) || (_ <=? res)).
    + apply return_error_unchanged_outside; auto.
    + destruct (int_add (offset l0) res); simpl; auto.
  - destruct (to_str_body field_to_string_logic members m0 _ _ _)
      as [[res m1]|] eqn:E; simpl; auto.
    apply (to_str_body_unchanged_outside_from members IH) in E.
    eapply unchanged_outside_sub in E; [|exact Hsub].
    pose proof (unchanged_outside_trans _ _ _ _ _ Hs E) as Hm1.
    destruct (res <? 0).
    + apply return_error_unchanged_outside; auto.
    + destruct (int_add (offset l0) res); simpl; auto.
Qed.

(** X1.  A call stores nothing outside the [buffer_size] bytes at
    [buffer]: whatever its result, every byte of the region at an index
    outside the buffer is as it was before, and the region has the length
    it had. *)
Theorem to_str_stays_inside_buffer m buffer buffer_size s name_prefix r m' :
  to_str m buffer buffer_size s name_prefix = Some (r, m') →
  length m' = length m ∧
  ∀ i : nat, ¬ (buffer <= Z.of_nat i < buffer + buffer_size) →
             m' !! i = m !! i.
Proof.
  destruct s as [fields|]; simpl.
  - apply to_str_body_unchanged_outside_from. every_field frame_step_all.
  - destruct (0 <? buffer_size) eqn:E; [|discriminate].
    destruct (store m buffer NUL) as [m1|] eqn:Es; [|discriminate].
    simpl. intros H; inversion H; subst.
    eapply store_unchanged_outside; eauto. lia.
Qed.

(** The line of the test suite in 40 bytes in the middle of a region of 60
    bytes: the call returns -1 and the 20 bytes around the buffer are as
    they were. *)
Lemma to_str_stays_inside_buffer_witness :
  ∃ m', to_str (fresh_buffer 60) 10 40 (Some l1) (Some (str "myline"))
        = Some (-1, m') ∧
        length m' = length (fresh_buffer 60) ∧
        ∀ i : nat, ¬ (10 <= Z.of_nat i < 10 + 40) →
                   m' !! i = fresh_buffer 60 !! i.
Proof.
  eexists. split; [vm_compute; reflexivity|].
  apply (to_str_stays_inside_buffer (fresh_buffer 60) 10 40 (Some l1)
           (Some (str "myline")) (-1)).
  vm_compute. reflexivity.
Defined.

(** ** The result and the string in the buffer *)

(** X2.  For a record in which every record type has a field, in a buffer
    of at least one byte: the call returns the length of the text when the
    text and its terminator fit the buffer, and -1 otherwise. *)
Theorem to_str_result_value s name_prefix t m buffer buffer_size :
  populated s = true →
  record_text s name_prefix = Some t →
  0 <= buffer → 1 <= buffer_size <= INT_MAX →
  buffer + buffer_size <= Z.of_nat (length m) →
  fst <$> to_str m buffer buffer_size (Some s) name_prefix
  = Some (if strlen t <? buffer_size then strlen t else -1).
Proof.
  intros Hp Ht Hb Hs Hm. simpl.
  destruct (strlen t <? buffer_size) eqn:E.
  - erewrite to_str_body_fits; eauto; lia.
  - destruct (to_str_defined m buffer buffer_size (Some s) name_prefix)
      as (r & m' & Hr & Hres & _); eauto.
    { intros fields [= <-]. eauto. }
    simpl in Hr. rewrite Hr. simpl. f_equal.
    destruct Hres as [->|Hres]; [reflexivity|].
    pose proof (to_str_body_populated _ _ _ _ _ _ _ Hp Hr ltac:(lia)) as Hlt.
    destruct (to_str_body_below _ _ _ _ _ _ _ Hr ltac:(lia))
      as (t' & Ht' & Hlen & _).
    rewrite Ht in Ht'. inversion Ht'; subst. lia.
Qed.

(** The point of the test suite, whose text has 25 bytes, in 16 bytes. *)
Lemma to_str_result_value_witness :
  fst <$> to_str (fresh_buffer 16) 0 16 (Some (Point 10 20))
            (Some (str "mypoint"))
  = Some (-1).
Proof.
  apply (to_str_result_value (Point 10 20) (Some (str "mypoint"))
           (str "mypoint.x=10 mypoint.y=20") (fresh_buffer 16) 0 16);
    [reflexivity | reflexivity | lia | unfold INT_MAX; lia
    | vm_compute; congruence].
Defined.

(** X3.  A count below the capacity is the length of the string the call
    has left in the buffer, and that string is the whole text of the
    record. *)
Theorem to_str_count_is_length s name_prefix m buffer buffer_size n m' :
  to_str m buffer buffer_size (Some s) name_prefix = Some (n, m') →
  0 <= buffer → 0 <= n < buffer_size →
  ∃ t, record_text s name_prefix = Some t ∧ strlen t = n ∧
       m' = write m (Z.to_nat buffer) (t ++ [NUL]) ∧
       (nul_free t = true → string_at m' buffer = t).
Proof.
  intros H Hb Hn. simpl in H.
  destruct (to_str_body_below _ _ _ _ _ _ _ H Hn)
    as (t & Ht & Hlen & Hi & Hl & Hr).
  exists t. split; [exact Ht|]. split; [exact Hlen|].
  rewrite (to_str_body_fits s m buffer buffer_size name_prefix t) in H
    by (try assumption; lia).
  inversion H; subst m'. split; [reflexivity|].
  intros Hnul. apply string_at_write; auto. unfold strlen in *. lia.
Qed.
(** The point of the test suite in 64 bytes. *)
Lemma to_str_count_is_length_witness :
  ∃ m', to_str (fresh_buffer 64) 0 64 (Some (Point 10 20))
          (Some (str "mypoint")) = Some (25, m') ∧
        ∃ t, record_text (Point 10 20) (Some (str "mypoint")) = Some t ∧
             strlen t = 25 ∧
             m' = write (fresh_buffer 64) (Z.to_nat 0) (t ++ [NUL]) ∧
             (nul_free t = true → string_at m' 0 = t).
Proof.
  eexists. split; [vm_compute; reflexivity|].
  apply (to_str_count_is_length (Point 10 20) (Some (str "mypoint"))
           (fresh_buffer 64) 0 64 25);
    [vm_compute; reflexivity | lia | lia].
Defined.

(** ** The string in the buffer after a truncation *)

Lemma until_nul_lookup t : ∀ bs,
  nul_free t = true →
  (∀ i : nat, (i < length t)%nat → bs !! i = t !! i) →
  bs !! length t = Some NUL →
  until_nul bs = t.
Proof.
  induction t as [|c t IH]; intros bs Hnul Hbs Hend; simpl in *.
  - destruct bs as [|b bs]; [discriminate|]. simpl in Hend.
    inversion Hend; subst. reflexivity.
  - apply andb_true_iff in Hnul as [Hc Hnul]. apply negb_true_iff in Hc.
    destruct bs as [|b bs]; [discriminate|].
    pose proof (Hbs 0%nat ltac:(lia)) as H0. simpl in H0.
    inversion H0; subst. simpl. rewrite Hc. f_equal.
    apply IH; auto. intros i Hi. apply (Hbs (S i)). lia.
Qed.

Lemma string_at_holds m p t :
  nul_free t = true → holds m p t →
  m !! (Z.to_nat p + length t)%nat = Some NUL →
  string_at m p = t.
Proof.
  intros Hnul Hh Hend. unfold string_at. apply until_nul_lookup; auto.
  - intros i Hi. rewrite lookup_drop. apply Hh. exact Hi.
  - rewrite lookup_drop. exact Hend.
Qed.

Lemma nul_free_app a b : nul_free (a ++ b) = nul_free a && nul_free b.
Proof. apply forallb_app. Qed.

Lemma nul_free_take n t : nul_free t = true → nul_free (take n t) = true.
Proof.
  intros H. rewrite <- (take_drop n t) in H.
  rewrite nul_free_app in H. apply andb_true_iff in H as [H _]. exact H.
Qed.

Lemma fields_loop_Return_split (step : field → locals → mem → outcome) fs :
  ∀ l m r m',
    fields_loop step fs l m = Return r m' →
    ∃ done f rest l1 m1,
      fs = done ++ f :: rest ∧
      fields_loop step done l m = Continue l1 m1 ∧
      step f l1 m1 = Return r m'.
Proof.
  induction fs as [|f fs IH]; intros l m r m' H; simpl in H; [discriminate|].
  destruct (step f l m) as [|r0 m0|l0 m0] eqn:E; try discriminate.
  - inversion H; subst. exists [], f, fs, l, m. auto.
  - apply IH in H as (done & g & rest & l1 & m1 & -> & Hd & Hg).
    exists (f :: done), g, rest, l1, m1. simpl. rewrite E. auto.
Qed.

Lemma fields_text_app done : ∀ fs name_prefix first t,
  fields_text field_text (done ++ fs) name_prefix first = Some t →
  ∃ td u, fields_text field_text done name_prefix first = Some td ∧
          t = td ++ u.
Proof.
  induction done as [|f done IH]; intros fs name_prefix first t H.
  - exists [], t. auto.
  - simpl app in H. rewrite fields_text_cons in *.
    destruct (field_text f name_prefix) as [tf|]; [|discriminate].
    simpl in *.
    destruct (fields_text field_text (done ++ fs) name_prefix false)
      as [tr|] eqn:E; [|discriminate].
    apply IH in E as (td & u & -> & ->). simpl in *.
    inversion H; subst. eexists _, u. split; [reflexivity|].
    rewrite <- !app_assoc. reflexivity.
Qed.

Lemma field_call_unchanged_outside f buffer buffer_size name_prefix l m r m' :
  field_to_string_logic f buffer buffer_size name_prefix l m = Return r m' →
  0 <= offset l < buffer_size →
  ∃ l0 m0 m1,
    separator_logic buffer buffer_size l m = Continue l0 m0 ∧
    unchanged_outside (buffer + offset l0)
      (remaining buffer_size (offset l0)) m0 m1 ∧
    terminate m1 buffer buffer_size (offset l0) = Some m'.
Proof.
  rewrite field_to_string_logic_eq. intros H Ho.
  destruct (separator_logic buffer buffer_size l m) as [|r0 m0|l0 m0] eqn:Es.
  - discriminate.
  - apply separator_logic_Return in Es as (_ & ? & _). lia.
  - exists l0, m0. cbv zeta in H.
    assert (0 <= offset l0) as Ho0
      by (apply separator_logic_Continue in Es as [_ Hs];
          destruct Hs as [(_ & -> & _)|(_ & _ & -> & _)]; lia).
    destruct f as [cname fmt_spec v|cname members].
    + destruct (snprintf m0 _ _ _ _) as [[res m1]|] eqn:E; [|discriminate].
      exists m1. split; [reflexivity|].
      split; [eapply snprintf_unchanged_outside; eauto|].
      destruct ((res <? 0) || (_ <=? res)).
      * destruct (terminate m1 buffer buffer_size (offset l0));
          inversion H; subst; reflexivity.
      * destruct (int_add (offset l0) res); discriminate.
    + destruct (to_str_body field_to_string_logic members m0 _ _ _)
        as [[res m1]|] eqn:E; [|discriminate].
      exists m1. split; [reflexivity|].
      split.
      { eapply to_str_body_unchanged_outside_from; [|exact E].
        every_field frame_step_all. }
      destruct (res <? 0).
      * destruct (terminate m1 buffer buffer_size (offset l0));
          inversion H; subst; reflexivity.
      * destruct (int_add (offset l0) res); discriminate.
Qed.

Lemma field_logic_Return_cut f buffer buffer_size name_prefix l m r m' td :
  field_to_string_logic f buffer buffer_size name_prefix l m = Return r m' →
  0 <= buffer → 0 <= offset l < buffer_size → strlen td = offset l →
  holds m buffer td →
  holds m' buffer (take (Z.to_nat (buffer_size - 1)) (td ++ separator l)) ∧
  m' !! (Z.to_nat buffer
         + length (take (Z.to_nat (buffer_size - 1)) (td ++ separator l)))%nat
  = Some NUL.
Proof.
  intros H Hb Ho Htd Hh.
  destruct (field_call_unchanged_outside _ _ _ _ _ _ _ _ H Ho)
    as (l0 & m0 & m1 & Hs & [Hl1 Hm1] & Ht).
  apply separator_logic_Continue in Hs as [_ Hs].
  unfold terminate in Ht. replace (0 <? buffer_size) with true in Ht by lia.
  simpl in Ht. unfold strlen in Htd. unfold separator.
  destruct Hs as [(-> & Ho0 & ->)|(-> & _ & Ho0 & _ & Hst)].
  - (* first field: no separator *)
    rewrite Ho0 in *. replace (offset l <? buffer_size) with true in Ht by lia.
    apply store_Some in Ht as [Hp ->].
    rewrite app_nil_r, take_ge by lia.
    split.
    + intros i Hi. rewrite list_lookup_insert_ne by lia.
      rewrite Hm1 by lia. apply Hh. exact Hi.
    + replace (Z.to_nat buffer + length td)%nat
        with (Z.to_nat (buffer + offset l)) by lia.
      apply list_lookup_insert_eq. lia.
  - apply store_Some in Hst as [Hps ->]. rewrite ?length_insert in *.
    destruct (offset l0 <? buffer_size) eqn:E.
    + apply store_Some in Ht as [Hp ->].
      rewrite take_ge by (rewrite length_app; simpl; lia).
      rewrite length_app. simpl. split.
      * intros i Hi. rewrite length_app in Hi. simpl in Hi.
        rewrite list_lookup_insert_ne by lia. rewrite Hm1 by lia.
        destruct (decide (i = length td)) as [->|Hne].
        -- replace (Z.to_nat buffer + length td)%nat
             with (Z.to_nat (buffer + offset l)) by lia.
           rewrite list_lookup_insert_eq by lia.
           rewrite lookup_app_r, Nat.sub_diag by lia. reflexivity.
        -- rewrite list_lookup_insert_ne by lia.
           rewrite lookup_app_l by lia. apply Hh. lia.
      * replace (Z.to_nat buffer + (length td + 1))%nat
          with (Z.to_nat (buffer + offset l0)) by lia.
        apply list_lookup_insert_eq. lia.
    + apply store_Some in Ht as [Hp ->].
      replace (Z.to_nat (buffer_size - 1)) with (length td) by lia.
      rewrite take_app_length. split.
      * intros i Hi. rewrite list_lookup_insert_ne by lia.
        rewrite Hm1 by (unfold remaining; rewrite E; lia).
        rewrite list_lookup_insert_ne by lia. apply Hh. exact Hi.
      * replace (Z.to_nat buffer + length td)%nat
          with (Z.to_nat (buffer + (buffer_size - 1))) by lia.
        apply list_lookup_insert_eq. lia.
Qed.

Lemma fields_loop_Continue_first buffer buffer_size name_prefix fs :
  ∀ l m l' m',
    fields_loop
      (fun f => field_to_string_logic f buffer buffer_size name_prefix)
      fs l m = Continue l' m' →
    first_field_in_struct l'
    = match fs with [] => first_field_in_struct l | _ => false end.
Proof.
  induction fs as [|f fs IH]; intros l m l' m' H; simpl in H.
  - inversion H; subst. reflexivity.
  - destruct (field_to_string_logic f buffer buffer_size name_prefix l m)
      as [|r0 m0|l0 m0] eqn:E; try discriminate.
    apply field_logic_Continue_mono in E as [_ E].
    apply IH in H. rewrite H. destruct fs; auto.
Qed.

Lemma fields_loop_done_holds done buffer buffer_size name_prefix m l1 m1 :
  fields_loop
    (fun f => field_to_string_logic f buffer buffer_size name_prefix)
    done (Locals 0 true) m = Continue l1 m1 →
  offset l1 < buffer_size → 0 <= buffer →
  buffer + buffer_size <= Z.of_nat (length m) →
  ∃ td, record_text done name_prefix = Some td ∧
        strlen td = offset l1 ∧ holds m1 buffer td.
Proof.
  intros Hloop Hlt Hb Hm.
  destruct (fields_loop_below done ltac:(every_field below_step_all)
              _ _ _ _ _ _ _ Hloop Hlt ltac:(simpl; unfold INT_MAX; lia))
    as (td & Htd & Ho & Hi & Hl).
  simpl in Htd, Ho. exists td. split; [exact Htd|]. split; [lia|].
  destruct (fields_loop_fits done ltac:(every_field fits_step_all)
              buffer buffer_size name_prefix (Locals 0 true) m td Htd Hb)
    as (l' & m' & Hloop' & _ & Hw); simpl; try lia.
  rewrite Hloop in Hloop'. inversion Hloop'; subst l' m'. cbn [offset] in Hw.
  intros i Hi'. unfold strlen in *.
  rewrite <- (write_lookup_lt [NUL] m1 (Z.to_nat (buffer + offset l1)))
    by lia.
  rewrite Hw, Z.add_0_r.
  rewrite write_lookup_in by (rewrite ?length_app; simpl; lia).
  rewrite lookup_app_l by lia. f_equal. lia.
Qed.

Lemma fields_text_snoc done : ∀ f rest name_prefix first t,
  fields_text field_text (done ++ f :: rest) name_prefix first = Some t →
  ∃ td tf,
    fields_text field_text done name_prefix first = Some td ∧
    field_text f name_prefix = Some tf ∧
    fields_text field_text (done ++ [f]) name_prefix first
    = Some (td ++ match done with
                  | [] => if first then [] else [SPACE]
                  | _ => [SPACE]
                  end ++ tf).
Proof.
  induction done as [|g done IH]; intros f rest name_prefix first t H.
  - cbn [app] in *. rewrite fields_text_cons in *.
    destruct (field_text f name_prefix) as [tf|]; [|discriminate].
    exists [], tf. cbn. rewrite app_nil_r. auto.
  - cbn [app] in *. rewrite fields_text_cons in H.
    rewrite (fields_text_cons g (done ++ [f])).
    destruct (field_text g name_prefix) as [tg|] eqn:Eg; [|discriminate].
    cbn [mbind option_bind] in *.
    destruct (fields_text field_text (done ++ f :: rest) name_prefix false)
      as [tr|] eqn:E; [|discriminate].
    apply IH in E as (td & tf & Htd & Htf & Hsnoc).
    exists ((if first then [] else [SPACE]) ++ tg ++ td), tf.
    rewrite Hsnoc. cbn [mbind option_bind].
    split; [rewrite fields_text_cons, Eg, Htd; reflexivity|].
    split; [exact Htf|].
    rewrite <- !app_assoc. destruct done; reflexivity.
Qed.

(** X4.  When the call for a record in which every record type has a field
    returns -1, the buffer holds whole fields only.  The record splits into
    the fields [done], the field [f] and the rest, where the text of [done]
    with its terminator fits the buffer and the text of [done] with [f]
    does not: [f] is the first field that does not fit.  The buffer then
    holds the text of [done], followed by the separator if there is room
    for it.  Nothing of [f] is left, also when it is a nested record of
    which some fields had been written. *)
Theorem to_str_truncated_content s name_prefix t m buffer buffer_size m' :
  populated s = true →
  record_text s name_prefix = Some t → nul_free t = true →
  0 <= buffer → 1 <= buffer_size <= INT_MAX →
  buffer + buffer_size <= Z.of_nat (length m) →
  to_str m buffer buffer_size (Some s) name_prefix = Some (-1, m') →
  ∃ done f rest td t1,
    s = done ++ f :: rest ∧
    record_text done name_prefix = Some td ∧
    record_text (done ++ [f]) name_prefix = Some t1 ∧
    strlen td < buffer_size <= strlen t1 ∧
    string_at m' buffer
    = take (Z.to_nat (buffer_size - 1))
        (td ++ match done with [] => [] | _ => [SPACE] end).
Proof.
  intros Hp Ht Hnul Hb Hs Hm H. simpl in H. unfold to_str_body in H.
  destruct (fields_loop _ s (Locals 0 true) m) as [|r0 m0|l0 m0] eqn:E.
  - discriminate.
  - inversion H; subst r0 m0. clear H.
    apply fields_loop_Return_split
      in E as (done & f & rest & l1 & m1 & -> & Hd & Hf).
    unfold populated in Hp. apply andb_true_iff in Hp as [_ Hp].
    rewrite forallb_app in Hp. apply andb_true_iff in Hp as [Hpd _].
    assert (0 <= offset l1 < buffer_size) as Ho.
    { split.
      - apply fields_loop_Continue_mono in Hd. simpl in Hd. lia.
      - destruct done as [|g done].
        + simpl in Hd. inversion Hd; subst. simpl. lia.
        + eapply (fields_loop_populated (g :: done)); eauto.
          every_field populated_step_all. }
    destruct (fields_loop_done_holds _ _ _ _ _ _ _ Hd ltac:(lia) Hb Hm)
      as (td & Htd & Hlen & Hh).
    destruct (fields_loop_below done ltac:(every_field below_step_all)
                _ _ _ _ _ _ _ Hd ltac:(lia) ltac:(simpl; unfold INT_MAX; lia))
      as (_ & _ & _ & _ & Hlm).
    pose proof Hd as Hfirst.
    apply fields_loop_Continue_first in Hfirst. simpl in Hfirst.
    assert (separator l1 = match done with [] => [] | _ => [SPACE] end)
      as Hsep by (unfold separator; rewrite Hfirst; destruct done; reflexivity).
    destruct (fields_text_snoc _ _ _ _ _ _ Ht)
      as (td' & tf & Htd' & Htf & Hsnoc).
    unfold record_text in Htd. rewrite Htd in Htd'. inversion Htd'; subst td'.
    exists done, f, rest, td, (td ++ separator l1 ++ tf).
    split; [reflexivity|]. split; [exact Htd|].
    split; [rewrite Hsep; exact Hsnoc|].
    split.
    { split; [lia|].
      destruct (Z_lt_le_dec (strlen (td ++ separator l1 ++ tf)) buffer_size)
        as [Hfit|Hge]; [exfalso|exact Hge].
      rewrite strlen_app in Hfit.
      rewrite (fits_step_all f buffer buffer_size name_prefix l1 m1 tf Htf)
        in Hf by lia.
      discriminate. }
    destruct (field_logic_Return_cut _ _ _ _ _ _ _ _ td Hf Hb Ho Hlen Hh)
      as [Hk Hend].
    rewrite Hsep in *.
    apply string_at_holds; auto.
    apply nul_free_take. rewrite nul_free_app. apply andb_true_iff. split.
    + apply fields_text_app in Ht as (td' & u & Htd'' & ->).
      rewrite Htd in Htd''. inversion Htd''; subst.
      rewrite nul_free_app in Hnul. apply andb_true_iff in Hnul as [? _].
      assumption.
    + destruct done; reflexivity.
  - exfalso.
    apply fields_loop_Continue_mono in E. simpl in E.
    destruct ((0 <? buffer_size) && (offset l0 <? buffer_size)).
    { destruct (store m0 _ NUL); simpl in H; inversion H; lia. }
    destruct ((0 <? buffer_size) && (buffer_size <=? offset l0)).
    { destruct (store m0 _ NUL); simpl in H; inversion H; lia. }
    inversion H; lia.
Qed.

(** The line of the test suite in 40 bytes: the nested record [end] does
    not fit, and the buffer holds the text of [start] and a space. *)
Lemma to_str_truncated_content_witness :
  ∃ m', to_str (fresh_buffer 40) 0 40 (Some l1) (Some (str "myline"))
        = Some (-1, m') ∧
        ∃ done f rest td t1,
          l1 = done ++ f :: rest ∧
          record_text done (Some (str "myline")) = Some td ∧
          record_text (done ++ [f]) (Some (str "myline")) = Some t1 ∧
          strlen td < 40 <= strlen t1 ∧
          string_at m' 0
          = take (Z.to_nat (40 - 1))
              (td ++ match done with [] => [] | _ => [SPACE] end).
Proof.
  eexists. split; [vm_compute; reflexivity|].
  apply (to_str_truncated_content l1 (Some (str "myline"))
           (str "myline.start.x=10 myline.start.y=20 myline.end.x=30 myline.end.y=40 myline.label=MainLine")
           (fresh_buffer 40) 0 40);
    [reflexivity | vm_compute; reflexivity | reflexivity | lia
    | unfold INT_MAX; lia
    | vm_compute; congruence | vm_compute; reflexivity].
Defined.

(** ** A null prefix *)


Lemma field_logic_null_prefix f buffer buffer_size l m :
  field_to_string_logic f buffer buffer_size None l m
  = field_to_string_logic f buffer buffer_size (Some []) l m.
Proof. rewrite !field_to_string_logic_eq. reflexivity. Qed.

Lemma fields_loop_ext (g1 g2 : field → locals → mem → outcome) fs :
  (∀ f l m, g1 f l m = g2 f l m) →
  ∀ l m, fields_loop g1 fs l m = fields_loop g2 fs l m.
Proof.
  intros Hg. induction fs as [|f fs IH]; intros l m; simpl; [reflexivity|].
  rewrite Hg. destruct (g2 f l m); auto.
Qed.

(** X5.  A null [name_prefix] gives what the empty string gives. *)
Theorem to_str_null_prefix m buffer buffer_size s :
  to_str m buffer buffer_size s None = to_str m buffer buffer_size s (Some []).
Proof.
  destruct s as [fields|]; [|reflexivity]. simpl. unfold to_str_body.
  rewrite (fields_loop_ext _
             (fun f => field_to_string_logic f buffer buffer_size (Some []))).
  - reflexivity.
  - intros f l m0. apply field_logic_null_prefix.
Qed.

(** * The allocation of the formatter *)

Lemma required_size_pairs user_message kvs :
  let msg := default [] user_message in
  kvs ≠ [] → strlen msg + pairs_size kvs + 2 < SIZE_MODULUS →
  required_size user_message (map pair_of kvs) (Z.of_nat (length kvs))
  = strlen msg + pairs_size kvs + 1
    + (if empty_message user_message then 0 else 1).
Proof.
  intros msg Hne Hwrap. unfold required_size.
  rewrite take_length_map.
  pose proof (strlen_nonneg msg).
  assert (0 <= pairs_size kvs) by (unfold pairs_size; lia).
  assert (match user_message with
          | Some m => size_t (0 + strlen m)
          | None => 0
          end = strlen msg) as ->.
  { subst msg. destruct user_message as [m|]; simpl; [|reflexivity].
    apply size_t_small. simpl in *. lia. }
  rewrite sizing_loop_sum by lia.
  replace (0 <? Z.of_nat (length kvs)) with true
    by (symmetry; apply Z.ltb_lt;
        destruct kvs; [congruence | cbn [length]; lia]).
  rewrite (size_t_small (strlen msg + pairs_size kvs + 1)) by lia.
  subst msg.
  destruct user_message as [[|c m]|]; simpl default in *; cbn [andb];
    rewrite ?size_t_small by lia; simpl; lia.
Qed.

Lemma strlen_append_tokens buffer kvs :
  kvs ≠ [] →
  strlen (append_tokens buffer kvs)
  = strlen buffer + strlen (token_separator buffer)
    + pairs_size kvs + escaped_bytes kvs - 1.
Proof.
  intros Hne. rewrite append_tokens_join by assumption.
  rewrite !strlen_app, strlen_join_tokens by assumption. lia.
Qed.

(** The call on pairs with keys and values, for sizes that do not wrap
    around. *)
Lemma format_logfmt_pairs_result user_message kvs :
  let msg := default [] user_message in
  kvs ≠ [] → strlen msg + pairs_size kvs + 2 < SIZE_MODULUS →
  format_logfmt true user_message (map pair_of kvs) (Z.of_nat (length kvs))
  = if escaped_bytes kvs <=? (if ends_in_space msg then 2 else 1)
    then Some (Some (append_tokens msg kvs))
    else None.
Proof.
  intros msg Hne Hwrap.
  pose proof (required_size_pairs user_message kvs Hne Hwrap) as Hreq.
  pose proof (strlen_append_tokens msg kvs Hne) as Hlen.
  assert (strlen (token_separator msg)
          + (if ends_in_space msg then 2 else 1)
          = 1 + (if empty_message user_message then 0 else 1)) as Hsep.
  { subst msg. unfold token_separator.
    destruct user_message as [[|c m]|]; simpl default; try reflexivity.
    change (0 <? strlen (c :: m)) with true.
    destruct (ends_in_space (c :: m)); reflexivity. }
  fold msg in Hreq.
  destruct (escaped_bytes kvs <=? (if ends_in_space msg then 2 else 1)) eqn:E.
  - apply format_logfmt_fits. fold msg. lia.
  - apply format_logfmt_overflow. fold msg. lia.
Qed.

(** X6.  For pairs with keys and values the formatter stays within its
    allocation exactly when at most one byte of the values needs an escape,
    or at most two when the message ends in a space; it then returns the
    message and the tokens.  With more bytes to escape a [strcat] writes
    past the allocation: [required_size] counts every value without its
    escapes. *)
Theorem format_logfmt_overflow_exactly user_message kvs :
  let msg := default [] user_message in
  kvs ≠ [] → strlen msg + pairs_size kvs + 2 < SIZE_MODULUS →
  format_logfmt true user_message (map pair_of kvs) (Z.of_nat (length kvs))
  = if escaped_bytes kvs <=? (if ends_in_space msg then 2 else 1)
    then Some (Some (append_tokens msg kvs))
    else None.
Proof. exact (format_logfmt_pairs_result user_message kvs). Qed.

(** A message that ends in a space and a value of two quotes: the line fits
    the allocation. *)
Lemma format_logfmt_overflow_exactly_witness :
  format_logfmt true (Some (str "m "))
    (map pair_of [(str "k", [QUOTE; QUOTE])])
    (Z.of_nat (length [(str "k", [QUOTE; QUOTE])]))
  = Some (Some (append_tokens (str "m ") [(str "k", [QUOTE; QUOTE])])).
Proof.
  apply (format_logfmt_overflow_exactly (Some (str "m "))
           [(str "k", [QUOTE; QUOTE])]);
    [congruence | vm_compute; reflexivity].
Defined.

Lemma format_logfmt_without_pairs user_message pairs num_pairs :
  num_pairs <= 0 →
  strlen (default [] user_message) + 1 < SIZE_MODULUS →
  format_logfmt true user_message pairs num_pairs
  = Some (Some (default [] user_message)).
Proof.
  intros Hn Hwrap. unfold format_logfmt, required_size.
  assert ((Z.of_nat (length pairs) <? num_pairs) = false) as ->
    by (apply Z.ltb_ge; lia).
  assert ((0 <? num_pairs) = false) as -> by (apply Z.ltb_ge; lia).
  assert (Z.to_nat num_pairs = 0%nat) as -> by lia.
  rewrite take_0. cbn [sizing_loop pairs_loop andb negb].
  destruct user_message as [[|c m]|]; simpl default in *; cbv zeta;
    try reflexivity.
  pose proof (strlen_nonneg (c :: m)).
  rewrite Z.add_0_l, (size_t_small (strlen (c :: m))) by lia.
  rewrite size_t_small by lia.
  assert ((strlen (c :: m) + 1 <? 1) = false) as -> by (apply Z.ltb_ge; lia).
  rewrite Z.leb_refl. reflexivity.
Qed.

(** X7.  With a count of pairs that is zero or negative the formatter
    returns a copy of the message, the empty string for a null message, and
    does not look at the array of pairs. *)
Theorem format_logfmt_no_pairs user_message pairs num_pairs :
  num_pairs <= 0 →
  strlen (default [] user_message) + 1 < SIZE_MODULUS →
  format_logfmt true user_message pairs num_pairs
  = Some (Some (default [] user_message)).
Proof. exact (format_logfmt_without_pairs user_message pairs num_pairs). Qed.

(** A message and a null array of pairs. *)
Lemma format_logfmt_no_pairs_witness :
  format_logfmt true (Some (str "started")) [] 0
  = Some (Some (default [] (Some (str "started")))).
Proof.
  apply (format_logfmt_no_pairs (Some (str "started")) [] 0);
    [lia | vm_compute; reflexivity].
Defined.

(** ** What the escapes allow a reader of the line *)

Lemma spec_escape_prefix_free v1 : ∀ v2 r1 r2,
  spec_escape v1 ++ QUOTE :: r1 = spec_escape v2 ++ QUOTE :: r2 →
  v1 = v2 ∧ r1 = r2.
Proof.
  induction v1 as [|c1 v1 IH]; intros [|c2 v2] r1 r2 H.
  - simpl in H. inversion H. auto.
  - exfalso. rewrite spec_escape_cons in H.
    unfold spec_escape_byte in H. simpl in H.
    destruct (Ascii.eqb c2 QUOTE) eqn:Eq; [discriminate|].
    destruct (Ascii.eqb c2 BACKSLASH) eqn:Eb; [discriminate|].
    simpl in H. inversion H; subst. discriminate.
  - exfalso. rewrite spec_escape_cons in H.
    unfold spec_escape_byte in H. simpl in H.
    destruct (Ascii.eqb c1 QUOTE) eqn:Eq; [discriminate|].
    destruct (Ascii.eqb c1 BACKSLASH) eqn:Eb; [discriminate|].
    simpl in H. inversion H; subst. discriminate.
  - rewrite !spec_escape_cons, <- !app_assoc in H.
    unfold spec_escape_byte in H.
    destruct (Ascii.eqb c1 QUOTE) eqn:Eq1;
      [|destruct (Ascii.eqb c1 BACKSLASH) eqn:Eb1];
      (destruct (Ascii.eqb c2 QUOTE) eqn:Eq2;
       [|destruct (Ascii.eqb c2 BACKSLASH) eqn:Eb2]);
      simpl in H; inversion H; subst;
      rewrite ?Ascii.eqb_refl in *; try discriminate;
      repeat match goal with
             | E : Ascii.eqb _ _ = true |- _ => apply Ascii.eqb_eq in E; subst
             end;
      match goal with
      | Hr : spec_escape v1 ++ _ = spec_escape v2 ++ _ |- _ =>
          apply IH in Hr as [-> ->]; auto
      end.
Qed.

(** X8.  The escaped value and the closing quote determine the value: if
    what the loop appends for two values, each followed by a quote and any
    other bytes, is the same text, the values are the same and so are the
    bytes that follow. *)
Theorem escape_loop_prefix_free capacity buffer v1 v2 e1 e2 r1 r2 :
  escape_loop capacity buffer v1 = Some e1 →
  escape_loop capacity buffer v2 = Some e2 →
  e1 ++ QUOTE :: r1 = e2 ++ QUOTE :: r2 →
  v1 = v2 ∧ r1 = r2.
Proof.
  intros [-> _]%escape_loop_Some [-> _]%escape_loop_Some H.
  rewrite <- !app_assoc in H. apply app_inv_head in H.
  eapply spec_escape_prefix_free; eauto.
Qed.

(** The value [a] twice, each time followed by a quote and [b]. *)
Lemma escape_loop_prefix_free_witness :
  escape_loop 64 [] (str "a") = Some (str "a") ∧
  (str "a" = str "a" ∧ str "b" = str "b").
Proof.
  split; [reflexivity|].
  apply (escape_loop_prefix_free 64 [] (str "a") (str "a") (str "a") (str "a")
           (str "b") (str "b")); reflexivity.
Defined.

(** * The logger on the heap *)

Section OnTheHeap.

Local Abbreviation formatted := format_logfmt (only parsing).

Import Runtime.

(** ** Blocks allocated after those of a given heap *)

Section Blocks.

Variables (h : list (option block)) (wr : list (FILE * cstring)).

Lemma live_after l f c :
  0 < c →
  live (World (h ++ l) f wr) (after h c)
  = match l !! Z.to_nat (c - 1) with
    | Some (Some b) => Some b
    | _ => None
    end.
Proof.
  intros Hc. unfold live, after. simpl.
  replace (0 <? Z.of_nat (length h) + c) with true by decide_comparison.
  replace (Z.to_nat (Z.of_nat (length h) + c - 1))
    with (length h + Z.to_nat (c - 1))%nat by lia.
  rewrite lookup_app_r by lia.
  replace (length h + Z.to_nat (c - 1) - length h)%nat
    with (Z.to_nat (c - 1)) by lia.
  reflexivity.
Qed.

Lemma after_not_null c : 0 < c → (after h c =? 0) = false.
Proof. unfold after. intros. decide_comparison. Qed.

Lemma alloc_after l f b ok :
  alloc b (World (h ++ l) (ok :: f) wr)
  = if ok
    then Some (after h (Z.of_nat (length l) + 1),
               World (h ++ (l ++ [Some b])) f wr)
    else Some (0, World (h ++ l) f wr).
Proof.
  unfold alloc, after. simpl. destruct ok; [|reflexivity].
  rewrite length_app, <- app_assoc. do 2 f_equal. lia.
Qed.

Lemma alloc_exhausted l b :
  alloc b (World (h ++ l) [] wr) = Some (0, World (h ++ l) [] wr).
Proof. reflexivity. Qed.

Lemma free_after l f c b :
  0 < c → l !! Z.to_nat (c - 1) = Some (Some b) →
  free (after h c) (World (h ++ l) f wr)
  = Some (tt, World (h ++ <[Z.to_nat (c - 1) := None]> l) f wr).
Proof.
  intros Hc Hl. unfold free. rewrite after_not_null, live_after, Hl by lia.
  simpl. unfold after.
  replace (Z.to_nat (Z.of_nat (length h) + c - 1))
    with (length h + Z.to_nat (c - 1))%nat by lia.
  rewrite insert_app_r. reflexivity.
Qed.

Lemma free_null w : free 0 w = Some (tt, w).
Proof. reflexivity. Qed.

Lemma set_cell_after l f c i x cells :
  0 < c → l !! Z.to_nat (c - 1) = Some (Some (Pairs cells)) →
  (i < length cells)%nat →
  set_cell (after h c) i x (World (h ++ l) f wr)
  = Some (tt, World (h ++ <[Z.to_nat (c - 1)
                             := Some (Pairs (<[i := x]> cells))]> l) f wr).
Proof.
  intros Hc Hl Hi. unfold set_cell. rewrite live_after, Hl by lia.
  simpl. replace (i <? length cells)%nat with true
    by (symmetry; apply Nat.ltb_lt; exact Hi).
  unfold after.
  replace (Z.to_nat (Z.of_nat (length h) + c - 1))
    with (length h + Z.to_nat (c - 1))%nat by lia.
  rewrite insert_app_r. reflexivity.
Qed.

Lemma cell_of_after l f c i x cells :
  0 < c → l !! Z.to_nat (c - 1) = Some (Some (Pairs cells)) →
  cells !! i = Some x →
  cell_of (after h c) i (World (h ++ l) f wr)
  = Some (x, World (h ++ l) f wr).
Proof.
  intros Hc Hl Hi. unfold cell_of, load, mbind, M_bind.
  rewrite live_after, Hl by lia. rewrite Hi. reflexivity.
Qed.

Lemma string_of_after l f c s :
  0 < c → l !! Z.to_nat (c - 1) = Some (Some (Chars s)) →
  string_of (after h c) (World (h ++ l) f wr)
  = Some (s, World (h ++ l) f wr).
Proof.
  intros Hc Hl. unfold string_of, load, mbind, M_bind.
  rewrite live_after, Hl by lia. reflexivity.
Qed.

(** Blocks that have all been freed leave the heap as it was. *)
Lemma live_freed l f f' wr' a :
  Forall (fun b => b = None) l →
  live (World (h ++ l) f wr) a = live (World h f' wr') a.
Proof.
  intros Hl. unfold live. simpl. destruct (0 <? a); [|reflexivity].
  destruct (decide (Z.to_nat (a - 1) < length h)%nat) as [Hlt|Hge].
  - rewrite lookup_app_l by lia. reflexivity.
  - rewrite lookup_app_r by lia.
    rewrite (lookup_ge_None_2 h) by lia.
    destruct (l !! _) as [b|] eqn:E; [|reflexivity].
    apply (Forall_lookup_1 _ _ _ _ Hl) in E. subst. reflexivity.
Qed.

Lemma format_logfmt_fails user_message pairs num_pairs :
  num_pairs <= Z.of_nat (length pairs) →
  formatted false user_message pairs num_pairs = Some None.
Proof.
  intros H. unfold formatted.
  replace (Z.of_nat (length pairs) <? num_pairs) with false
    by decide_comparison.
  reflexivity.
Qed.

(** The formatter called without pairs. *)
Lemma format_logfmt_at_no_pairs user_message l fs :
  strlen (default [] user_message) + 1 < SIZE_MODULUS →
  Runtime.format_logfmt user_message 0 0 (World (h ++ l) fs wr)
  = Some (if fst (allocate fs)
          then (after h (Z.of_nat (length l) + 1),
                World (h ++ (l ++ [Some (Chars (default [] user_message))]))
                  (snd (allocate fs)) wr)
          else (0, World (h ++ l) (snd (allocate fs)) wr)).
Proof.
  intros Hwrap. unfold Runtime.format_logfmt, read_pairs.
  change (0 <=? 0) with true. cbv iota.
  unfold mbind, mret, M_bind, M_ret, next_fate. cbn [fate heap written].
  destruct (allocate fs) as [[|] fs'] eqn:E; cbn [fst snd].
  - rewrite format_logfmt_without_pairs by (assumption || lia).
    unfold place, after. cbn [heap fate written].
    rewrite length_app, <- app_assoc, Nat2Z.inj_add, Z.add_assoc.
    reflexivity.
  - rewrite format_logfmt_fails by (simpl; lia). reflexivity.
Qed.

(** The formatter called on the array that [parse_unknown_error] returns. *)
Lemma format_logfmt_at_one_pair user_message k v rest fs :
  let msg := default [] user_message in
  let l := Some (Pairs [(after h 2, after h 3)])
           :: Some (Chars k) :: Some (Chars v) :: rest in
  strlen msg + pairs_size [(k, v)] + 2 < SIZE_MODULUS →
  count_escapes v = 0%nat →
  Runtime.format_logfmt user_message (after h 1) 1 (World (h ++ l) fs wr)
  = Some (if fst (allocate fs)
          then (after h (Z.of_nat (length l) + 1),
                World (h ++ (l ++ [Some (Chars (append_tokens msg [(k, v)]))]))
                  (snd (allocate fs)) wr)
          else (0, World (h ++ l) (snd (allocate fs)) wr)).
Proof.
  intros msg l Hwrap Hesc. unfold Runtime.format_logfmt, read_pairs.
  change (1 <=? 0) with false. cbv iota.
  unfold mbind, mret, M_bind, M_ret, load.
  rewrite live_after by lia. subst l. cbn [lookup list_lookup app Z.to_nat].
  change (Z.to_nat (1 - 1)) with 0%nat. cbn [lookup list_lookup app].
  change (Z.of_nat (length [(after h 2, after h 3)]) <? 1) with false.
  cbv iota. change (Z.to_nat 1) with 1%nat. cbn [take pairs_at].
  unfold pair_at. cbn [fst snd].
  rewrite !after_not_null by lia. cbn [orb].
  unfold mbind, mret, M_bind, M_ret.
  erewrite !string_of_after by (first [lia | reflexivity]).
  unfold next_fate. cbn [fate heap written].
  destruct (allocate fs) as [[|] fs'] eqn:E; cbn [fst snd].
  - pose proof (format_logfmt_pairs_result user_message [(k, v)]
                  ltac:(congruence) Hwrap) as Hrun.
    cbv zeta in Hrun. fold msg in Hrun.
    replace (escaped_bytes [(k, v)]) with 0 in Hrun
      by (unfold escaped_bytes; simpl; lia).
    replace (0 <=? (if ends_in_space msg then 2 else 1)) with true in Hrun
      by (destruct (ends_in_space msg); reflexivity).
    change (map pair_of [(k, v)])
      with [{| key := Some k; value := Some v |}] in Hrun.
    change (Z.of_nat (length [(k, v)])) with 1 in Hrun.
    rewrite Hrun. unfold place, after. cbn [heap fate written].
    rewrite length_app, <- app_assoc, Nat2Z.inj_add, Z.add_assoc.
    reflexivity.
  - rewrite format_logfmt_fails by (simpl; lia). reflexivity.
Qed.


End Blocks.

Lemma live_freed_nil h l f f' wr wr' a :
  Forall (fun b => b = None) l →
  live (World (h ++ l) f wr) a = live (World (h ++ []) f' wr') a.
Proof. intros Hl. rewrite app_nil_r. apply live_freed. exact Hl. Qed.

Lemma printf_string_line s :
  printf_output (str "%s" ++ [NEWLINE]) [VStr (Some s)]
  = Some (s ++ [NEWLINE]).
Proof. reflexivity. Qed.

Lemma printf_formatter_failed s :
  printf_output
    (str "[LOG_ERRORR Warning] Formatter failed. Raw user message: %s"
     ++ [NEWLINE]) [VStr (Some s)]
  = Some (str "[LOG_ERRORR Warning] Formatter failed. Raw user message: "
          ++ s ++ [NEWLINE]).
Proof. reflexivity. Qed.

Lemma count_escapes_app a b :
  count_escapes (a ++ b) = (count_escapes a + count_escapes b)%nat.
Proof. induction a as [|c a IH]; simpl; [reflexivity|]. rewrite IH. lia. Qed.

Lemma count_escapes_take n v :
  count_escapes v = 0%nat → count_escapes (take n v) = 0%nat.
Proof.
  intros H. rewrite <- (take_drop n v), count_escapes_app in H. lia.
Qed.

Lemma spec_escape_plain v : count_escapes v = 0%nat → spec_escape v = v.
Proof.
  induction v as [|c v IH]; [reflexivity|]. cbn [count_escapes].
  rewrite spec_escape_cons. unfold spec_escape_byte, needs_escape.
  destruct (Ascii.eqb c QUOTE); [simpl; lia|].
  destruct (Ascii.eqb c BACKSLASH); [simpl; lia|].
  simpl. intros H. rewrite IH by exact H. reflexivity.
Qed.

Lemma unknown_error_value_plain (percent_p : Z → cstring) (error_details : Z) :
  count_escapes (percent_p error_details) = 0%nat →
  count_escapes
    (snprintf_local 128
       (str "unhandled_type_at_address_" ++ percent_p error_details))
  = 0%nat.
Proof.
  intros H. apply count_escapes_take. rewrite count_escapes_app, H.
  reflexivity.
Qed.

Lemma unknown_error_fits (percent_p : Z → cstring) (error_details : Z)
    (msg : cstring) :
  strlen msg <= 1023 →
  strlen msg
  + pairs_size
      [(str "unknown_error_type",
        snprintf_local 128
          (str "unhandled_type_at_address_" ++ percent_p error_details))]
  + 2 < SIZE_MODULUS.
Proof.
  intros H. unfold pairs_size, snprintf_local. cbn [map list_sum fst snd].
  rewrite length_take. change SIZE_MODULUS with 18446744073709551616.
  change (length (str "unknown_error_type")) with 18%nat.
  change (128 - 1)%nat with 127%nat. unfold list_sum. cbn [foldr].
  unfold strlen in *. lia.
Qed.

Lemma strlen_take_le n (s : cstring) : strlen (take n s) <= Z.of_nat n.
Proof. unfold strlen. rewrite length_take. lia. Qed.

Lemma placeholder_value_plain (percent_p : Z → cstring) (error_details : Z) :
  count_escapes (percent_p error_details) = 0%nat →
  count_escapes
    (snprintf_local 128
       (str "LOG_ERROR_DISPATCH_TO_PARSER not defined by user for type at "
        ++ percent_p error_details))
  = 0%nat.
Proof.
  intros H. apply count_escapes_take. rewrite count_escapes_app, H.
  reflexivity.
Qed.

Lemma placeholder_fits (percent_p : Z → cstring) (error_details : Z)
    (msg : cstring) :
  strlen msg <= 1023 →
  strlen msg
  + pairs_size
      [(str "logging_error",
        snprintf_local 128
          (str "LOG_ERROR_DISPATCH_TO_PARSER not defined by user for type at "
           ++ percent_p error_details))]
  + 2 < SIZE_MODULUS.
Proof.
  intros H. unfold pairs_size, snprintf_local. cbn [map list_sum fst snd].
  rewrite length_take. change SIZE_MODULUS with 18446744073709551616.
  change (length (str "logging_error")) with 13%nat.
  change (128 - 1)%nat with 127%nat. unfold list_sum. cbn [foldr].
  unfold strlen in *. lia.
Qed.

(** ** Running the code on blocks that are known *)

Ltac pipeline_simpl :=
  cbn [fst snd app length heap fate written negb andb orb allocate
       g_current_formatter g_current_sink g_default_log_stream
       init_logging_system default from_option id fmap option_fmap
       option_map];
  cbv [Z.of_nat Pos.of_succ_nat Pos.succ Z.add Z.sub Z.opp Z.pos_sub
       Z.to_nat Pos.to_nat Pos.iter_op Nat.add Init.Nat.add Pos.add
       Pos.add_carry Z.double Z.succ_double Z.pred_double Pos.pred_double
       Nat.ltb Nat.leb];
  rewrite ?Z.eqb_refl;
  cbn [lookup list_lookup insert list_insert negb andb orb free_loop].

Ltac pipeline_step :=
  first
    [ rewrite alloc_after
    | rewrite alloc_exhausted
    | rewrite free_null
    | rewrite after_not_null by lia
    | erewrite free_after by (first [lia | reflexivity])
    | erewrite set_cell_after by (first [lia | reflexivity | simpl; lia])
    | erewrite cell_of_after by (first [lia | reflexivity])
    | erewrite string_of_after by (first [lia | reflexivity])
    | rewrite printf_string_line
    | rewrite printf_formatter_failed ];
  pipeline_simpl.

Ltac pipeline_run :=
  unfold mbind, mret, M_bind, M_ret, fprintf, fputs, sink_to_file_stream,
    free_kv_pairs;
  pipeline_simpl; repeat pipeline_step.

Ltac freed := intros; apply live_freed_nil; repeat constructor.

Ltac pipeline_case Hesc :=
  pipeline_run;
  try (first
         [ rewrite (format_logfmt_at_one_pair _ _ (Some (take 1023 _)) _ _ [])
             by (simpl default;
                 first [ apply unknown_error_fits; lia
                       | apply unknown_error_value_plain; apply Hesc;
                         assumption ])
         | rewrite format_logfmt_at_no_pairs
             by (simpl default; change SIZE_MODULUS with 18446744073709551616;
                 lia) ];
       pipeline_run);
  try change (1 =? 0) with false; pipeline_simpl;
  eexists _, _; split; [reflexivity|]; pipeline_simpl;
  rewrite <- ?app_assoc; cbn [app];
  split; [reflexivity|];
  split; [discriminate|];
  split; [repeat constructor|];
  intros; apply live_freed_nil; repeat constructor.

(** ** The extractors and [free_kv_pairs] *)

(** X9.  Whatever allocations fail, [parse_unknown_error] is defined and
    returns null with the count 0, or an array with the count 1.  When it
    returns null it has freed what it had allocated, and [free_kv_pairs] on
    its result leaves on the heap exactly the allocations that were there
    before the call; nothing is written to a stream. *)
Theorem parse_unknown_error_then_free percent_p error_details w :
  ∃ pairs n w1 w2,
    parse_unknown_error percent_p error_details (Some 0) w
      = Some ((pairs, Some n), w1) ∧
    n = (if pairs =? 0 then 0 else 1) ∧
    (pairs = 0 → ∀ a, live w1 a = live w a) ∧
    free_kv_pairs pairs n w1 = Some (tt, w2) ∧
    (∀ a, live w2 a = live w a) ∧
    written w2 = written w.
Proof.
  destruct w as [h f wr]. rewrite <- (app_nil_r h).
  unfold parse_unknown_error, free_kv_pairs.
  destruct (error_details =? 0) eqn:E0.
  { eexists _, _, _, _. split; [reflexivity|]. pipeline_simpl.
    repeat split; reflexivity. }
  destruct f as [|[|] [|[|] [|[|] f]]];
    (eexists _, _, _, _; split; [pipeline_run; reflexivity|]);
    pipeline_simpl; rewrite ?after_not_null by lia;
    (split; [reflexivity|]);
    (split; [try (intros; exfalso; unfold after in *; lia); try freed|]);
    (split; [pipeline_run; reflexivity|]);
    (split; [freed | reflexivity]).
Qed.

(** X10.  The same holds for [generic_error_parser_placeholder], which
    duplicates the value also when duplicating the key has failed. *)
Theorem placeholder_then_free percent_p error_details w :
  ∃ pairs n w1 w2,
    generic_error_parser_placeholder percent_p error_details (Some 0) w
      = Some ((pairs, Some n), w1) ∧
    n = (if pairs =? 0 then 0 else 1) ∧
    (pairs = 0 → ∀ a, live w1 a = live w a) ∧
    free_kv_pairs pairs n w1 = Some (tt, w2) ∧
    (∀ a, live w2 a = live w a) ∧
    written w2 = written w.
Proof.
  destruct w as [h f wr]. rewrite <- (app_nil_r h).
  unfold generic_error_parser_placeholder, free_kv_pairs.
  destruct (error_details =? 0) eqn:E0.
  { eexists _, _, _, _. split; [reflexivity|]. pipeline_simpl.
    repeat split; reflexivity. }
  destruct f as [|[|] [|[|] [|[|] f]]];
    (eexists _, _, _, _; split; [pipeline_run; reflexivity|]);
    pipeline_simpl; rewrite ?after_not_null by lia;
    (split; [reflexivity|]);
    (split; [try (intros; exfalso; unfold after in *; lia); try freed|]);
    (split; [pipeline_run; reflexivity|]);
    (split; [freed | reflexivity]).
Qed.

(** ** The message of [LOG_ERRORR] *)

Lemma user_message_buffer_take user_fmt args out :
  printf_output user_fmt args = Some out →
  strlen out <= INT_MAX →
  user_message_buffer user_fmt args = Some (take 1023 out).
Proof.
  intros Hout Hlen. unfold user_message_buffer. rewrite Hout. simpl.
  replace (strlen out <=? INT_MAX) with true by decide_comparison.
  pose proof (strlen_nonneg out) as H0.
  replace (strlen out <? 0) with false by decide_comparison.
  rewrite size_t_small by (unfold SIZE_MODULUS, INT_MAX in *; lia).
  unfold snprintf_local. change (1024 - 1)%nat with 1023%nat.
  destruct (1024 <=? strlen out) eqn:E; [|reflexivity].
  assert (strlen (take 1023 out) = 1023) as ->
    by (unfold strlen in *; rewrite length_take; lia).
  reflexivity.
Qed.

(** X11.  For a user format of ordinary bytes and the directives [%%],
    [%d] and [%s] whose output has no 0 byte, the message the macro hands to
    the formatter is the first 1023 bytes of the output.  The text
    [...(msg_truncated)] is not appended to such a message: after a
    truncation [strlen] of the array is 1023, so that the space the macro
    computes for the text is 0.  An output with a 0 byte, which needs a
    directive such as [%c], is outside the statement. *)
Theorem user_message_buffer_truncates user_fmt args out :
  printf_output user_fmt args = Some out →
  nul_free out = true →
  strlen out <= INT_MAX →
  user_message_buffer user_fmt args = Some (take 1023 out) ∧
  (1024 <= strlen out →
   strlen (take 1023 out) = 1023 ∧
   size_t (1024 - strlen (take 1023 out) - 1) = 0 ∧
   size_t (1024 - strlen (take 1023 out) - 1) < strlen trunc_indicator).
Proof.
  intros Hout _ Hlen.
  split; [exact (user_message_buffer_take user_fmt args out Hout Hlen)|].
  intros Hlong.
  assert (strlen (take 1023 out) = 1023) as ->
    by (unfold strlen in *; rewrite length_take; lia).
  repeat split; reflexivity.
Qed.

(** A message of 1500 bytes. *)
Lemma user_message_buffer_truncates_witness :
  user_message_buffer (replicate 1500 "a"%char) []
  = Some (take 1023 (replicate 1500 "a"%char)) ∧
  (1024 <= strlen (replicate 1500 "a"%char) →
   strlen (take 1023 (replicate 1500 "a"%char)) = 1023 ∧
   size_t (1024 - strlen (take 1023 (replicate 1500 "a"%char)) - 1) = 0 ∧
   size_t (1024 - strlen (take 1023 (replicate 1500 "a"%char)) - 1)
   < strlen trunc_indicator).
Proof.
  apply (user_message_buffer_truncates (replicate 1500 "a"%char) []);
    [vm_compute; reflexivity | vm_compute; reflexivity
    | vm_compute; congruence].
Defined.

(** ** The macro before [init_logging_system] *)

(** X12.  While the formatter or the sink is null the macro writes three
    pieces to the default stream, [stderr] if that is null: a fixed text,
    the user message formatted from the arguments of the macro, whole, and
    a newline.  It calls no extractor and allocates nothing. *)
Theorem LOG_ERRORR_not_initialized percent_p g dispatch error_details_ptr
    user_fmt va_args args out w :
  g_current_formatter g = None ∨ g_current_sink g = None →
  printf_output user_fmt va_args = Some out →
  LOG_ERRORR percent_p g dispatch error_details_ptr user_fmt va_args args w
  = Some (tt,
          World (heap w) (fate w)
            (written w ++
             map (pair (default stderr (g_default_log_stream g)))
               [ str "[LOG_ERRORR Critical] Logging system not initialized. User message: ";
                 out;
                 [NEWLINE] ])).
Proof.
  intros Hg Hout. unfold LOG_ERRORR.
  assert (∀ s : FILE,
    (fprintf s
       (str "[LOG_ERRORR Critical] Logging system not initialized. User message: ")
       [];;
     fprintf s user_fmt va_args;;
     fprintf s [NEWLINE] []) w
    = Some (tt,
            World (heap w) (fate w)
              (written w ++
               map (pair s)
                 [ str "[LOG_ERRORR Critical] Logging system not initialized. User message: ";
                   out;
                   [NEWLINE] ]))) as Hrun.
  { intros s. unfold fprintf. rewrite Hout.
    unfold mbind, M_bind, fputs. simpl. rewrite <- !app_assoc. reflexivity. }
  destruct (g_current_formatter g) as [formatter|];
    destruct (g_current_sink g) as [sink|]; try apply Hrun.
  destruct Hg; discriminate.
Qed.

(** The globals as they are at the start of the program. *)
Lemma LOG_ERRORR_not_initialized_witness :
  LOG_ERRORR glibc_percent_p globals_at_start
    (parse_unknown_error glibc_percent_p) 140737488347136
    (str "disk %d full") [VInt 7] [] (World [] [] [])
  = Some (tt,
          World (heap (World [] [] [])) (fate (World [] [] []))
            (written (World [] [] []) ++
             map (pair (default stderr (g_default_log_stream globals_at_start)))
               [ str "[LOG_ERRORR Critical] Logging system not initialized. User message: ";
                 str "disk 7 full";
                 [NEWLINE] ])).
Proof.
  apply (LOG_ERRORR_not_initialized glibc_percent_p globals_at_start
           (parse_unknown_error glibc_percent_p) 140737488347136
           (str "disk %d full") [VInt 7] [] (str "disk 7 full")
           (World [] [] []));
    [left; reflexivity | reflexivity].
Defined.

(** ** The macro with the default formatter and sink *)



(** X14.  With [parse_unknown_error] as the extractor, a pointer that is not
    null and four allocations that succeed, the macro writes one line: the
    message, a space unless the message is empty or ends in one, the token
    [unknown_error_type] with the quoted value
    [unhandled_type_at_address_] and the text of the address, and a
    newline.  The array, its two strings and the line are freed. *)
Theorem LOG_ERRORR_unknown_error percent_p default_stream error_details
    user_fmt va_args args out w f :
  error_details ≠ 0 →
  count_escapes (percent_p error_details) = 0%nat →
  printf_output user_fmt args = Some out →
  strlen out <= INT_MAX →
  fate w = true :: true :: true :: true :: f →
  ∃ w',
    LOG_ERRORR percent_p
      (init_logging_system (Some Runtime.format_logfmt)
         (Some sink_to_file_stream) default_stream)
      (parse_unknown_error percent_p) error_details user_fmt va_args args w
    = Some (tt, w') ∧
    written w'
    = written w ++
      [(default stderr default_stream,
        take 1023 out ++ token_separator (take 1023 out)
        ++ str "unknown_error_type"
        ++ "="%char :: QUOTE
           :: snprintf_local 128
                (str "unhandled_type_at_address_" ++ percent_p error_details)
           ++ [QUOTE; NEWLINE])] ∧
    fate w' = f ∧
    ∀ a, live w' a = live w a.
Proof.
  intros Hne Hesc Hout Hlen Hf. destruct w as [h fs wr]. simpl in Hf.
  subst fs. rewrite <- (app_nil_r h). unfold LOG_ERRORR.
  rewrite (user_message_buffer_take _ _ _ Hout Hlen).
  replace (error_details =? 0) with false by decide_comparison.
  unfold parse_unknown_error.
  replace (error_details =? 0) with false by decide_comparison.
  pipeline_run.
  pose proof (strlen_take_le 1023 out) as Hmsg.
  rewrite (format_logfmt_at_one_pair h wr (Some (take 1023 out)) _ _ [])
    by (simpl default;
        first [ apply unknown_error_fits; lia
              | apply unknown_error_value_plain; exact Hesc ]).
  pipeline_run.
  eexists. split; [reflexivity|]. pipeline_simpl.
  split; [|split; [reflexivity|]].
  - do 2 f_equal. cbn [append_tokens]. unfold spec_token. cbn [fst snd].
    rewrite spec_escape_plain
      by (apply unknown_error_value_plain; exact Hesc).
    rewrite <- !app_assoc. cbn [app]. rewrite <- !app_assoc. reflexivity.
  - intros a. apply live_freed_nil. repeat constructor.
Qed.

(** An address as glibc prints it. *)
Lemma LOG_ERRORR_unknown_error_witness :
  ∃ w',
    LOG_ERRORR glibc_percent_p
      (init_logging_system (Some Runtime.format_logfmt)
         (Some sink_to_file_stream) None)
      (parse_unknown_error glibc_percent_p) 140737488347136
      (str "disk %d full") [] [VInt 7]
      (World [] [true; true; true; true] [])
    = Some (tt, w') ∧
    written w'
    = written (World [] [true; true; true; true] []) ++
      [(default stderr None,
        take 1023 (str "disk 7 full")
        ++ token_separator (take 1023 (str "disk 7 full"))
        ++ str "unknown_error_type"
        ++ "="%char :: QUOTE
           :: snprintf_local 128
                (str "unhandled_type_at_address_"
                 ++ glibc_percent_p 140737488347136)
           ++ [QUOTE; NEWLINE])] ∧
    fate w' = [] ∧
    ∀ a, live w' a = live (World [] [true; true; true; true] []) a.
Proof.
  apply (LOG_ERRORR_unknown_error glibc_percent_p None 140737488347136
           (str "disk %d full") [] [VInt 7] (str "disk 7 full")
           (World [] [true; true; true; true] []) []);
    [lia | reflexivity | reflexivity | vm_compute; congruence | reflexivity].
Defined.

(** X15.  When the first allocation of [parse_unknown_error] fails and the
    allocation of the formatter succeeds, the macro writes the line it
    writes for a null [error_details_ptr]: nothing in the output tells that
    the details were lost. *)
Theorem LOG_ERRORR_extractor_fails percent_p default_stream error_details
    user_fmt va_args args out w f :
  error_details ≠ 0 →
  printf_output user_fmt args = Some out →
  strlen out <= INT_MAX →
  fate w = false :: true :: f →
  ∃ w',
    LOG_ERRORR percent_p
      (init_logging_system (Some Runtime.format_logfmt)
         (Some sink_to_file_stream) default_stream)
      (parse_unknown_error percent_p) error_details user_fmt va_args args w
    = Some (tt, w') ∧
    written w'
    = written w ++ [(default stderr default_stream,
                     take 1023 out ++ [NEWLINE])] ∧
    ∀ a, live w' a = live w a.
Proof.
  intros Hne Hout Hlen Hf. destruct w as [h fs wr]. simpl in Hf.
  subst fs. rewrite <- (app_nil_r h). unfold LOG_ERRORR.
  rewrite (user_message_buffer_take _ _ _ Hout Hlen).
  replace (error_details =? 0) with false by decide_comparison.
  unfold parse_unknown_error.
  replace (error_details =? 0) with false by decide_comparison.
  pipeline_run.
  pose proof (strlen_take_le 1023 out) as Hmsg.
  rewrite format_logfmt_at_no_pairs
    by (simpl default; change SIZE_MODULUS with 18446744073709551616; lia).
  pipeline_run.
  eexists. split; [reflexivity|]. pipeline_simpl.
  split; [reflexivity|].
  intros a. apply live_freed_nil. repeat constructor.
Qed.

(** The array cannot be allocated, the line can. *)
Lemma LOG_ERRORR_extractor_fails_witness :
  ∃ w',
    LOG_ERRORR glibc_percent_p
      (init_logging_system (Some Runtime.format_logfmt)
         (Some sink_to_file_stream) None)
      (parse_unknown_error glibc_percent_p) 140737488347136
      (str "disk %d full") [] [VInt 7] (World [] [false; true] [])
    = Some (tt, w') ∧
    written w'
    = written (World [] [false; true] []) ++
      [(default stderr None, take 1023 (str "disk 7 full") ++ [NEWLINE])] ∧
    ∀ a, live w' a = live (World [] [false; true] []) a.
Proof.
  apply (LOG_ERRORR_extractor_fails glibc_percent_p None 140737488347136
           (str "disk %d full") [] [VInt 7] (str "disk 7 full")
           (World [] [false; true] []) []);
    [lia | reflexivity | vm_compute; congruence | reflexivity].
Defined.

(** X16.  With the default formatter and sink and [parse_unknown_error] as
    the extractor, whatever allocations fail: the macro is defined, it
    writes at least one piece and writes to the default stream only, and it
    leaves on the heap exactly the allocations that were there before. *)
Theorem LOG_ERRORR_leaks_nothing percent_p default_stream error_details
    user_fmt va_args args out w :
  (error_details ≠ 0 → count_escapes (percent_p error_details) = 0%nat) →
  printf_output user_fmt args = Some out →
  strlen out <= INT_MAX →
  ∃ w' lines,
    LOG_ERRORR percent_p
      (init_logging_system (Some Runtime.format_logfmt)
         (Some sink_to_file_stream) default_stream)
      (parse_unknown_error percent_p) error_details user_fmt va_args args w
    = Some (tt, w') ∧
    written w' = written w ++ lines ∧
    lines ≠ [] ∧
    Forall (fun line => fst line = default stderr default_stream) lines ∧
    ∀ a, live w' a = live w a.
Proof.
  intros Hesc Hout Hlen. destruct w as [h fs wr].
  pose proof (strlen_take_le 1023 out) as Hmsg.
  rewrite <- (app_nil_r h). unfold LOG_ERRORR.
  rewrite (user_message_buffer_take _ _ _ Hout Hlen).
  destruct (error_details =? 0) eqn:E0.
  - destruct fs as [|[|] fs]; pipeline_case Hesc.
  - assert (error_details ≠ 0) as Hne by (apply Z.eqb_neq; exact E0).
    unfold parse_unknown_error. rewrite E0.
    destruct fs as [|[|] [|[|] [|[|] [|[|] fs]]]];
      pipeline_case Hesc.
Qed.

(** All allocations fail: two warnings are written. *)
Lemma LOG_ERRORR_leaks_nothing_witness :
  ∃ w' lines,
    LOG_ERRORR glibc_percent_p
      (init_logging_system (Some Runtime.format_logfmt)
         (Some sink_to_file_stream) None)
      (parse_unknown_error glibc_percent_p) 140737488347136
      (str "disk %d full") [] [VInt 7] (World [] [] [])
    = Some (tt, w') ∧
    written w' = written (World [] [] []) ++ lines ∧
    lines ≠ [] ∧
    Forall (fun line => fst line = default stderr None) lines ∧
    ∀ a, live w' a = live (World [] [] []) a.
Proof.
  apply (LOG_ERRORR_leaks_nothing glibc_percent_p None 140737488347136
           (str "disk %d full") [] [VInt 7] (str "disk 7 full")
           (World [] [] []));
    [intros _; reflexivity | reflexivity | vm_compute; congruence].
Defined.

(** X17.  With [LOG_ERROR_DISPATCH_TO_PARSER] as the header defines it, a
    call of [generic_error_parser_placeholder], the line carries the token
    [logging_error] whose value says that the macro has not been defined by
    the user, with the text of the address. *)
Theorem LOG_ERRORR_placeholder percent_p default_stream error_details
    user_fmt va_args args out w f :
  error_details ≠ 0 →
  count_escapes (percent_p error_details) = 0%nat →
  printf_output user_fmt args = Some out →
  strlen out <= INT_MAX →
  fate w = true :: true :: true :: true :: f →
  ∃ w',
    LOG_ERRORR percent_p
      (init_logging_system (Some Runtime.format_logfmt)
         (Some sink_to_file_stream) default_stream)
      (generic_error_parser_placeholder percent_p)
      error_details user_fmt va_args args w
    = Some (tt, w') ∧
    written w'
    = written w ++
      [(default stderr default_stream,
        take 1023 out ++ token_separator (take 1023 out)
        ++ str "logging_error"
        ++ "="%char :: QUOTE
           :: snprintf_local 128
                (str "LOG_ERROR_DISPATCH_TO_PARSER not defined by user for type at "
                 ++ percent_p error_details)
           ++ [QUOTE; NEWLINE])] ∧
    fate w' = f ∧
    ∀ a, live w' a = live w a.
Proof.
  intros Hne Hesc Hout Hlen Hf. destruct w as [h fs wr]. simpl in Hf.
  subst fs. rewrite <- (app_nil_r h). unfold LOG_ERRORR.
  rewrite (user_message_buffer_take _ _ _ Hout Hlen).
  replace (error_details =? 0) with false by decide_comparison.
  unfold generic_error_parser_placeholder.
  replace (error_details =? 0) with false by decide_comparison.
  pipeline_run.
  pose proof (strlen_take_le 1023 out) as Hmsg.
  rewrite (format_logfmt_at_one_pair h wr (Some (take 1023 out)) _ _ [])
    by (simpl default;
        first [ apply placeholder_fits; lia
              | apply placeholder_value_plain; exact Hesc ]).
  pipeline_run.
  eexists. split; [reflexivity|]. pipeline_simpl.
  split; [|split; [reflexivity|]].
  - do 2 f_equal. cbn [append_tokens]. unfold spec_token. cbn [fst snd].
    rewrite spec_escape_plain
      by (apply placeholder_value_plain; exact Hesc).
    rewrite <- !app_assoc. cbn [app]. rewrite <- !app_assoc. reflexivity.
  - intros a. apply live_freed_nil. repeat constructor.
Qed.

(** The macro as the header leaves it. *)
Lemma LOG_ERRORR_placeholder_witness :
  ∃ w',
    LOG_ERRORR glibc_percent_p
      (init_logging_system (Some Runtime.format_logfmt)
         (Some sink_to_file_stream) None)
      (generic_error_parser_placeholder glibc_percent_p) 140737488347136
      (str "disk %d full") [] [VInt 7]
      (World [] [true; true; true; true] [])
    = Some (tt, w') ∧
    written w'
    = written (World [] [true; true; true; true] []) ++
      [(default stderr None,
        take 1023 (str "disk 7 full")
        ++ token_separator (take 1023 (str "disk 7 full"))
        ++ str "logging_error"
        ++ "="%char :: QUOTE
           :: snprintf_local 128
                (str "LOG_ERROR_DISPATCH_TO_PARSER not defined by user for type at "
                 ++ glibc_percent_p 140737488347136)
           ++ [QUOTE; NEWLINE])] ∧
    fate w' = [] ∧
    ∀ a, live w' a = live (World [] [true; true; true; true] []) a.
Proof.
  apply (LOG_ERRORR_placeholder glibc_percent_p None 140737488347136
           (str "disk %d full") [] [VInt 7] (str "disk 7 full")
           (World [] [true; true; true; true] []) []);
    [lia | reflexivity | reflexivity | vm_compute; congruence | reflexivity].
Defined.



End OnTheHeap.

(** * The stringifier written by hand and the record that nests it *)

Lemma SpecialFeature_names name_prefix cname :
  (length cname <= 12)%nat →
  let full_feature_prefix :=
    match name_prefix with
    | Some (c :: p) => snprintf_local 256 (c :: p)
    | _ => []
    end in
  let dot :=
    match full_feature_prefix with
    | [] => []
    | _ => str "."
    end in
  snprintf_local 300 (full_feature_prefix ++ dot ++ cname)
  = SpecialFeature_key name_prefix cname.
Proof.
  intros Hc. unfold SpecialFeature_key, snprintf_local.
  change (300 - 1)%nat with 299%nat. change (256 - 1)%nat with 255%nat.
  destruct name_prefix as [[|c p]|]; cbv zeta.
  - apply take_ge. simpl. lia.
  - cbn [take]. cbv iota. apply take_ge.
    rewrite !length_app. cbn [length]. rewrite length_take.
    change (length (str ".")) with 1%nat. lia.
  - apply take_ge. simpl. lia.
Qed.

Lemma printf_feature_id a b :
  printf_output (str "%s%sfeature_id") [VStr (Some a); VStr (Some b)]
  = Some (a ++ b ++ str "feature_id").
Proof. reflexivity. Qed.

Lemma printf_feature_name a b :
  printf_output (str "%s%sfeature_name") [VStr (Some a); VStr (Some b)]
  = Some (a ++ b ++ str "feature_name").
Proof. reflexivity. Qed.

Lemma printf_feature_first a n :
  printf_output (str "%s=%d (custom_fmt)") [VStr (Some a); VInt n]
  = Some (a ++ str "=" ++ decimal n ++ str " (custom_fmt)").
Proof. reflexivity. Qed.

Lemma printf_feature_second a b :
  printf_output
    (str " %s=" ++ [BACKSLASH; QUOTE] ++ str "%s" ++ [BACKSLASH; QUOTE]
     ++ str " (custom_fmt)")
    [VStr (Some a); VStr (Some b)]
  = Some (str " " ++ a
          ++ "="%char :: BACKSLASH :: QUOTE
             :: b ++ BACKSLASH :: QUOTE :: str " (custom_fmt)").
Proof. reflexivity. Qed.

Lemma SpecialFeature_to_str_eq m buffer buffer_size s name_prefix :
  strlen (SpecialFeature_first s name_prefix) < 512 →
  strlen (SpecialFeature_text s name_prefix) <= INT_MAX →
  SpecialFeature_to_str m buffer buffer_size (Some s) name_prefix
  = let text := SpecialFeature_text s name_prefix in
    if 512 <=? strlen text then Some (-1, m)
    else if buffer_size <=? size_t (strlen text) then
      if 0 <? buffer_size
      then m' ← store m (buffer + (buffer_size - 1)) NUL; Some (-1, m')
      else Some (-1, m)
    else m' ← store_bytes m buffer (text ++ [NUL]); Some (strlen text, m').
Proof.
  intros Hfirst Hmax. unfold SpecialFeature_to_str, snprintf_array.
  rewrite printf_feature_id, printf_feature_name.
  cbn [mbind option_bind snd fst].
  rewrite !SpecialFeature_names by (simpl; lia).
  rewrite printf_feature_first. fold (SpecialFeature_first s name_prefix).
  cbn [mbind option_bind snd fst].
  rewrite printf_feature_second.
  fold (SpecialFeature_second s name_prefix).
  cbn [mbind option_bind snd fst]. cbv zeta.
  unfold SpecialFeature_text in *. rewrite strlen_app in *.
  pose proof (strlen_nonneg (SpecialFeature_first s name_prefix)) as HF.
  pose proof (strlen_nonneg (SpecialFeature_second s name_prefix)) as HS.
  set (F := strlen (SpecialFeature_first s name_prefix)) in *.
  set (S := strlen (SpecialFeature_second s name_prefix)) in *.
  assert (INT_MAX = 2147483647) as HI by reflexivity.
  assert (SIZE_MODULUS = 18446744073709551616) as HM by reflexivity.
  replace (F <=? INT_MAX) with true by decide_comparison.
  replace (S <=? INT_MAX) with true by decide_comparison.
  rewrite !size_t_small by lia.
  replace (F <? 0) with false by decide_comparison.
  replace (S <? 0) with false by decide_comparison.
  replace (512 <=? F) with false by decide_comparison.
  cbn [orb].
  destruct (512 <=? F + S) eqn:E.
  - replace (512 - F <=? S) with true by decide_comparison. reflexivity.
  - replace (512 - F <=? S) with false by decide_comparison.
    destruct (buffer_size <=? F + S); [reflexivity|].
    unfold snprintf_local. rewrite !take_ge by (unfold strlen in *; lia).
    reflexivity.
Qed.
Lemma strlen_SpecialFeature_key name_prefix cname :
  strlen (SpecialFeature_key name_prefix cname) <= 256 + strlen cname.
Proof.
  unfold SpecialFeature_key, snprintf_local, strlen.
  destruct name_prefix as [[|c p]|]; try lia.
  rewrite !length_app, length_take. change (length (str ".")) with 1%nat.
  lia.
Qed.

Lemma strlen_SpecialFeature_first s name_prefix :
  strlen (decimal (feature_id s)) <= 11 →
  strlen (SpecialFeature_first s name_prefix) < 512.
Proof.
  intros Hd. unfold SpecialFeature_first. rewrite !strlen_app.
  pose proof (strlen_SpecialFeature_key name_prefix (str "feature_id")) as Hk.
  change (strlen (str "feature_id")) with 10 in Hk.
  change (strlen (str "=")) with 1.
  change (strlen (str " (custom_fmt)")) with 13. lia.
Qed.

Lemma SpecialFeature_fits m buffer buffer_size s name_prefix :
  let text := SpecialFeature_text s name_prefix in
  strlen (decimal (feature_id s)) <= 11 →
  strlen text < 512 → strlen text < buffer_size →
  0 <= buffer → buffer + strlen text < Z.of_nat (length m) →
  SpecialFeature_to_str m buffer buffer_size (Some s) name_prefix
  = Some (strlen text, write m (Z.to_nat buffer) (text ++ [NUL])).
Proof.
  intros text Hd H512 Hsize Hb Hm.
  pose proof (strlen_nonneg text) as H0.
  rewrite SpecialFeature_to_str_eq
    by (first [ apply strlen_SpecialFeature_first; exact Hd
              | fold text; unfold INT_MAX; lia ]).
  cbv zeta. fold text.
  replace (512 <=? strlen text) with false by decide_comparison.
  rewrite size_t_small
    by (change SIZE_MODULUS with 18446744073709551616; lia).
  replace (buffer_size <=? strlen text) with false by decide_comparison.
  rewrite store_bytes_in_range
    by (rewrite ?strlen_app; change (strlen [NUL]) with 1; lia).
  reflexivity.
Qed.


(** X18.  When the text of a feature is shorter than 512 bytes and than the
    capacity, [SpecialFeature_to_str] returns its length and stores it with
    a terminator.  The text is the two fields with [ (custom_fmt)] after
    each value, the keys under at most 255 bytes of the prefix, and the name
    between two pairs of a backslash and a quote; a null name reads
    [null]. *)
Theorem SpecialFeature_to_str_fits m buffer buffer_size s name_prefix :
  let text := SpecialFeature_text s name_prefix in
  strlen (decimal (feature_id s)) <= 11 →
  strlen text < 512 → strlen text < buffer_size →
  0 <= buffer → buffer + strlen text < Z.of_nat (length m) →
  SpecialFeature_to_str m buffer buffer_size (Some s) name_prefix
  = Some (strlen text, write m (Z.to_nat buffer) (text ++ [NUL])).
Proof. exact (SpecialFeature_fits m buffer buffer_size s name_prefix). Qed.

(** The feature of the test suite under the prefix [feat]: 78 bytes. *)
Lemma SpecialFeature_to_str_fits_witness :
  SpecialFeature_to_str (fresh_buffer 1024) 0 1024 (Some sf1)
    (Some (str "feat"))
  = Some (strlen (SpecialFeature_text sf1 (Some (str "feat"))),
          write (fresh_buffer 1024) (Z.to_nat 0)
            (SpecialFeature_text sf1 (Some (str "feat")) ++ [NUL])).
Proof.
  apply (SpecialFeature_to_str_fits (fresh_buffer 1024) 0 1024 sf1
           (Some (str "feat")));
    [vm_compute; congruence | vm_compute; reflexivity
    | vm_compute; reflexivity | lia | vm_compute; reflexivity].
Defined.

Lemma SpecialFeature_too_long m buffer buffer_size s name_prefix :
  strlen (decimal (feature_id s)) <= 11 →
  512 <= strlen (SpecialFeature_text s name_prefix) <= INT_MAX →
  SpecialFeature_to_str m buffer buffer_size (Some s) name_prefix
  = Some (-1, m).
Proof.
  intros Hd Hlong.
  rewrite SpecialFeature_to_str_eq
    by (first [ apply strlen_SpecialFeature_first; exact Hd | lia ]).
  cbv zeta.
  replace (512 <=? strlen (SpecialFeature_text s name_prefix)) with true
    by decide_comparison.
  reflexivity.
Qed.

(** X19.  When the text of a feature has 512 bytes or more,
    [SpecialFeature_to_str] returns -1 and stores nothing, whatever the
    capacity: the buffer is as it was and has not been given a
    terminator. *)
Theorem SpecialFeature_to_str_too_long m buffer buffer_size s name_prefix :
  strlen (decimal (feature_id s)) <= 11 →
  512 <= strlen (SpecialFeature_text s name_prefix) <= INT_MAX →
  SpecialFeature_to_str m buffer buffer_size (Some s) name_prefix
  = Some (-1, m).
Proof. exact (SpecialFeature_too_long m buffer buffer_size s name_prefix). Qed.

(** A name of 600 bytes and a buffer of 4096 bytes. *)
Lemma SpecialFeature_to_str_too_long_witness :
  SpecialFeature_to_str (fresh_buffer 4096) 0 4096
    (Some {| feature_id := 1;
             feature_name := Some (replicate 600 "n"%char) |})
    None
  = Some (-1, fresh_buffer 4096).
Proof.
  apply (SpecialFeature_to_str_too_long (fresh_buffer 4096) 0 4096
           {| feature_id := 1;
              feature_name := Some (replicate 600 "n"%char) |} None);
    [vm_compute; congruence | split; vm_compute; congruence].
Defined.

(** X20.  When the text of a feature is shorter than 512 bytes but does not
    fit the capacity, [SpecialFeature_to_str] returns -1 and stores one
    byte, the terminator in the last byte of the buffer: the bytes before it
    are what the buffer held before the call. *)
Theorem SpecialFeature_to_str_truncation m buffer buffer_size s name_prefix :
  strlen (decimal (feature_id s)) <= 11 →
  1 <= buffer_size <= strlen (SpecialFeature_text s name_prefix) →
  strlen (SpecialFeature_text s name_prefix) < 512 →
  0 <= buffer → buffer + buffer_size <= Z.of_nat (length m) →
  SpecialFeature_to_str m buffer buffer_size (Some s) name_prefix
  = Some (-1, <[Z.to_nat (buffer + (buffer_size - 1)) := NUL]> m).
Proof.
  intros Hd Hsize H512 Hb Hm.
  rewrite SpecialFeature_to_str_eq
    by (first [ apply strlen_SpecialFeature_first; exact Hd
              | unfold INT_MAX; lia ]).
  cbv zeta.
  replace (512 <=? strlen (SpecialFeature_text s name_prefix)) with false
    by decide_comparison.
  rewrite size_t_small
    by (change SIZE_MODULUS with 18446744073709551616; lia).
  replace (buffer_size <=? strlen (SpecialFeature_text s name_prefix))
    with true by decide_comparison.
  replace (0 <? buffer_size) with true by decide_comparison.
  rewrite store_in_range by lia. reflexivity.
Qed.

(** The last call of the test suite, in a buffer of 50 bytes. *)
Lemma SpecialFeature_to_str_truncation_witness :
  SpecialFeature_to_str (fresh_buffer 50) 0 50
    (Some {| feature_id := 777;
             feature_name :=
               Some (str "ThisIsAVeryLongFeatureNameDesignedToCauseOverflowInSmallBuffers")
          |})
    (Some (str "test"))
  = Some (-1, <[Z.to_nat (0 + (50 - 1)) := NUL]> (fresh_buffer 50)).
Proof.
  apply (SpecialFeature_to_str_truncation (fresh_buffer 50) 0 50
           {| feature_id := 777;
              feature_name :=
                Some (str "ThisIsAVeryLongFeatureNameDesignedToCauseOverflowInSmallBuffers")
           |}
           (Some (str "test")));
    [vm_compute; congruence | split; vm_compute; congruence
    | vm_compute; reflexivity | lia | vm_compute; congruence].
Defined.

(** ** The generated stringifier around the one written by hand *)

Lemma nested_logic_fits callee cname buffer buffer_size name_prefix l m t :
  (∀ m' b n,
     0 <= b → strlen t < n → b + strlen t < Z.of_nat (length m') →
     callee m' b n (Some (field_full_name name_prefix cname))
     = Some (strlen t, write m' (Z.to_nat b) (t ++ [NUL]))) →
  0 <= buffer → 0 <= offset l →
  offset l + strlen (separator l ++ t) < buffer_size →
  offset l + strlen (separator l ++ t) <= INT_MAX →
  buffer + offset l + strlen (separator l ++ t) < Z.of_nat (length m) →
  nested_logic callee cname buffer buffer_size name_prefix l m
  = Continue (Locals (offset l + strlen (separator l ++ t)) false)
      (write m (Z.to_nat (buffer + offset l)) (separator l ++ t ++ [NUL])).
Proof.
  intros Hcallee Hb Ho Hs Hi Hm. unfold nested_logic.
  rewrite strlen_app in *.
  pose proof (strlen_nonneg (separator l)). pose proof (strlen_nonneg t).
  rewrite separator_logic_fits by lia. cbv zeta. simpl offset.
  unfold remaining.
  replace (offset l + strlen (separator l) <? buffer_size) with true
    by decide_comparison.
  rewrite Hcallee by (rewrite ?length_write; lia).
  replace (strlen t <? 0) with false by decide_comparison.
  unfold int_add.
  replace (offset l + strlen (separator l) + strlen t <=? INT_MAX)
    with true by decide_comparison.
  rewrite (write_app (separator l)).
  f_equal; [f_equal; lia | f_equal; unfold strlen in *; lia].
Qed.

Lemma strlen_cons c (s : cstring) : strlen (c :: s) = 1 + strlen s.
Proof. unfold strlen. cbn [length]. lia. Qed.

(** X21.  When everything fits, [Product_to_str] returns the length of,
    and stores with a terminator, the text of the first field, a space, the
    text [SpecialFeature_to_str] gives the nested feature under the path of
    the field, a space and the text of the last field. *)
Theorem Product_to_str_fits m buffer buffer_size s name_prefix t :
  Product_text s name_prefix = Some t →
  strlen (decimal (feature_id (main_feature s))) <= 11 →
  strlen (SpecialFeature_text (main_feature s)
            (Some (field_full_name name_prefix (str "main_feature")))) < 512 →
  0 <= buffer → strlen t < buffer_size → strlen t <= INT_MAX →
  buffer + strlen t < Z.of_nat (length m) →
  Product_to_str m buffer buffer_size (Some s) name_prefix
  = Some (strlen t, write m (Z.to_nat buffer) (t ++ [NUL])).
Proof.
  intros Ht Hd H512 Hb Hs Hi Hm. unfold Product_text in Ht.
  destruct (field_text (PRIMITIVE (str "product_sku") _ _) name_prefix)
    as [sku|] eqn:Esku; [|discriminate].
  destruct (field_text (PRIMITIVE (str "product_name") _ _) name_prefix)
    as [name|] eqn:Ename; [|discriminate].
  cbn [mbind option_bind] in Ht. injection Ht as Ht. subst t.
  set (ft := SpecialFeature_text (main_feature s)
               (Some (field_full_name name_prefix (str "main_feature")))) in *.
  repeat rewrite ?strlen_app, ?strlen_cons in *.
  pose proof (strlen_nonneg sku). pose proof (strlen_nonneg ft).
  pose proof (strlen_nonneg name).
  unfold Product_to_str.
  rewrite (fits_step_all _ buffer buffer_size name_prefix (Locals 0 true) m
             sku Esku)
    by (cbn [offset separator first_field_in_struct app];
        rewrite ?strlen_app; lia).
  cbn [offset separator first_field_in_struct app].
  rewrite (nested_logic_fits _ _ _ _ _ _ _ ft)
    by (cbn [offset separator first_field_in_struct app];
        repeat rewrite ?length_write, ?strlen_app, ?strlen_cons;
        try lia;
        intros; apply SpecialFeature_fits; fold ft; lia).
  cbn [offset separator first_field_in_struct].
  rewrite (fits_step_all _ buffer buffer_size name_prefix _ _ name Ename)
    by (cbn [offset separator first_field_in_struct app];
        repeat rewrite ?length_write, ?strlen_app, ?strlen_cons; lia).
  cbn [offset separator first_field_in_struct finish app].
  repeat rewrite ?strlen_app, ?strlen_cons.
  replace (0 <? buffer_size) with true by decide_comparison.
  match goal with |- context [?x <? buffer_size] =>
    replace (x <? buffer_size) with true by decide_comparison end.
  cbn [andb].
  rewrite store_in_range by (rewrite ?length_write; lia).
  cbn [mbind option_bind]. f_equal. f_equal; [lia|].
  set (p := Z.to_nat buffer).
  replace (Z.to_nat (buffer + 0)) with p by lia.
  replace (Z.to_nat (buffer + (0 + strlen sku)))
    with (p + length sku)%nat by (unfold strlen; lia).
  change (SPACE :: ft ++ [NUL]) with ((SPACE :: ft) ++ [NUL]).
  rewrite write_over_terminator.
  replace (Z.to_nat (buffer + (0 + strlen sku + (1 + strlen ft))))
    with (p + length (sku ++ SPACE :: ft))%nat
    by (rewrite length_app; cbn [length]; unfold strlen; lia).
  change (SPACE :: name ++ [NUL]) with ((SPACE :: name) ++ [NUL]).
  rewrite write_over_terminator.
  replace (Z.to_nat
             (buffer + (0 + strlen sku + (1 + strlen ft) + (1 + strlen name))))
    with (p + length ((sku ++ SPACE :: ft) ++ SPACE :: name))%nat
    by (rewrite !length_app; cbn [length]; unfold strlen; lia).
  change (<[?i := NUL]> ?x) with (write x i ([] ++ [NUL])).
  rewrite write_over_terminator, app_nil_r, <- !app_assoc.
  cbn [app]. rewrite <- !app_assoc. reflexivity.
Qed.

(** The first product of the test suite: 139 bytes. *)
Lemma Product_to_str_fits_witness :
  Product_to_str (fresh_buffer 1024) 0 1024 (Some prod1) None
  = Some (strlen
            (str "product_sku=9001 main_feature.feature_id=101 (custom_fmt) main_feature.feature_name="
             ++ [BACKSLASH; QUOTE] ++ str "SuperSpeed" ++ [BACKSLASH; QUOTE]
             ++ str " (custom_fmt) product_name=Awesome Gadget"),
          write (fresh_buffer 1024) (Z.to_nat 0)
            ((str "product_sku=9001 main_feature.feature_id=101 (custom_fmt) main_feature.feature_name="
              ++ [BACKSLASH; QUOTE] ++ str "SuperSpeed"
              ++ [BACKSLASH; QUOTE]
              ++ str " (custom_fmt) product_name=Awesome Gadget")
             ++ [NUL])).
Proof.
  apply (Product_to_str_fits (fresh_buffer 1024) 0 1024 prod1 None);
    [vm_compute; reflexivity | vm_compute; congruence
    | vm_compute; reflexivity | lia | vm_compute; reflexivity
    | vm_compute; congruence | vm_compute; reflexivity].
Defined.



(** ** The test of the stringifiers *)

(** X23.  With [assert] enabled, [test_struct_to_str] passes the assertions
    of lines 191 to 208 and fails the one of line 209: the call of line 207
    returns 78, as line 208 expects, and leaves the name between pairs of a
    backslash and a quote, while the string line 209 compares it with has
    quotes only and 76 bytes. *)
Theorem test_struct_to_str_fails_at_209 :
  ∃ stdout, test_struct_to_str [] = Stop (AssertionFails 209) stdout.
Proof. eexists. vm_compute. reflexivity. Qed.

(** * The string comparison of the test file *)

Section CompareProperties.

Variable isprint : ascii → bool.

Lemma read_app_r (a b : mem) :
  read (a ++ b) (strlen a) = b !! 0%nat.
Proof.
  unfold read, strlen.
  replace (0 <=? Z.of_nat (length a)) with true by decide_comparison.
  rewrite Nat2Z.id, lookup_app_r by lia. rewrite Nat.sub_diag. reflexivity.
Qed.

Lemma read_beyond (s : mem) k :
  Z.of_nat (length s) <= k → read s k = None.
Proof.
  intros H. unfold read.
  replace (0 <=? k) with true by decide_comparison.
  apply lookup_ge_None_2. lia.
Qed.

(** The loop gets through a common part without a terminator. *)
Lemma scan_common u : ∀ done r1 r2 fuel,
  nul_free u = true →
  strlen (done ++ u) <= INT_MAX →
  (length u <= fuel)%nat →
  scan isprint (done ++ u ++ r1) (done ++ u ++ r2) fuel (strlen done)
  = scan isprint (done ++ u ++ r1) (done ++ u ++ r2) (fuel - length u)
      (strlen (done ++ u)).
Proof.
  induction u as [|c u IH]; intros done r1 r2 fuel Hnul Hmax Hfuel.
  - rewrite app_nil_r. simpl. rewrite Nat.sub_0_r. reflexivity.
  - cbn [nul_free forallb] in Hnul. apply andb_true_iff in Hnul as [Hc Hnul].
    apply negb_true_iff in Hc.
    destruct fuel as [|fuel]; [simpl in Hfuel; lia|].
    cbn [scan]. rewrite !read_app_r. cbn [app lookup list_lookup].
    cbn [mbind option_bind]. rewrite Hc, Ascii.eqb_refl. cbn [negb].
    unfold int_add. rewrite !strlen_app, strlen_cons in Hmax.
    pose proof (strlen_nonneg u). pose proof (strlen_nonneg done).
    replace (strlen done + 1 <=? INT_MAX) with true by decide_comparison.
    cbn [mbind option_bind].
    replace (strlen done + 1) with (strlen (done ++ [c]))
      by (rewrite strlen_app; reflexivity).
    replace (done ++ c :: u ++ r1) with ((done ++ [c]) ++ u ++ r1)
      by (rewrite <- app_assoc; reflexivity).
    replace (done ++ c :: u ++ r2) with ((done ++ [c]) ++ u ++ r2)
      by (rewrite <- app_assoc; reflexivity).
    rewrite IH
      by (first [ assumption
                | rewrite !strlen_app; change (strlen [c]) with 1; lia
                | simpl in Hfuel; lia ]).
    replace (done ++ c :: u) with ((done ++ [c]) ++ u)
      by (rewrite <- app_assoc; reflexivity).
    reflexivity.
Qed.

Lemma scan_eq s1 s2 fuel i :
  scan isprint s1 s2 fuel i =
  c1 ← read s1 i;
  if Ascii.eqb c1 NUL then
    c2 ← read s2 i;
    if Ascii.eqb c2 NUL then Some (0, [])
    else one_ended isprint (str "s1") (str "s2") s2 i
  else
    c2 ← read s2 i;
    if Ascii.eqb c2 NUL then one_ended isprint (str "s2") (str "s1") s1 i
    else if negb (Ascii.eqb c1 c2) then mismatch isprint s1 s2 i c1 c2
    else
      match fuel with
      | O => None
      | S fuel' => i' ← int_add i 1; scan isprint s1 s2 fuel' i'
      end.
Proof. destruct fuel; reflexivity. Qed.

Lemma one_ended_result ended longer s i r calls :
  one_ended isprint ended longer s i = Some (r, calls) → r = 1 ∧ calls ≠ [].
Proof.
  unfold one_ended. destruct (read s i); [|discriminate].
  cbn [mbind option_bind].
  destruct (int_add i 20); [|discriminate]. cbn [mbind option_bind].
  destruct (context_loop isprint s false i 20 i); [|discriminate].
  cbn [mbind option_bind].
  destruct (read s z); [|discriminate]. cbn [mbind option_bind].
  intros H; inversion H; split; [reflexivity | discriminate].
Qed.

Lemma mismatch_result s1 s2 i c1 c2 r calls :
  mismatch isprint s1 s2 i c1 c2 = Some (r, calls) → r = 1 ∧ calls ≠ [].
Proof.
  unfold mismatch.
  destruct (context isprint _ s1 i); [|discriminate].
  cbn [mbind option_bind].
  destruct (context isprint _ s2 i); [|discriminate].
  cbn [mbind option_bind].
  intros H; inversion H; split; [reflexivity | discriminate].
Qed.

Lemma one_null_result null other s r calls :
  one_null null other s = Some (r, calls) → r = 1 ∧ calls ≠ [].
Proof.
  unfold one_null. destruct (read s 50); [|discriminate].
  cbn [mbind option_bind].
  intros H; inversion H; split; [reflexivity | discriminate].
Qed.

Lemma read_Some s k c :
  read s k = Some c → 0 <= k ∧ s !! Z.to_nat k = Some c.
Proof.
  unfold read. destruct (0 <=? k) eqn:E; [|discriminate].
  intros H. split; [lia | exact H].
Qed.

(** The rounds of the loop never exceed the length of the first array: more
    fuel than that changes nothing. *)
Lemma scan_enough_fuel s1 s2 fuel : ∀ i,
  (length s1 <= Z.to_nat i + fuel)%nat →
  scan isprint s1 s2 (S fuel) i = scan isprint s1 s2 fuel i.
Proof.
  induction fuel as [|fuel IH]; intros i Hlen;
    rewrite !scan_eq;
    destruct (read s1 i) as [c1|] eqn:E1; try reflexivity;
    apply read_Some in E1 as [Hi E1]; cbn [mbind option_bind];
    destruct (Ascii.eqb c1 NUL); try reflexivity;
    destruct (read s2 i) as [c2|]; try reflexivity; cbn [mbind option_bind];
    destruct (Ascii.eqb c2 NUL); try reflexivity;
    destruct (negb (Ascii.eqb c1 c2)); try reflexivity.
  - apply lookup_lt_Some in E1. lia.
  - unfold int_add. destruct (i + 1 <=? INT_MAX); [|reflexivity].
    cbn [mbind option_bind]. apply IH. lia.
Qed.

(** What a result of the loop says about the two strings from index [i]
    on. *)
Lemma scan_sound s1 s2 fuel : ∀ i r calls,
  scan isprint s1 s2 fuel i = Some (r, calls) →
  (r = 0 ∧ calls = []
   ∧ until_nul (drop (Z.to_nat i) s1) = until_nul (drop (Z.to_nat i) s2))
  ∨ (r = 1 ∧ calls ≠ []
     ∧ until_nul (drop (Z.to_nat i) s1) ≠ until_nul (drop (Z.to_nat i) s2)).
Proof.
  induction fuel as [|fuel IH]; intros i r calls; rewrite scan_eq;
    (destruct (read s1 i) as [c1|] eqn:E1; [|discriminate]);
    apply read_Some in E1 as [Hi E1]; cbn [mbind option_bind];
    rewrite (drop_S _ _ _ E1);
    (destruct (read s2 i) as [c2|] eqn:E2;
     [| destruct (Ascii.eqb c1 NUL); discriminate ]);
    apply read_Some in E2 as [_ E2]; cbn [mbind option_bind];
    rewrite (drop_S _ _ _ E2); cbn [until_nul];
    destruct (Ascii.eqb c1 NUL) eqn:Ec1;
    destruct (Ascii.eqb c2 NUL) eqn:Ec2;
    try (intros H; inversion H; subst; left; auto; fail);
    try (intros H; apply one_ended_result in H as [-> H]; right;
         repeat split; [exact H | discriminate]; fail);
    (destruct (Ascii.eqb c1 c2) eqn:Ec; cbn [negb];
     [| intros H; apply mismatch_result in H as [-> H]; right;
        repeat split; [exact H |];
        apply Ascii.eqb_neq in Ec; congruence ]).
  - discriminate.
  - unfold int_add. destruct (i + 1 <=? INT_MAX); [|discriminate].
    cbn [mbind option_bind]. intros H. apply IH in H.
    apply Ascii.eqb_eq in Ec. subst c2.
    replace (Z.to_nat (i + 1)) with (S (Z.to_nat i)) in H by lia.
    destruct H as [(-> & -> & H)|(-> & Hc & H)].
    + left. rewrite H. auto.
    + right. repeat split; [exact Hc | congruence].
Qed.

(** X25.  Two arrays that hold the same text before their first terminator,
    of at most [INT_MAX] bytes: the function returns 0 and calls [printf]
    not once, whatever follows the terminators. *)
Theorem compare_equal_strings t r1 r2 :
  nul_free t = true → strlen t <= INT_MAX →
  compare_strings_and_print_diff isprint
    (Some (t ++ NUL :: r1)) (Some (t ++ NUL :: r2))
  = Some (0, []).
Proof.
  intros Hnul Hmax. unfold compare_strings_and_print_diff.
  pose proof (scan_common t [] (NUL :: r1) (NUL :: r2)
                (length (t ++ NUL :: r1)) Hnul Hmax) as H.
  cbn [app] in H. change (strlen []) with 0 in H.
  rewrite H by (rewrite length_app; lia).
  rewrite scan_eq, !read_app_r. reflexivity.
Qed.

(** X26.  Whenever the function returns: the result is 0 with no call of
    [printf] and the two arguments are both null or hold the same text, or
    the result is 1 with at least one call of [printf] and the arguments
    differ in that. *)
Theorem compare_result_sound s1 s2 r calls :
  compare_strings_and_print_diff isprint s1 s2 = Some (r, calls) →
  (r = 0 ∧ calls = []
   ∧ (until_nul <$> s1) = (until_nul <$> s2))
  ∨ (r = 1 ∧ calls ≠ []
     ∧ (until_nul <$> s1) ≠ (until_nul <$> s2)).
Proof.
  unfold compare_strings_and_print_diff.
  destruct s1 as [a|], s2 as [b|]; cbn [fmap option_fmap option_map].
  - intros H. apply scan_sound in H. change (Z.to_nat 0) with 0%nat in H.
    rewrite !drop_0 in H.
    destruct H as [(-> & -> & H)|(-> & Hc & H)].
    + left. rewrite H. auto.
    + right. repeat split; [exact Hc | congruence].
  - intros H. apply one_null_result in H as [-> H]. right.
    repeat split; [exact H | discriminate].
  - intros H. apply one_null_result in H as [-> H]. right.
    repeat split; [exact H | discriminate].
  - intros H; inversion H. left. auto.
Qed.

(** X27.  Two strings with the common part [t] that differ in the byte
    that follows, neither at its end: the function reads the bytes at index
    [strlen t + 10] of both arrays, whether or not the strings have ended
    before, so that it is undefined when one of the arrays has no such
    index. *)
Theorem compare_mismatch_reads_ahead t c1 r1 c2 r2 :
  nul_free t = true → strlen t + 10 <= INT_MAX →
  c1 ≠ NUL → c2 ≠ NUL → c1 ≠ c2 →
  Z.of_nat (length (t ++ c1 :: r1)) <= strlen t + 10
  ∨ Z.of_nat (length (t ++ c2 :: r2)) <= strlen t + 10 →
  compare_strings_and_print_diff isprint
    (Some (t ++ c1 :: r1)) (Some (t ++ c2 :: r2))
  = None.
Proof.
  intros Hnul Hmax H1 H2 Hne Hshort. unfold compare_strings_and_print_diff.
  pose proof (strlen_nonneg t) as Ht.
  pose proof (scan_common t [] (c1 :: r1) (c2 :: r2)
                (length (t ++ c1 :: r1)) Hnul ltac:(simpl; lia)) as H.
  cbn [app] in H. change (strlen []) with 0 in H.
  rewrite H by (rewrite length_app; lia). clear H.
  rewrite scan_eq, !read_app_r. cbn [lookup list_lookup mbind option_bind].
  apply Ascii.eqb_neq in H1, H2, Hne. rewrite H1, H2, Hne. cbn [negb].
  unfold mismatch, context, int_add.
  replace (strlen t + 10 <=? INT_MAX) with true by decide_comparison.
  cbn [mbind option_bind].
  destruct (context_loop isprint (t ++ c1 :: r1) _ _ _ _) as [shown1|];
    [|reflexivity].
  cbn [mbind option_bind].
  destruct (read (t ++ c1 :: r1) (strlen t + 10)) as [x|] eqn:E1;
    [|reflexivity].
  cbn [mbind option_bind].
  destruct (context_loop isprint (t ++ c2 :: r2) _ _ _ _) as [shown2|];
    [|reflexivity].
  cbn [mbind option_bind].
  destruct (read (t ++ c2 :: r2) (strlen t + 10)) as [y|] eqn:E2;
    [|reflexivity].
  exfalso. destruct Hshort as [Hs|Hs].
  - rewrite read_beyond in E1 by exact Hs. discriminate.
  - rewrite read_beyond in E2 by exact Hs. discriminate.
Qed.

(** X28.  One pointer null and the other an array of at most 50 bytes: the
    function reads the byte at index 50 of the array, which is undefined. *)
Theorem compare_null_reads_index_50 s :
  Z.of_nat (length s) <= 50 →
  compare_strings_and_print_diff isprint None (Some s) = None ∧
  compare_strings_and_print_diff isprint (Some s) None = None.
Proof.
  intros H. unfold compare_strings_and_print_diff, one_null.
  rewrite read_beyond by exact H. auto.
Qed.

End CompareProperties.

(** Two arrays with the text [abc], one with bytes after the terminator. *)
Lemma compare_equal_strings_witness :
  compare_strings_and_print_diff (fun _ => true)
    (Some (str "abc" ++ NUL :: [])) (Some (str "abc" ++ NUL :: str "xy"))
  = Some (0, []).
Proof.
  apply (compare_equal_strings (fun _ => true) (str "abc") [] (str "xy"));
    [reflexivity | vm_compute; congruence].
Defined.

(** The string [ab] against itself. *)
Lemma compare_result_sound_witness :
  (0 = 0 ∧ [] = ([] : list printf_call)
   ∧ (until_nul <$> Some (str "ab" ++ [NUL]))
     = (until_nul <$> Some (str "ab" ++ [NUL])))
  ∨ (0 = 1 ∧ ([] : list printf_call) ≠ []
     ∧ (until_nul <$> Some (str "ab" ++ [NUL]))
       ≠ (until_nul <$> Some (str "ab" ++ [NUL]))).
Proof.
  apply (compare_result_sound (fun _ => true)
           (Some (str "ab" ++ [NUL])) (Some (str "ab" ++ [NUL])) 0 []).
  reflexivity.
Defined.

(** The string literals [abc] and [abd], arrays of four bytes. *)
Lemma compare_mismatch_reads_ahead_witness :
  compare_strings_and_print_diff (fun _ => true)
    (Some (str "ab" ++ "c"%char :: [NUL]))
    (Some (str "ab" ++ "d"%char :: [NUL]))
  = None.
Proof.
  apply (compare_mismatch_reads_ahead (fun _ => true) (str "ab")
           "c"%char [NUL] "d"%char [NUL]);
    [ reflexivity | vm_compute; congruence | discriminate | discriminate
    | discriminate | left; vm_compute; congruence ].
Defined.

(** A null pointer against the string literal [abc]. *)
Lemma compare_null_reads_index_50_witness :
  compare_strings_and_print_diff (fun _ => true) None
    (Some (str "abc" ++ [NUL])) = None
  ∧ compare_strings_and_print_diff (fun _ => true)
      (Some (str "abc" ++ [NUL])) None = None.
Proof.
  apply (compare_null_reads_index_50 (fun _ => true) (str "abc" ++ [NUL])).
  vm_compute; congruence.
Defined.
